(** * gpt_lite: the phase-3 llama bridge (llama_bridge_phase3_real.cpp)

    A shallow embedding of the native inference bridge: the tokenizer, the
    forward pass, the streaming generation state machine, the model loader
    and the memory governor, with the properties of the specification that
    hold of them.

    Conventions of the embedding.
    - [size_t] is the 64-bit unsigned type of the arm64 target: a [Z] in
      [0, 2^64) with wrap-around written out ([wrap64]).
    - [int] and [int64_t] values are [Z]; narrowing conversions are written
      out ([to_int]).
    - [std::string] is [string], [std::vector<T>] is [list T],
      [std::map<K,V>] is [gmap K V].
    - A [RealTensorModel*] held by a context is represented by the handle
      under which the object sits in the model registry: every object is
      created by [new] immediately before it is committed under a fresh
      handle, and handles are never reused.
    - The registries only ever receive non-null pointers, so the null
      checks [if (pair.second)] of the source always succeed and are not
      repeated.
    - An operation that C++ may leave without a result (a dangling pointer
      is followed, an integer is divided by zero or leaves the range of
      [int], a vector of impossible size is requested) returns an [option],
      and [None] stands for all such executions.
    - The exception the code raises by itself is the [std::length_error]
      of a vector constructed with a negative count, in [forwardPass].  The
      executions that end in it are told by [forwardPass_throws] and
      [generateNextStreamingToken_throws]; they are the executions without
      a result in which the behaviour is defined, and the entry point that
      catches the exception, [getNextStreamingToken], runs its handler on
      them.  Exhaustion of the heap in [operator new] is not modelled, and
      so neither are the [catch] blocks that only it can reach.
    - Logging has no effect on the state and is left out. *)

From Stdlib Require Import ZArith Lia Ascii.
From stdpp Require Import base gmap strings list fin_maps pretty.
From Equations Require Import Equations.

Local Open Scope Z_scope.

(** ** Machine integers *)

Definition wrap64 (z : Z) : Z := z mod 2 ^ 64.
Definition size_add (a b : Z) : Z := wrap64 (a + b).
Definition size_mul (a b : Z) : Z := wrap64 (a * b).

Definition INT_MAX : Z := 2147483647.
Definition INT_MIN : Z := -2147483648.
(** Conversion of a wider integer to [int] (modular, as the targets do). *)
Definition to_int (z : Z) : Z := (z + 2 ^ 31) mod 2 ^ 32 - 2 ^ 31.
(** Conversion of a [size_t] to [jlong] (signed, 64 bits). *)
Definition to_jlong (z : Z) : Z := (z + 2 ^ 63) mod 2 ^ 64 - 2 ^ 63.
(** [gguf_get_val_u32] returns a [uint32_t]. *)
Definition to_u32 (z : Z) : Z := z mod 2 ^ 32.

(** [0; 1; ...; n - 1], the values an index variable takes in
    [for (int i = 0; i < n; i++)]; empty when [n <= 0]. *)
Definition for_range (n : Z) : list Z := Z.of_nat <$> seq 0 (Z.to_nat n).

(** The sum of [f] over the values of a registry. *)
Definition map_sum {V : Type} (f : V → Z) (m : gmap Z V) : Z :=
  map_fold (λ _ v acc, f v + acc) 0 m.

(** ** Strings *)

Fixpoint str_take (n : nat) (s : string) : string :=
  match n, s with
  | S n', String c s' => String c (str_take n' s')
  | _, _ => EmptyString
  end.

Fixpoint str_drop (n : nat) (s : string) : string :=
  match n, s with
  | S n', String _ s' => str_drop n' s'
  | _, _ => s
  end.

Definition ascii_code (c : ascii) : Z := Z.of_N (Ascii.N_of_ascii c).

(** [std::isalnum] and [std::tolower] in the C locale. *)
Definition isalnum (c : ascii) : bool :=
  let n := ascii_code c in
  ((48 <=? n) && (n <=? 57)) || ((65 <=? n) && (n <=? 90)) || ((97 <=? n) && (n <=? 122)).

Definition tolower (c : ascii) : ascii :=
  let n := ascii_code c in
  if (65 <=? n) && (n <=? 90) then Ascii.ascii_of_N (Z.to_N (n + 32)) else c.

Definition str_push (s : string) (c : ascii) : string := s +:+ String c EmptyString.

(** ** Reserved token ids *)

Definition TOKEN_PAD : Z := 0.
Definition TOKEN_UNK : Z := 1.
Definition TOKEN_BOS : Z := 2.
Definition TOKEN_EOS : Z := 3.

(** ** Tensors and models *)

Inductive ggml_type : Type :=
  | GGML_TYPE_F32 | GGML_TYPE_F16
  | GGML_TYPE_Q4_0 | GGML_TYPE_Q4_1 | GGML_TYPE_Q5_0 | GGML_TYPE_Q5_1
  | GGML_TYPE_Q8_0 | GGML_TYPE_Q8_1
  | GGML_TYPE_Q2_K | GGML_TYPE_Q3_K | GGML_TYPE_Q4_K | GGML_TYPE_Q5_K
  | GGML_TYPE_Q6_K | GGML_TYPE_Q8_K
  | GGML_TYPE_OTHER.

Definition ggmlTypeToString (t : ggml_type) : string :=
  match t with
  | GGML_TYPE_F32 => "F32" | GGML_TYPE_F16 => "F16"
  | GGML_TYPE_Q4_0 => "Q4_0" | GGML_TYPE_Q4_1 => "Q4_1"
  | GGML_TYPE_Q5_0 => "Q5_0" | GGML_TYPE_Q5_1 => "Q5_1"
  | GGML_TYPE_Q8_0 => "Q8_0" | GGML_TYPE_Q8_1 => "Q8_1"
  | GGML_TYPE_Q2_K => "Q2_K" | GGML_TYPE_Q3_K => "Q3_K"
  | GGML_TYPE_Q4_K => "Q4_K" | GGML_TYPE_Q5_K => "Q5_K"
  | GGML_TYPE_Q6_K => "Q6_K" | GGML_TYPE_Q8_K => "Q8_K"
  | GGML_TYPE_OTHER => "UNKNOWN"
  end.

(** A tensor created by [ggml_new_tensor_1d (ctx, GGML_TYPE_F32, ne)]: a
    dense float buffer of [ne] elements.  The pseudo-random contents the
    loader writes into it are read by no operation and are not modelled. *)
Record ggml_tensor : Type := { ne : Z }.

#[global] Instance ggml_tensor_eq_dec : EqDecision ggml_tensor.
Proof. solve_decision. Defined.

(** What the bridge reads from a parsed container ([struct gguf_context]):
    the unsigned 32-bit metadata values by key, the string array
    [tokenizer.ggml.tokens] when present, and the tensor directory. *)
Record gguf_tensor_info : Type := {
  ti_name : string;
  ti_type : ggml_type;
  ti_size : Z
}.

Record gguf_context : Type := {
  gguf_version : Z;
  gguf_kv_u32 : gmap string Z;
  gguf_tokens : option (list string);
  gguf_infos : list gguf_tensor_info
}.

(** A ggml memory pool ([struct ggml_context]): its size and the element
    counts of the tensors created in it so far. *)
Record ggml_context : Type := {
  mem_size : Z;
  pool_objects : list Z
}.

(** The ggml library is outside the repository; its two allocation entry
    points are parameters of the model: whether [ggml_init] returns a
    context for a pool of the given size, and whether
    [ggml_new_tensor_1d] finds room for one more F32 tensor. *)
Record GgmlLibrary : Type := {
  ggml_init : Z → bool;
  ggml_new_tensor_1d : ggml_context → Z → bool
}.

Record RealTensorModel : Type := {
  path : string;
  file_size : Z;
  loaded : bool;
  gguf_ctx : option gguf_context;     (* [None] is the null pointer *)
  ggml_ctx : option ggml_context;     (* [None] is the null pointer *)
  n_vocab : Z;
  n_embd : Z;
  n_head : Z;
  n_layer : Z;
  n_ctx : Z;
  tensors : gmap string ggml_tensor;
  tensor_types : gmap string ggml_type;
  vocab : list string;
  token_to_id : gmap string Z;
  id_to_token : gmap Z string;
  tensor_data : bool;                 (* the buffer pointer is non-null *)
  tensor_data_size : Z
}.

(** The constructor [RealTensorModel()]. *)
Definition new_RealTensorModel : RealTensorModel := {|
  path := ""; file_size := 0; loaded := false; gguf_ctx := None; ggml_ctx := None;
  n_vocab := 0; n_embd := 0; n_head := 0; n_layer := 0; n_ctx := 2048;
  tensors := ∅; tensor_types := ∅; vocab := []; token_to_id := ∅; id_to_token := ∅;
  tensor_data := false; tensor_data_size := 0 |}.

(** ** Tokenizer *)

(** The inner [for] loop of [tokenizeSubword]: prefixes of length [len],
    [len - 1], ..., 1 are looked up; the first hit wins. *)
Fixpoint longest_prefix (t2i : gmap string Z) (remaining : string) (len : nat)
  : option (nat * Z) :=
  match len with
  | O => None
  | S len' =>
      match t2i !! str_take len remaining with
      | Some id => Some (len, id)
      | None => longest_prefix t2i remaining len'
      end
  end.

Definition prefix_bound (remaining : string) : nat := Nat.min (String.length remaining) 10.

(** Case analysis that remembers the equation (for the termination proof). *)
Definition inspect {A : Type} (x : A) : {y : A | x = y} := exist _ x eq_refl.

(** The [while (!remaining.empty())] loop of [tokenizeSubword].  Every
    iteration that continues removes a matched prefix of at least one
    character, so the length of [remaining] is a termination measure. *)
Equations? tokenizeSubword_loop (t2i : gmap string Z) (remaining : string) : list Z
  by wf (String.length remaining) lt :=
  tokenizeSubword_loop t2i EmptyString := [];
  tokenizeSubword_loop t2i (String c s)
    with inspect (longest_prefix t2i (String c s) (prefix_bound (String c s))) := {
    | exist _ (Some (len, id)) _ => id :: tokenizeSubword_loop t2i (str_drop len (String c s));
    | exist _ None _ => [TOKEN_UNK] }.
Proof.
  assert (Hk : (1 <= len)%nat).
  { assert (Hn : forall r n k i, longest_prefix t2i r n = Some (k, i) -> (1 <= k)%nat).
    { clear. intros r n k i. induction n as [|n IH]; simpl; [discriminate|].
      destruct (t2i !! _); intros E; [inversion E; lia|]. exact (IH E). }
    exact (Hn (String c s) (prefix_bound (String c s)) len id e). }
  assert (Hd : forall n r, (String.length (str_drop n r) <= String.length r)%nat).
  { induction n as [|n IH]; intros [|a r]; simpl; auto. all: specialize (IH r); lia. }
  destruct len as [|len]; [lia|]. simpl. specialize (Hd len s). lia.
Qed.

Definition tokenizeSubword (word : string) (model : RealTensorModel) : list Z :=
  tokenizeSubword_loop (token_to_id model) word.

(** The word branch shared by the loop body and the final-word code of
    [tokenizeAdvanced]: exact match first, subword fallback on a miss. *)
Definition tokenizeWord (current_word : string) (model : RealTensorModel) : list Z :=
  match token_to_id model !! current_word with
  | Some id => [id]
  | None => tokenizeSubword current_word model
  end.

Definition is_whitespace (c : ascii) : bool :=
  let n := ascii_code c in (n =? 32) || (n =? 9) || (n =? 10).

Definition is_punctuation (c : ascii) : bool :=
  let n := ascii_code c in
  (n =? 46) || (n =? 44) || (n =? 33) || (n =? 63) || (n =? 58) || (n =? 59).

Definition is_word_char (c : ascii) : bool := isalnum c || (ascii_code c =? 95).

Definition str_empty (s : string) : bool :=
  match s with EmptyString => true | _ => false end.

(** The local variables of [tokenizeAdvanced]. *)
Record TokenizerState : Type := {
  tk_tokens : list Z;
  tk_current_word : string;
  tk_in_word : bool
}.

Definition flush_word (model : RealTensorModel) (st : TokenizerState) : TokenizerState :=
  if tk_in_word st && negb (str_empty (tk_current_word st)) then
    {| tk_tokens := tk_tokens st ++ tokenizeWord (tk_current_word st) model;
       tk_current_word := EmptyString;
       tk_in_word := false |}
  else st.

(** One iteration of the character loop. *)
Definition tokenize_char (model : RealTensorModel) (st : TokenizerState) (c : ascii)
  : TokenizerState :=
  if is_word_char c then
    {| tk_tokens := tk_tokens st;
       tk_current_word := str_push (tk_current_word st) (tolower c);
       tk_in_word := true |}
  else
    let st1 := flush_word model st in
    if is_whitespace c then st1
    else if is_punctuation c then
      let id := match token_to_id model !! String c EmptyString with
                | Some id => id
                | None => TOKEN_UNK
                end in
      {| tk_tokens := tk_tokens st1 ++ [id];
         tk_current_word := tk_current_word st1;
         tk_in_word := tk_in_word st1 |}
    else st1.

Fixpoint tokenize_chars (model : RealTensorModel) (st : TokenizerState) (text : string)
  : TokenizerState :=
  match text with
  | EmptyString => st
  | String c rest => tokenize_chars model (tokenize_char model st c) rest
  end.

Definition tokenizeAdvanced (text : string) (model : RealTensorModel) : list Z :=
  let st0 := {| tk_tokens := [TOKEN_BOS]; tk_current_word := EmptyString; tk_in_word := false |} in
  tk_tokens (flush_word model (tokenize_chars model st0 text)).

(** What the specification says of the subword fallback, as a relation
    between the remaining suffix and the ids emitted for it. *)
Definition known_prefix (t2i : gmap string Z) (remaining : string) (len : nat) (id : Z) : Prop :=
  (1 ≤ len ≤ Nat.min (String.length remaining) 10)%nat ∧
  t2i !! str_take len remaining = Some id.

Definition longest_known_prefix (t2i : gmap string Z) (remaining : string) (len : nat) (id : Z)
  : Prop :=
  known_prefix t2i remaining len id ∧
  ∀ len' id', known_prefix t2i remaining len' id' → (len' ≤ len)%nat.

Inductive subword_spec (t2i : gmap string Z) : string → list Z → Prop :=
  | subword_done : subword_spec t2i EmptyString []
  | subword_match remaining len id ids :
      remaining ≠ EmptyString →
      longest_known_prefix t2i remaining len id →
      subword_spec t2i (str_drop len remaining) ids →
      subword_spec t2i remaining (id :: ids)
  | subword_unknown remaining :
      remaining ≠ EmptyString →
      (∀ len id, ¬ known_prefix t2i remaining len id) →
      subword_spec t2i remaining [TOKEN_UNK].

(** ** Model loading *)

Definition with_tensor_type (model : RealTensorModel) (name : string) (t : ggml_type)
  : RealTensorModel :=
  {| path := path model; file_size := file_size model; loaded := loaded model;
     gguf_ctx := gguf_ctx model; ggml_ctx := ggml_ctx model;
     n_vocab := n_vocab model; n_embd := n_embd model; n_head := n_head model;
     n_layer := n_layer model; n_ctx := n_ctx model;
     tensors := tensors model;
     tensor_types := <[name := t]> (tensor_types model);
     vocab := vocab model; token_to_id := token_to_id model;
     id_to_token := id_to_token model;
     tensor_data := tensor_data model; tensor_data_size := tensor_data_size model |}.

(** A tensor of [count] elements has been created in [pool] and is stored
    under [name]. *)
Definition with_tensor (model : RealTensorModel) (pool : ggml_context) (name : string)
    (count : Z) : RealTensorModel :=
  {| path := path model; file_size := file_size model; loaded := loaded model;
     gguf_ctx := gguf_ctx model;
     ggml_ctx := Some {| mem_size := mem_size pool;
                         pool_objects := pool_objects pool ++ [count] |};
     n_vocab := n_vocab model; n_embd := n_embd model; n_head := n_head model;
     n_layer := n_layer model; n_ctx := n_ctx model;
     tensors := <[name := {| ne := count |}]> (tensors model);
     tensor_types := tensor_types model;
     vocab := vocab model; token_to_id := token_to_id model;
     id_to_token := id_to_token model;
     tensor_data := tensor_data model; tensor_data_size := tensor_data_size model |}.

Definition with_token (model : RealTensorModel) (i : Z) (token : string) : RealTensorModel :=
  {| path := path model; file_size := file_size model; loaded := loaded model;
     gguf_ctx := gguf_ctx model; ggml_ctx := ggml_ctx model;
     n_vocab := n_vocab model; n_embd := n_embd model; n_head := n_head model;
     n_layer := n_layer model; n_ctx := n_ctx model;
     tensors := tensors model; tensor_types := tensor_types model;
     vocab := vocab model ++ [token];
     token_to_id := <[token := to_int i]> (token_to_id model);
     id_to_token := <[to_int i := token]> (id_to_token model);
     tensor_data := tensor_data model; tensor_data_size := tensor_data_size model |}.

(** The element count [loadTensorWithQuantization] derives from the
    quantization kind and the byte size of a directory entry. *)
Definition element_count (tensor_type : ggml_type) (tensor_size : Z) : Z :=
  match tensor_type with
  | GGML_TYPE_F32 => Z.min (tensor_size / 4) 256
  | GGML_TYPE_F16 => Z.min (tensor_size / 2) 512
  | GGML_TYPE_Q4_K | GGML_TYPE_Q4_0 | GGML_TYPE_Q6_K => Z.min 128 (tensor_size / 8)
  | _ => Z.min tensor_size 1024
  end.

Definition loadTensorWithQuantization (lib : GgmlLibrary) (model : RealTensorModel)
    (tensor_name : string) (tensor_type : ggml_type) (tensor_size : Z)
  : bool * RealTensorModel :=
  let model := with_tensor_type model tensor_name tensor_type in
  let count := element_count tensor_type tensor_size in
  match ggml_ctx model with
  | Some pool =>
      if ggml_new_tensor_1d lib pool count
      then (true, with_tensor model pool tensor_name count)
      else (false, model)
  | None => (false, model)
  end.

Fixpoint str_contains (needle hay : string) : bool :=
  String.prefix needle hay
  || match hay with
     | EmptyString => false
     | String _ rest => str_contains needle rest
     end.

Definition is_essential_tensor (name : string) : bool :=
  str_contains "token_embd" name || str_contains "output.weight" name.

Definition gguf_get_tensor_size (info : gguf_tensor_info) : Z := wrap64 (ti_size info).

Definition max_tensors_to_load : Z := 3.

(** The tensor loop of [loadRealTensorModel] from directory entry [infos]
    on, with [tensors_loaded] tensors loaded so far. *)
Fixpoint load_key_tensors (lib : GgmlLibrary) (infos : list gguf_tensor_info)
    (tensors_loaded : Z) (model : RealTensorModel) : Z * RealTensorModel :=
  match infos with
  | [] => (tensors_loaded, model)
  | info :: rest =>
      if max_tensors_to_load <=? tensors_loaded then (tensors_loaded, model)
      else if is_essential_tensor (ti_name info) then
        let '(ok, model') :=
          loadTensorWithQuantization lib model (ti_name info) (ti_type info)
                                     (gguf_get_tensor_size info) in
        if ok then load_key_tensors lib rest (tensors_loaded + 1) model'
        else (tensors_loaded, model')
      else load_key_tensors lib rest tensors_loaded model
  end.

(** The two demo tensors created when no tensor was loaded. *)
Definition create_demo_tensor (lib : GgmlLibrary) (name : string) (count : Z)
    (model : RealTensorModel) : RealTensorModel :=
  match ggml_ctx model with
  | Some pool =>
      if ggml_new_tensor_1d lib pool count then with_tensor model pool name count else model
  | None => model
  end.

Definition placeholder_token (i : Z) : string := "<token_" +:+ pretty i +:+ ">".

Definition basic_tokens : list string :=
  [ "<pad>"; "<unk>"; "<s>"; "</s>";
    "the"; "a"; "an"; "and"; "or"; "but"; "in"; "on"; "at"; "to"; "for"; "of"; "with";
    "I"; "you"; "he"; "she"; "it"; "we"; "they"; "am"; "is"; "are"; "was"; "were";
    "hello"; "hi"; "how"; "what"; "when"; "where"; "why"; "who"; "can"; "will"; "would";
    "good"; "bad"; "yes"; "no"; "please"; "thank"; "help"; "time"; "day"; "night";
    "tensor"; "model"; "phase"; "ai"; "neural"; "network"; "gguf"; "llama"; "chat";
    "real"; "data"; "loading"; "inference"; "matrix"; "attention"; "layer"; "embedding" ].

(** The vocabulary copied from [tokenizer.ggml.tokens]. *)
Definition load_real_vocabulary (tokens : list string) (model : RealTensorModel)
  : RealTensorModel :=
  let n_vocab_found := Z.of_nat (length tokens) in
  fold_left (λ model i,
      let token_data := nth (Z.to_nat i) tokens EmptyString in
      if str_empty token_data then with_token model i (placeholder_token i)
      else if (100 <? Z.of_nat (String.length token_data))%Z
           then with_token model i (placeholder_token i)
           else with_token model i token_data)
    (for_range (Z.min n_vocab_found (n_vocab model))) model.

(** The built-in vocabulary, then placeholders up to [n_vocab]. *)
Definition load_basic_vocabulary (model : RealTensorModel) : RealTensorModel :=
  let model := fold_left (λ model it, with_token model (Z.of_nat it.1) it.2)
                         (imap (λ i t, (i, t)) basic_tokens) model in
  let first := Z.of_nat (length basic_tokens) in
  fold_left (λ model k, let i := first + k in with_token model i (placeholder_token i))
            (for_range (n_vocab model - first)) model.

Definition gguf_u32_or (g : gguf_context) (key : string) (default : Z) : Z :=
  match gguf_kv_u32 g !! key with
  | Some v => to_u32 v
  | None => default
  end.

Definition max_tensor_size : Z := 32 * 1024 * 1024.

(** The hyperparameters, with their defaults, and the cleared
    vocabulary. *)
Definition read_hyperparameters (g : gguf_context) (model : RealTensorModel)
  : RealTensorModel :=
  {| path := path model; file_size := file_size model; loaded := loaded model;
     gguf_ctx := Some g; ggml_ctx := ggml_ctx model;
     n_vocab := gguf_u32_or g "llama.vocab_size" 32000;
     n_embd := gguf_u32_or g "llama.embedding_length" 2048;
     n_head := gguf_u32_or g "llama.attention.head_count" 32;
     n_layer := gguf_u32_or g "llama.block_count" 22;
     n_ctx := gguf_u32_or g "llama.context_length" 2048;
     tensors := tensors model; tensor_types := tensor_types model;
     vocab := []; token_to_id := ∅; id_to_token := ∅;
     tensor_data := tensor_data model; tensor_data_size := tensor_data_size model |}.

Definition load_vocabulary (g : gguf_context) (model : RealTensorModel) : RealTensorModel :=
  match gguf_tokens g with
  | Some tokens => load_real_vocabulary tokens model
  | None => load_basic_vocabulary model
  end.

(** The size of the tensor arena: the sum of the directory sizes, capped
    at 32 MB. *)
Definition arena_size (g : gguf_context) : Z :=
  let total_tensor_size :=
    fold_left (λ total info, size_add total (gguf_get_tensor_size info)) (gguf_infos g) 0 in
  if max_tensor_size <? total_tensor_size then max_tensor_size else total_tensor_size.

(** The arena has been allocated and a ggml pool created over it. *)
Definition with_arena (model : RealTensorModel) (data_size : Z) : RealTensorModel :=
  {| path := path model; file_size := file_size model; loaded := loaded model;
     gguf_ctx := gguf_ctx model;
     ggml_ctx := Some {| mem_size := data_size; pool_objects := [] |};
     n_vocab := n_vocab model; n_embd := n_embd model; n_head := n_head model;
     n_layer := n_layer model; n_ctx := n_ctx model;
     tensors := tensors model; tensor_types := tensor_types model;
     vocab := vocab model; token_to_id := token_to_id model;
     id_to_token := id_to_token model;
     tensor_data := true; tensor_data_size := data_size |}.

Definition mark_loaded (model : RealTensorModel) : RealTensorModel :=
  {| path := path model; file_size := file_size model; loaded := true;
     gguf_ctx := gguf_ctx model; ggml_ctx := ggml_ctx model;
     n_vocab := n_vocab model; n_embd := n_embd model; n_head := n_head model;
     n_layer := n_layer model; n_ctx := n_ctx model;
     tensors := tensors model; tensor_types := tensor_types model;
     vocab := vocab model; token_to_id := token_to_id model;
     id_to_token := id_to_token model;
     tensor_data := tensor_data model; tensor_data_size := tensor_data_size model |}.

(** [loadRealTensorModel (model)]: [file] is the result of
    [gguf_init_from_file] on the model's path.  [Some] is the object after
    a call that returned [true]; after [false] every caller deletes the
    object, so its state is not kept. *)
Definition loadRealTensorModel (lib : GgmlLibrary) (file : option gguf_context)
    (model : RealTensorModel) : option RealTensorModel :=
  match file with
  | None => None
  | Some g =>
      let model := load_vocabulary g (read_hyperparameters g model) in
      let data_size := arena_size g in
      if ggml_init lib data_size then
        let '(tensors_loaded, model) :=
          load_key_tensors lib (gguf_infos g) 0 (with_arena model data_size) in
        let model :=
          if tensors_loaded =? 0 then
            create_demo_tensor lib "output.weight" 32
              (create_demo_tensor lib "token_embd.weight" 64 model)
          else model in
        Some (mark_loaded model)
      else None
  end.

(** Where a tensor of a loaded model comes from: a directory entry of the
    container, with the element count of its kind, or one of the two demo
    tensors. *)
Definition from_directory (g : gguf_context) (name : string) (t : ggml_tensor) : Prop :=
  ∃ info, info ∈ gguf_infos g ∧ ti_name info = name ∧
          ne t = element_count (ti_type info) (gguf_get_tensor_size info).

Definition demo_tensor (name : string) (t : ggml_tensor) : Prop :=
  (name = "token_embd.weight" ∧ ne t = 64) ∨ (name = "output.weight" ∧ ne t = 32).

(** ** Floating point and the C library

    The numeric pipeline is written over an abstract [float]: the
    operations the source uses, with no law assumed of them.  Everything
    proved below holds whatever the rounding, the treatment of NaN or the
    quality of [expf] and [sinf].  Where C++ promotes an operand to
    [double] (the calls of [sin] and [exp]), the same operations are
    written: no statement depends on the precision. *)

Class FloatOps (F : Type) : Type := {
  f_lit : Z → positive → F;      (* the literal num/den, e.g. 0.1f is [f_lit 1 10] *)
  f_of_int : Z → F;              (* the conversion (float) i *)
  f_add : F → F → F;
  f_sub : F → F → F;
  f_mul : F → F → F;
  f_div : F → F → F;
  f_sqrt : F → F;
  f_exp : F → F;
  f_sin : F → F;
  f_ltb : F → F → bool;          (* a < b *)
  f_leb : F → F → bool           (* a <= b *)
}.

Definition RAND_MAX : Z := 2147483647.

Section Engine.

Context {F : Type} `{FloatOps F}.

(** The successive results of [rand()], each in [0, RAND_MAX]; the state of
    the generator is the number of calls made so far. *)
Variable rand_stream : nat → Z.

Definition f_zero : F := f_lit 0 1.

Definition vnth (v : list F) (i : Z) : F := nth (Z.to_nat i) v f_zero.

(** [idx < v.size()] for an [int idx]: the comparison is made in [size_t],
    so a negative index compares as a huge value and fails. *)
Definition idx_in (idx : Z) (v : list F) : bool :=
  (0 <=? idx) && (idx <? Z.of_nat (length v)).

Definition vset (v : list F) (i : Z) (x : F) : list F := <[Z.to_nat i := x]> v.

(** *** Attention *)

Definition attention_score (input : list F) (d_model head_offset d_head i j : Z) : F :=
  let score :=
    fold_left (λ score k,
        let idx_i := i * d_model + head_offset + k in
        let idx_j := j * d_model + head_offset + k in
        if idx_in idx_i input && idx_in idx_j input
        then f_add score (f_mul (vnth input idx_i) (vnth input idx_j))
        else score)
      (for_range d_head) f_zero in
  f_div score (f_sqrt (f_of_int d_head)).

(** Row [i] of [scores] after the softmax loops: the exponentials, their
    running sum accumulated left to right, the division. *)
Definition softmax_row (row : list F) : list F :=
  let exps := f_exp <$> row in
  let sum := fold_left f_add exps f_zero in
  (λ e, f_div e sum) <$> exps.

(** [scores] is kept as the list of its rows: [scores[i * seq_len + j]] is
    entry [j] of row [i]. *)
Definition attention_scores (input : list F) (d_model head_offset d_head seq_len : Z)
  : list (list F) :=
  (λ i, softmax_row ((λ j, attention_score input d_model head_offset d_head i j)
                       <$> for_range seq_len))
  <$> for_range seq_len.

Definition attention_value (input : list F) (scores : list (list F))
    (d_model head_offset seq_len i k : Z) : F :=
  fold_left (λ value j,
      let value_idx := j * d_model + head_offset + k in
      if idx_in value_idx input
      then f_add value (f_mul (vnth (nth (Z.to_nat i) scores []) j) (vnth input value_idx))
      else value)
    (for_range seq_len) f_zero.

Definition attention_head (input : list F) (d_model d_head seq_len : Z)
    (output : list F) (h : Z) : list F :=
  let head_offset := h * d_head in
  let scores := attention_scores input d_model head_offset d_head seq_len in
  fold_left (λ out i,
      fold_left (λ out k,
          let value := attention_value input scores d_model head_offset seq_len i k in
          let output_idx := i * d_model + head_offset + k in
          if idx_in output_idx out then vset out output_idx value else out)
        (for_range d_head) out)
    (for_range seq_len) output.

(** [computeAttention]; the caller has checked that [n_heads] is not zero. *)
Definition computeAttention (input : list F) (model : RealTensorModel) (seq_len : Z) : list F :=
  let d_model := to_int (n_embd model) in
  let n_heads := to_int (n_head model) in
  let d_head := Z.quot d_model n_heads in
  let output := replicate (length input) f_zero in
  fold_left (attention_head input d_model d_head seq_len) (for_range n_heads) output.

(** *** Forward pass *)

Definition embedding_value (model : RealTensorModel) (seq_len i token_id j : Z) : F :=
  let embed_val :=
    f_sub (f_mul (f_div (f_of_int (token_id + j)) (f_of_int (n_vocab model))) (f_lit 2 1))
          (f_lit 1 1) in
  let pos_val := f_div (f_of_int i) (f_of_int seq_len) in
  f_add embed_val
        (f_mul (f_lit 1 10)
               (f_sin (f_mul (f_mul pos_val (f_lit 314159 100000)) (f_of_int (j + 1))))).

Definition token_embeddings (model : RealTensorModel) (tokens : list Z) : list F :=
  let seq_len := Z.of_nat (length tokens) in
  let d_model := to_int (n_embd model) in
  mjoin (imap (λ i token_id,
                 (λ j, embedding_value model seq_len (Z.of_nat i) token_id j)
                 <$> for_range d_model)
              tokens).

(** One iteration of the layer loop: attention, residual, the scaled
    rectifier, residual. *)
Definition transformer_layer (model : RealTensorModel) (seq_len : Z) (layer_input : list F)
  : list F :=
  let attn_output :=
    zip_with f_add (computeAttention layer_input model seq_len) layer_input in
  let ff_output :=
    (λ a, let x := f_mul a (f_lit 3 2) in if f_ltb f_zero x then x else f_zero)
    <$> attn_output in
  zip_with f_add ff_output attn_output.

Definition output_logit (layer_input : list F) (d_model last_token_offset : Z)
    (r : nat) (i : Z) : F :=
  let bound := Z.min d_model (Z.of_nat (length layer_input) - last_token_offset) in
  let logit :=
    fold_left (λ logit j,
        let input_idx := last_token_offset + j in
        if idx_in input_idx layer_input then
          let weight :=
            f_mul (f_lit 1 10)
                  (f_sin (f_add (f_mul (f_of_int i) (f_lit 1 10))
                                (f_mul (f_of_int j) (f_lit 1 100)))) in
          f_add logit (f_mul (vnth layer_input input_idx) weight)
        else logit)
      (for_range bound) f_zero in
  let logit := if i <? 100 then f_add logit (f_lit 1 2) else logit in
  f_add logit
        (f_mul (f_sub (f_div (f_of_int (rand_stream (r + Z.to_nat i)%nat)) (f_of_int RAND_MAX))
                      (f_lit 1 2))
               (f_lit 1 5)).

(** The executions of [forwardPass] that C++ defines: the tokens are
    [int]s, the vector sizes are representable, [int] arithmetic stays in
    range, and the divisor [n_heads] is not zero whenever
    [computeAttention] is reached.  The clauses, in the order of the
    source: [seq_len], [seq_len * d_model], [token_id + j], the layer
    counter, [d_model / n_heads], [seq_len * seq_len], the size of
    [logits] and its loop counter. *)
Definition forwardPass_defined (tokens : list Z) (model : RealTensorModel) : bool :=
  let seq_len := Z.of_nat (length tokens) in
  let d_model := to_int (n_embd model) in
  let n_heads := to_int (n_head model) in
  (seq_len <=? INT_MAX)
  && (0 <=? d_model) && (seq_len * d_model <=? INT_MAX)
  && forallb (λ t, (INT_MIN <=? t) && (t <=? INT_MAX)
                   && ((d_model =? 0) || (t + (d_model - 1) <=? INT_MAX))) tokens
  && (n_layer model <=? INT_MAX)
  && ((n_layer model <=? 0)
      || (negb (n_heads =? 0) && ((n_heads <? 0) || (seq_len * seq_len <=? INT_MAX))))
  && (0 <=? n_vocab model) && (n_vocab model <=? INT_MAX).

(** The executions of [forwardPass] that end in a C++ exception: a vector
    is constructed with a negative count, which the constructor receives
    as a [size_t] above [max_size ()] and answers with
    [std::length_error].  Either [seq_len * d_model] is a negative [int],
    at the constructor of [embeddings]; or everything up to the end of the
    layers is defined and [n_vocab] is negative, at the constructor of
    [logits].  In both cases nothing outside the function has been written
    and [rand ()] has not been called. *)
Definition forwardPass_throws (tokens : list Z) (model : RealTensorModel) : bool :=
  let seq_len := Z.of_nat (length tokens) in
  let d_model := to_int (n_embd model) in
  let n_heads := to_int (n_head model) in
  (seq_len <=? INT_MAX)
  && (((INT_MIN <=? seq_len * d_model) && (seq_len * d_model <? 0))
      || ((0 <=? d_model) && (seq_len * d_model <=? INT_MAX)
          && forallb (λ t, (INT_MIN <=? t) && (t <=? INT_MAX)
                           && ((d_model =? 0) || (t + (d_model - 1) <=? INT_MAX))) tokens
          && (n_layer model <=? INT_MAX)
          && ((n_layer model <=? 0)
              || (negb (n_heads =? 0) && ((n_heads <? 0) || (seq_len * seq_len <=? INT_MAX))))
          && (n_vocab model <? 0))).

(** [forwardPass (tokens, context)], given the model the context points
    to and the state of [rand()]; the result carries the new state.
    [None]: the call returns no vector, because it throws
    ([forwardPass_throws]) or because its behaviour is undefined. *)
Definition forwardPass (tokens : list Z) (model : RealTensorModel) (r : nat)
  : option (list F * nat) :=
  if forwardPass_defined tokens model then
    let seq_len := Z.of_nat (length tokens) in
    let d_model := to_int (n_embd model) in
    let embeddings := token_embeddings model tokens in
    let layer_input :=
      Nat.iter (Z.to_nat (n_layer model)) (transformer_layer model seq_len) embeddings in
    let last_token_offset := (seq_len - 1) * d_model in
    let logits :=
      output_logit layer_input d_model last_token_offset r <$> for_range (n_vocab model) in
    Some (logits, (r + Z.to_nat (n_vocab model))%nat)
  else None.

End Engine.

(** ** Inference contexts *)

Section Contexts.

Context {F : Type} `{FloatOps F}.
Variable rand_stream : nat → Z.

Record RealInferenceContext : Type := {
  ctx_model : Z;                 (* [model]: the handle of the model pointed to *)
  ctx_size : Z;
  initialized : bool;
  input_tokens : list Z;
  embeddings : list F;
  logits : list F;
  generated_tokens : list Z;
  full_context_tokens : list Z;
  is_streaming : bool;
  max_tokens_to_generate : Z;
  tokens_generated : Z;
  work_ctx : bool;               (* the pointer is non-null *)
  work_buffer : bool;            (* the pointer is non-null *)
  work_buffer_size : Z
}.

(** [RealInferenceContext::getMemoryUsage]: [sizeof(int)] and
    [sizeof(float)] are 4. *)
Definition getMemoryUsage (c : RealInferenceContext) : Z :=
  let bytes {A} (v : list A) := size_mul (Z.of_nat (length v)) 4 in
  size_add (size_add (size_add (size_add (size_add
    (work_buffer_size c)
    (bytes (input_tokens c)))
    (bytes (embeddings c)))
    (bytes (logits c)))
    (bytes (generated_tokens c)))
    (bytes (full_context_tokens c)).

(** *** Streaming *)

Definition startStreamingInference (context : RealInferenceContext) (model : RealTensorModel)
    (input : string) (max_tokens : Z) : bool * RealInferenceContext :=
  let toks := tokenizeAdvanced input model in
  (true,
   {| ctx_model := ctx_model context; ctx_size := ctx_size context;
      initialized := initialized context;
      input_tokens := toks;
      embeddings := embeddings context; logits := logits context;
      generated_tokens := [];
      full_context_tokens := toks;
      is_streaming := true;
      max_tokens_to_generate := max_tokens;
      tokens_generated := 0;
      work_ctx := work_ctx context; work_buffer := work_buffer context;
      work_buffer_size := work_buffer_size context |}).

(** [std::max_element]: the first largest element. *)
Definition max_element (v : list F) : F :=
  match v with
  | [] => f_zero
  | x :: rest => fold_left (λ m y, if f_ltb m y then y else m) rest x
  end.

(** [operator>] on [std::pair<float, int>]. *)
Definition pair_gtb (a b : F * Z) : bool :=
  f_ltb b.1 a.1 || (negb (f_ltb a.1 b.1) && (b.2 <? a.2)).

Fixpoint insert_desc (x : F * Z) (l : list (F * Z)) : list (F * Z) :=
  match l with
  | [] => [x]
  | y :: l' => if pair_gtb x y then x :: l else y :: insert_desc x l'
  end.

(** [std::sort (..., std::greater<>())]. *)
Definition sort_desc (l : list (F * Z)) : list (F * Z) := foldr insert_desc [] l.

(** The probabilities computed from the logits: temperature 0.8, shift by
    the maximum, exponentials, normalisation. *)
Definition softmax_probs (logits : list F) : list F :=
  let scaled := (λ l, f_div l (f_lit 4 5)) <$> logits in
  let max_logit := max_element scaled in
  let exps := (λ l, f_exp (f_sub l max_logit)) <$> scaled in
  let sum_exp := fold_left f_add exps f_zero in
  (λ p, f_div p sum_exp) <$> exps.

(** The roulette loop over the candidates it visits: [Some] at the first
    candidate whose cumulative mass reaches [random_val] (the [break]),
    [None] when the loop runs off the end. *)
Fixpoint roulette (random_val cumulative : F) (candidates : list (F * Z)) : option Z :=
  match candidates with
  | [] => None
  | (p, i) :: rest =>
      let cumulative := f_add cumulative p in
      if f_leb random_val cumulative then Some i else roulette random_val cumulative rest
  end.

(** The candidates the loop [for (i = 0; i < top_k && i < top_tokens.size(); i++)]
    visits. *)
Definition top_candidates (probs : list F) : list (F * Z) :=
  let top_k := Z.min 50 (Z.of_nat (length probs)) in
  take (Z.to_nat top_k) (sort_desc (imap (λ i p, (p, Z.of_nat i)) probs)).

(** The cumulative mass after all of [candidates], accumulated as the
    roulette loop does. *)
Definition total_mass (cumulative : F) (candidates : list (F * Z)) : F :=
  fold_left (λ c pi, f_add c pi.1) candidates cumulative.

(** Along [candidates] the running cumulative mass never decreases (no
    candidate has negative mass). *)
Fixpoint mass_nondecreasing (cumulative : F) (candidates : list (F * Z)) : bool :=
  match candidates with
  | [] => true
  | (p, _) :: rest =>
      f_leb cumulative (f_add cumulative p) && mass_nondecreasing (f_add cumulative p) rest
  end.

(** The uniform draw made after [r] calls of [rand()]. *)
Definition random_draw (r : nat) : F := f_div (f_of_int (rand_stream r)) (f_of_int RAND_MAX).

(** The sampling block of [generateNextStreamingToken]: the value of
    [best_token] after it, and the state of [rand()].  [None] is the
    undefined [rand() % 0] of the fallback branch. *)
Definition sample_token (model : RealTensorModel) (logits : list F) (r : nat)
  : option (Z * nat) :=
  let best_token := 0 in
  match logits with
  | _ :: _ =>
      let probs := softmax_probs logits in
      let random_val := random_draw r in
      Some (match roulette random_val f_zero (top_candidates probs) with
            | Some i => i
            | None => best_token
            end, S r)
  | [] =>
      let vocab_limit := Z.min 100 (to_int (n_vocab model)) in
      if vocab_limit =? 0 then None
      else Some (Z.rem (rand_stream r) vocab_limit, S r)
  end.

Definition token_text (model : RealTensorModel) (best_token : Z) : string :=
  match id_to_token model !! best_token with
  | Some s => s
  | None => "<unk>"
  end.

(** The tail of [generateNextStreamingToken], after sampling. *)
Definition append_token (context : RealInferenceContext) (best_token : Z)
  : RealInferenceContext :=
  {| ctx_model := ctx_model context; ctx_size := ctx_size context;
     initialized := initialized context;
     input_tokens := input_tokens context;
     embeddings := embeddings context; logits := logits context;
     generated_tokens := generated_tokens context ++ [best_token];
     full_context_tokens := full_context_tokens context ++ [best_token];
     is_streaming := if best_token =? TOKEN_EOS then false else is_streaming context;
     max_tokens_to_generate := max_tokens_to_generate context;
     tokens_generated := tokens_generated context + 1;
     work_ctx := work_ctx context; work_buffer := work_buffer context;
     work_buffer_size := work_buffer_size context |}.

(** [generateNextStreamingToken (context)].  [model] is the object behind
    [context->model], [None] when it has been deleted; the pointer is
    followed only past the guard.  A result [None] means that the call
    does not return a token: a dangling pointer is followed, the forward
    pass or the sampling is undefined, or the forward pass throws
    ([generateNextStreamingToken_throws]). *)
Definition generateNextStreamingToken (context : RealInferenceContext)
    (model : option RealTensorModel) (r : nat)
  : option (string * RealInferenceContext * nat) :=
  if negb (is_streaming context)
     || (max_tokens_to_generate context <=? tokens_generated context)
  then Some (EmptyString, context, r)
  else
    match model with
    | None => None
    | Some model =>
        match forwardPass rand_stream (full_context_tokens context) model r with
        | None => None
        | Some (logits, r1) =>
            match sample_token model logits r1 with
            | None => None
            | Some (best_token, r2) =>
                Some (token_text model best_token, append_token context best_token, r2)
            end
        end
    end.

(** The executions of [generateNextStreamingToken] that end in a C++
    exception: past the guard, the forward pass throws.  The context has
    not been written to and [rand ()] has not been called. *)
Definition generateNextStreamingToken_throws (context : RealInferenceContext)
    (model : option RealTensorModel) : bool :=
  negb (negb (is_streaming context)
        || (max_tokens_to_generate context <=? tokens_generated context))
  && match model with
     | Some model => forwardPass_throws (full_context_tokens context) model
     | None => false
     end.

Definition isStreamingComplete (context : RealInferenceContext) : bool :=
  negb (is_streaming context)
  || (max_tokens_to_generate context <=? tokens_generated context).

(** ** The global registries and the memory governor *)

Record State : Type := {
  models : gmap Z RealTensorModel;
  contexts : gmap Z RealInferenceContext;
  next_id : Z
}.

Definition initial_state : State := {| models := ∅; contexts := ∅; next_id := 1 |}.

Definition getTotalMemoryUsage (st : State) : Z :=
  let total :=
    map_fold (λ _ m total, size_add total (tensor_data_size m)) 0 (models st) in
  map_fold (λ _ c total, size_add total (getMemoryUsage c)) total (contexts st).

Definition MAX_MEMORY_LIMIT : Z := 512 * 1024 * 1024.

(** A loaded model whose pool or buffer pointer is null. *)
Definition model_corrupted (m : RealTensorModel) : bool :=
  loaded m && (negb (bool_decide (is_Some (ggml_ctx m))) || negb (tensor_data m)).

Definition checkMemoryHealth (st : State) : bool :=
  if MAX_MEMORY_LIMIT <? getTotalMemoryUsage st then false
  else bool_decide (map_Forall (λ _ m, model_corrupted m = false) (models st)).

(** What [forceMemoryCleanup] does to a context it keeps. *)
Definition trim_context (c : RealInferenceContext) : RealInferenceContext :=
  let full := full_context_tokens c in
  {| ctx_model := ctx_model c; ctx_size := ctx_size c; initialized := initialized c;
     input_tokens := input_tokens c;
     embeddings := []; logits := [];
     generated_tokens := generated_tokens c;
     full_context_tokens :=
       if (1024 <? length full)%nat then drop (length full - 512) full else full;
     is_streaming := is_streaming c;
     max_tokens_to_generate := max_tokens_to_generate c;
     tokens_generated := tokens_generated c;
     work_ctx := work_ctx c; work_buffer := work_buffer c;
     work_buffer_size := work_buffer_size c |}.

Definition forceMemoryCleanup (st : State) : State :=
  {| models := models st;
     contexts := trim_context <$> filter (λ kv, is_streaming kv.2 = true) (contexts st);
     next_id := next_id st |}.

(** The largest handle in the model registry, 0 when there is none. *)
Definition most_recent_model (ms : gmap Z RealTensorModel) : Z :=
  map_fold (λ k _ most_recent, if most_recent <? k then k else most_recent) 0 ms.

Definition recoverFromMemoryError (st : State) : bool * State :=
  let st1 := forceMemoryCleanup st in
  if checkMemoryHealth st1 then (true, st1)
  else
    let keep := most_recent_model (models st1) in
    let st2 := {| models := filter (λ kv, kv.1 = keep) (models st1);
                  contexts := ∅;
                  next_id := next_id st1 |} in
    (checkMemoryHealth st2, st2).

(** ** The call surface *)

(** What the bridge observes of the file behind a path. *)
Record ModelFile : Type := {
  file_is_open : bool;                    (* [file.is_open ()] *)
  file_seek_fails : bool;                 (* [file.fail ()] after [seekg] *)
  file_tellg : Z;                         (* [file.tellg ()] at the end *)
  file_gguf : option gguf_context         (* [gguf_init_from_file] *)
}.

Definition MAX_MODEL_SIZE : Z := 1024 * 1024 * 1024.

Definition model_for (model_path : string) (size : Z) : RealTensorModel :=
  {| path := model_path; file_size := size; loaded := false;
     gguf_ctx := None; ggml_ctx := None;
     n_vocab := 0; n_embd := 0; n_head := 0; n_layer := 0; n_ctx := 2048;
     tensors := ∅; tensor_types := ∅; vocab := []; token_to_id := ∅; id_to_token := ∅;
     tensor_data := false; tensor_data_size := 0 |}.

(** The validation and the commit at the end of [loadModel]. *)
Definition commit_model (st : State) (model : RealTensorModel) : Z * State :=
  if negb (loaded model) || bool_decide (tensors model = ∅) then (0, st)
  else
    let model_id := next_id st in
    (model_id,
     {| models := <[model_id := model]> (models st);
        contexts := contexts st;
        next_id := next_id st + 1 |}).

(** [loadModel (model_path)].  [lib] answers the allocation requests of
    the first load attempt, [lib_retry] those of the attempt made after a
    memory recovery. *)
Definition loadModel (lib lib_retry : GgmlLibrary) (file : ModelFile) (model_path : string)
    (st : State) : Z * State :=
  let '(healthy, st) :=
    if checkMemoryHealth st then (true, st) else recoverFromMemoryError st in
  if negb healthy then (0, st)
  else if negb (file_is_open file) then (0, st)
  else if file_seek_fails file then (0, st)
  else
    let size := wrap64 (file_tellg file) in
    if size <=? 0 then (0, st)
    else if MAX_MODEL_SIZE <? size then (0, st)
    else
      match loadRealTensorModel lib (file_gguf file) (model_for model_path size) with
      | Some model => commit_model st model
      | None =>
          let '(recovered, st) := recoverFromMemoryError st in
          if recovered then
            (* the stream is closed by now: [tellg] yields -1 *)
            match loadRealTensorModel lib_retry (file_gguf file)
                                      (model_for model_path (wrap64 (-1))) with
            | Some model => commit_model st model
            | None => (0, st)
            end
          else (0, st)
      end.

Definition WORK_BUFFER_SIZE : Z := 16 * 1024 * 1024.

(** [createContext (model_id)].  [None]: the call dereferences the model
    after a memory recovery inside the call has deleted it. *)
Definition createContext (lib : GgmlLibrary) (model_id : Z) (st : State)
  : option (Z * State) :=
  match models st !! model_id with
  | None => Some (0, st)
  | Some model =>
      if negb (loaded model) then Some (0, st)
      else
        let '(healthy, st) :=
          if checkMemoryHealth st then (true, st) else recoverFromMemoryError st in
        if negb healthy then Some (0, st)
        else
          match models st !! model_id with
          | None => None
          | Some model =>
              let '(enough, st) :=
                if MAX_MEMORY_LIMIT <? size_add (getTotalMemoryUsage st) WORK_BUFFER_SIZE then
                  let st := forceMemoryCleanup st in
                  (negb (MAX_MEMORY_LIMIT
                           <? size_add (getTotalMemoryUsage st) WORK_BUFFER_SIZE), st)
                else (true, st) in
              if negb enough then Some (0, st)
              else
                let '(created, st) :=
                  if ggml_init lib WORK_BUFFER_SIZE then (true, st)
                  else
                    let st := forceMemoryCleanup st in
                    (ggml_init lib WORK_BUFFER_SIZE, st) in
                if negb created then Some (0, st)
                else
                  let context :=
                    {| ctx_model := model_id; ctx_size := to_int (n_ctx model);
                       initialized := true;
                       input_tokens := []; embeddings := []; logits := [];
                       generated_tokens := []; full_context_tokens := [];
                       is_streaming := false; max_tokens_to_generate := 0;
                       tokens_generated := 0;
                       work_ctx := true; work_buffer := true;
                       work_buffer_size := WORK_BUFFER_SIZE |} in
                  let context_id := next_id st in
                  Some (context_id,
                        {| models := models st;
                           contexts := <[context_id := context]> (contexts st);
                           next_id := next_id st + 1 |})
          end
  end.

(** [freeContext (context_id)]. *)
Definition freeContext (context_id : Z) (st : State) : State :=
  {| models := models st;
     contexts := delete context_id (contexts st);
     next_id := next_id st |}.

(** The scan of [freeModel] for a context whose [model] pointer is the
    model being freed. *)
Definition model_in_use (model_id : Z) (st : State) : bool :=
  bool_decide (map_Exists (λ _ c, ctx_model c = model_id) (contexts st)).

(** [freeModel (model_id)]. *)
Definition freeModel (model_id : Z) (st : State) : State :=
  match models st !! model_id with
  | Some _ =>
      if model_in_use model_id st then st
      else {| models := delete model_id (models st);
              contexts := contexts st;
              next_id := next_id st |}
  | None => st
  end.

Definition with_context (st : State) (context_id : Z) (c : RealInferenceContext) : State :=
  {| models := models st;
     contexts := <[context_id := c]> (contexts st);
     next_id := next_id st |}.

(** [startStreaming (context_id, input_text, max_tokens)].  [None]: the
    call dereferences a context or a model that a memory recovery inside
    the call has deleted. *)
Definition startStreaming (context_id : Z) (input : string) (max_tokens : Z) (st : State)
  : option (bool * State) :=
  match contexts st !! context_id with
  | None => Some (false, st)
  | Some ctx =>
      if negb (initialized ctx) then Some (false, st)
      else if is_streaming ctx then Some (false, st)
      else
        let '(healthy, st) :=
          if checkMemoryHealth st then (true, st) else recoverFromMemoryError st in
        if negb healthy then Some (false, st)
        else if (max_tokens <=? 0) || (2048 <? max_tokens) then Some (false, st)
        else
          let input_len := Z.of_nat (String.length input) in
          if (input_len =? 0) || (8192 <? input_len) then Some (false, st)
          else
            match contexts st !! context_id with
            | None => None
            | Some ctx =>
                match models st !! ctx_model ctx with
                | None => None
                | Some model =>
                    let '(success, ctx) :=
                      startStreamingInference ctx model input max_tokens in
                    Some (success, with_context st context_id ctx)
                end
            end
  end.

(** What the [catch] handlers around the generation do to the context:
    [ctx->is_streaming = false]. *)
Definition stop_on_error (c : RealInferenceContext) : RealInferenceContext :=
  {| ctx_model := ctx_model c; ctx_size := ctx_size c; initialized := initialized c;
     input_tokens := input_tokens c;
     embeddings := embeddings c; logits := logits c;
     generated_tokens := generated_tokens c;
     full_context_tokens := full_context_tokens c;
     is_streaming := false;
     max_tokens_to_generate := max_tokens_to_generate c;
     tokens_generated := tokens_generated c;
     work_ctx := work_ctx c; work_buffer := work_buffer c;
     work_buffer_size := work_buffer_size c |}.

(** [getNextStreamingToken (context_id)], with the state of [rand()].
    When the generation throws, the handlers stop the streaming and the
    call returns the empty string.  [None]: the behaviour of the generation
    is undefined. *)
Definition getNextStreamingToken (context_id : Z) (st : State) (r : nat)
  : option (string * State * nat) :=
  match contexts st !! context_id with
  | None => Some (EmptyString, st, r)
  | Some ctx =>
      if negb (initialized ctx) then Some (EmptyString, st, r)
      else if negb (is_streaming ctx) then Some (EmptyString, st, r)
      else
        match generateNextStreamingToken ctx (models st !! ctx_model ctx) r with
        | Some (next_token, ctx, r) =>
            Some (str_take 256 next_token, with_context st context_id ctx, r)
        | None =>
            if generateNextStreamingToken_throws ctx (models st !! ctx_model ctx)
            then Some (EmptyString, with_context st context_id (stop_on_error ctx), r)
            else None
        end
  end.

(** One call of [getNextStreamingToken] on [context_id] that returns,
    with a token or through its handlers. *)
Definition nextToken_step (context_id : Z) (s s' : State * nat) : Prop :=
  ∃ token, getNextStreamingToken context_id s.1 s.2 = Some (token, s'.1, s'.2).

(** The exported [isStreamingComplete (context_id)] (the JNI entry point,
    which shares its name with the function above). *)
Definition LlamaCppPlugin_isStreamingComplete (context_id : Z) (st : State) : bool :=
  match contexts st !! context_id with
  | None => true
  | Some ctx => if negb (initialized ctx) then true else isStreamingComplete ctx
  end.

(** [stopStreaming (context_id)]. *)
Definition stopStreaming (context_id : Z) (st : State) : State :=
  match contexts st !! context_id with
  | None => st
  | Some c =>
      with_context st context_id
        {| ctx_model := ctx_model c; ctx_size := ctx_size c; initialized := initialized c;
           input_tokens := input_tokens c;
           embeddings := []; logits := [];
           generated_tokens := [];
           full_context_tokens := full_context_tokens c;
           is_streaming := false;
           max_tokens_to_generate := max_tokens_to_generate c;
           tokens_generated := tokens_generated c;
           work_ctx := work_ctx c; work_buffer := work_buffer c;
           work_buffer_size := work_buffer_size c |}
  end.

(** The exported [isMemoryHealthy ()] and [forceCleanup ()]. *)
Definition isMemoryHealthy (st : State) : bool := checkMemoryHealth st.
Definition forceCleanup (st : State) : State := forceMemoryCleanup st.

(** The exported [getMemoryUsage ()] (the JNI entry point, which shares its
    name with the method of the context): the total, cast to [jlong]. *)
Definition LlamaCppPlugin_getMemoryUsage (st : State) : Z :=
  to_jlong (getTotalMemoryUsage st).

(** The exported [recoverFromError ()]. *)
Definition recoverFromError (st : State) : bool * State := recoverFromMemoryError st.

(** What holds of a context from a successful [startStreaming] on, for a
    bound [max_tokens]. *)
Definition streaming_invariant (max_tokens : Z) (ctx : RealInferenceContext) : Prop :=
  initialized ctx = true ∧
  max_tokens_to_generate ctx = max_tokens ∧
  0 ≤ tokens_generated ctx ≤ max_tokens ∧
  Z.of_nat (length (generated_tokens ctx)) = tokens_generated ctx ∧
  (last (generated_tokens ctx) = Some TOKEN_EOS → is_streaming ctx = false).

(** ** Reachable registries

    The states the call surface modelled here can produce from the initial
    one. *)

Inductive reachable : State → Prop :=
  | reach_initial : reachable initial_state
  | reach_loadModel lib lib_retry file model_path st :
      reachable st → reachable (loadModel lib lib_retry file model_path st).2
  | reach_createContext lib model_id st h st' :
      reachable st → createContext lib model_id st = Some (h, st') → reachable st'
  | reach_freeContext context_id st :
      reachable st → reachable (freeContext context_id st)
  | reach_freeModel model_id st :
      reachable st → reachable (freeModel model_id st)
  | reach_startStreaming context_id input max_tokens st ok st' :
      reachable st → startStreaming context_id input max_tokens st = Some (ok, st') →
      reachable st'
  | reach_getNextStreamingToken context_id st r token st' r' :
      reachable st → getNextStreamingToken context_id st r = Some (token, st', r') →
      reachable st'
  | reach_stopStreaming context_id st :
      reachable st → reachable (stopStreaming context_id st)
  | reach_forceCleanup st :
      reachable st → reachable (forceCleanup st)
  | reach_recoverFromError st :
      reachable st → reachable (recoverFromError st).2.

(** The handle counter is ahead of every handle in use. *)
Definition handles_fresh (st : State) : Prop :=
  0 < next_id st ∧
  map_Forall (λ k _, k < next_id st) (models st) ∧
  map_Forall (λ k c, k < next_id st ∧ ctx_model c < next_id st) (contexts st).

(** ** Exact accounting

    The byte counts the governor adds up, without wrap-around; the
    properties below are stated with them. *)

Definition context_bytes (c : RealInferenceContext) : Z :=
  work_buffer_size c
  + 4 * Z.of_nat (length (input_tokens c))
  + 4 * Z.of_nat (length (embeddings c))
  + 4 * Z.of_nat (length (logits c))
  + 4 * Z.of_nat (length (generated_tokens c))
  + 4 * Z.of_nat (length (full_context_tokens c)).

Definition tracked_bytes (st : State) : Z :=
  map_sum tensor_data_size (models st) + map_sum context_bytes (contexts st).

(** The bytes [forceMemoryCleanup] cannot release: the models and the
    streaming contexts. *)
Definition kept_bytes (st : State) : Z :=
  map_sum tensor_data_size (models st)
  + map_sum context_bytes (filter (λ kv, is_streaming kv.2 = true) (contexts st)).

(** Sizes are sizes, and their exact total is representable in [size_t]. *)
Definition registry_ok (st : State) : bool :=
  bool_decide (map_Forall (λ _ m, 0 ≤ tensor_data_size m) (models st))
  && bool_decide (map_Forall (λ _ c, 0 ≤ work_buffer_size c) (contexts st))
  && (tracked_bytes st <? 2 ^ 64).

(** No model of the registry is corrupted. *)
Definition models_intact (st : State) : bool :=
  bool_decide (map_Forall (λ _ m, model_corrupted m = false) (models st)).

(** ggml reserves room for a header with every tensor: nothing can be
    created in an empty pool. *)
Definition pool_sound (lib : GgmlLibrary) : Prop :=
  ∀ pool count, ggml_new_tensor_1d lib pool count = true → 0 < mem_size pool.

End Contexts.

(** ** Fixtures for the worked examples

    A float instance in fixed point (integers counting millionths, with
    crude stand-ins for [expf], [sinf] and [sqrtf]), a ggml library that
    allocates from a pool with a fixed header per tensor, and a few
    containers. *)

Definition FIXED_ONE : Z := 1000000.

Definition fixed_exp (x : Z) : Z :=
  if x <=? 0 then FIXED_ONE * FIXED_ONE / (FIXED_ONE - x) else FIXED_ONE + x.

#[global] Instance example_float : FloatOps Z := {|
  f_lit := λ n d, FIXED_ONE * n / Z.pos d;
  f_of_int := λ i, FIXED_ONE * i;
  f_add := Z.add;
  f_sub := Z.sub;
  f_mul := λ a b, a * b / FIXED_ONE;
  f_div := λ a b, FIXED_ONE * a / b;
  f_sqrt := λ a, Z.sqrt (FIXED_ONE * a);
  f_exp := fixed_exp;
  f_sin := λ a, a - a * a / FIXED_ONE * a / FIXED_ONE / 6;
  f_ltb := Z.ltb;
  f_leb := Z.leb
|}.

Definition example_rand (n : nat) : Z := (Z.of_nat n * 1103515245 + 12345) mod (RAND_MAX + 1).

Definition TENSOR_HEADER : Z := 368.

Definition example_lib : GgmlLibrary := {|
  ggml_init := λ _, true;
  ggml_new_tensor_1d := λ pool count,
    (0 <? mem_size pool) && (0 <=? count)
    && (foldr (λ n used, TENSOR_HEADER + 4 * n + used) 0 (pool_objects pool)
        + TENSOR_HEADER + 4 * count <=? mem_size pool)
|}.

Definition example_tokens : list string :=
  ["<pad>"; "<unk>"; "<s>"; "</s>"; "hello"; "world"; "foo"; "bar"].

(** A container of 40 MB of tensor data with an 8-token vocabulary,
    2 layers, 4 heads and embeddings of width 8. *)
Definition example_gguf : gguf_context := {|
  gguf_version := 3;
  gguf_kv_u32 := {[ "llama.vocab_size" := 8; "llama.embedding_length" := 8;
                    "llama.attention.head_count" := 4; "llama.block_count" := 2 ]};
  gguf_tokens := Some example_tokens;
  gguf_infos := [ {| ti_name := "token_embd.weight"; ti_type := GGML_TYPE_F32;
                     ti_size := 40 * 1024 * 1024 |} ]
|}.

Definition example_file : ModelFile := {|
  file_is_open := true; file_seek_fails := false;
  file_tellg := 40 * 1024 * 1024 + 4096;
  file_gguf := Some example_gguf
|}.

(** A path that cannot be opened. *)
Definition missing_file : ModelFile := {|
  file_is_open := false; file_seek_fails := false; file_tellg := -1; file_gguf := None
|}.

(** A readable file without the container signature. *)
Definition garbage_file : ModelFile := {|
  file_is_open := true; file_seek_fails := false; file_tellg := 1000; file_gguf := None
|}.

(** A container that declares a vocabulary of size 0 and a single
    full-precision tensor of 4096 bytes. *)
Definition zero_vocab_gguf : gguf_context := {|
  gguf_version := 3;
  gguf_kv_u32 := {[ "llama.vocab_size" := 0 ]};
  gguf_tokens := Some example_tokens;
  gguf_infos := [ {| ti_name := "token_embd.weight"; ti_type := GGML_TYPE_F32;
                     ti_size := 4096 |} ]
|}.

Definition zero_vocab_file : ModelFile := {|
  file_is_open := true; file_seek_fails := false; file_tellg := 8192;
  file_gguf := Some zero_vocab_gguf
|}.

Definition example_load (st : @State Z) : Z * @State Z :=
  loadModel example_lib example_lib example_file "model.gguf" st.

(** The registries after [n] successful loads of the example container. *)
Definition loaded_models (n : nat) : @State Z :=
  Nat.iter n (λ st, (example_load st).2) initial_state.

(** The spec's end-to-end configuration: 2 layers, 4 heads, embeddings of
    width 8, a vocabulary size of 64, of which the tokenizer array fills eight. *)
Definition wide_gguf : gguf_context := {|
  gguf_version := 3;
  gguf_kv_u32 := {[ "llama.vocab_size" := 64; "llama.embedding_length" := 8;
                    "llama.attention.head_count" := 4; "llama.block_count" := 2 ]};
  gguf_tokens := Some example_tokens;
  gguf_infos := [ {| ti_name := "output.weight"; ti_type := GGML_TYPE_F16;
                     ti_size := 65536 |} ]
|}.

Definition wide_file : ModelFile := {|
  file_is_open := true; file_seek_fails := false; file_tellg := 70000;
  file_gguf := Some wide_gguf
|}.

(** The same configuration with a head count of zero. *)
Definition zero_head_gguf : gguf_context := {|
  gguf_version := 3;
  gguf_kv_u32 := {[ "llama.vocab_size" := 64; "llama.embedding_length" := 8;
                    "llama.attention.head_count" := 0; "llama.block_count" := 2 ]};
  gguf_tokens := Some example_tokens;
  gguf_infos := [ {| ti_name := "output.weight"; ti_type := GGML_TYPE_F16;
                     ti_size := 65536 |} ]
|}.

Definition zero_head_file : ModelFile := {|
  file_is_open := true; file_seek_fails := false; file_tellg := 70000;
  file_gguf := Some zero_head_gguf
|}.

(** The model object a successful load of [file] creates. *)
Definition model_of_file (file : ModelFile) : RealTensorModel :=
  default new_RealTensorModel
    (loadRealTensorModel example_lib (file_gguf file)
       (model_for "model.gguf" (wrap64 (file_tellg file)))).

(** The registries after [createContext (model_id)]. *)
Definition example_create (model_id : Z) (st : @State Z) : @State Z :=
  match createContext example_lib model_id st with
  | Some (_, st') => st'
  | None => st
  end.

(** Fifteen models, two idle contexts on the first of them, and then a
    sixteenth model: 544 MB are tracked. *)
Definition crowded_state : @State Z :=
  (example_load (example_create 1 (example_create 1 (loaded_models 15)))).2.

(** One wide model (handle 1) and one context on it (handle 2). *)
Definition serving_state : @State Z :=
  example_create 1
    (loadModel example_lib example_lib wide_file "model.gguf" initial_state).2.

(** The context [createContext] registers for model 1. *)
Definition fresh_context : @RealInferenceContext Z := {|
  ctx_model := 1; ctx_size := 2048; initialized := true;
  input_tokens := []; embeddings := []; logits := [];
  generated_tokens := []; full_context_tokens := [];
  is_streaming := false; max_tokens_to_generate := 0; tokens_generated := 0;
  work_ctx := true; work_buffer := true; work_buffer_size := WORK_BUFFER_SIZE
|}.

(** A generator stuck at its largest value: every draw is 1. *)
Definition rand_max_stream (n : nat) : Z := RAND_MAX.

Definition example_start (input : string) (max_tokens : Z) (st : @State Z)
  : @State Z :=
  match startStreaming 2 input max_tokens st with
  | Some (_, st') => st'
  | None => st
  end.

(** The state after one more [nextToken] call on context 2. *)
Definition example_next (rand_stream : nat → Z) (s : @State Z * nat)
  : @State Z * nat :=
  match getNextStreamingToken rand_stream 2 s.1 s.2 with
  | Some (_, st', r') => (st', r')
  | None => s
  end.

(** Context 2 of [serving_state] once it streams "hello". *)
Definition streaming_context : @RealInferenceContext Z :=
  default fresh_context (contexts (example_start "hello" 5 serving_state) !! 2).

(** The logits of the first forward pass of that session. *)
Definition first_logits : list Z :=
  match forwardPass rand_max_stream (full_context_tokens streaming_context)
                    (model_of_file wide_file) 0 with
  | Some (l, _) => l
  | None => []
  end.

(** A model whose vocabulary knows the subwords "foo" and "bar". *)
Definition subword_model : RealTensorModel :=
  with_token (with_token new_RealTensorModel 10 "foo") 11 "bar".

(** A container that declares the embedding length 4294967295: read into
    an [int], [d_model] is -1. *)
Definition negative_embd_gguf : gguf_context := {|
  gguf_version := 3;
  gguf_kv_u32 := {[ "llama.vocab_size" := 64; "llama.embedding_length" := 4294967295;
                    "llama.attention.head_count" := 2; "llama.block_count" := 2 ]};
  gguf_tokens := Some example_tokens;
  gguf_infos := [ {| ti_name := "output.weight"; ti_type := GGML_TYPE_F16;
                     ti_size := 65536 |} ]
|}.

Definition negative_embd_file : ModelFile := {|
  file_is_open := true; file_seek_fails := false; file_tellg := 70000;
  file_gguf := Some negative_embd_gguf
|}.

(** One model loaded from that container (handle 1), and one context on
    it (handle 2) that streams "hello" with a bound of 5 tokens. *)
Definition negative_embd_state : @State Z :=
  example_start "hello" 5
    (example_create 1
       (loadModel example_lib example_lib negative_embd_file "model.gguf" initial_state).2).

(** * The rest of the bridge

    The remaining functions of [llama_bridge_phase3_real.cpp]: batch and
    one-call generation, the vocabulary tables, dequantization, and the
    notions that the properties of the whole call surface are stated
    with. *)

(** ** Strings, continued *)

(** [std::transform (s.begin (), s.end (), s.begin (), ::tolower)]. *)
Fixpoint str_tolower (s : string) : string :=
  match s with
  | EmptyString => EmptyString
  | String c rest => String (tolower c) (str_tolower rest)
  end.

Fixpoint str_forall (p : ascii → bool) (s : string) : bool :=
  match s with
  | EmptyString => true
  | String c rest => p c && str_forall p rest
  end.

(** A word character that [std::tolower] leaves alone. *)
Definition is_lower_word_char (c : ascii) : bool :=
  is_word_char c && bool_decide (tolower c = c).


(** The ids [tokenizeAdvanced] emits for a character that is not a word
    character, once the pending word is flushed. *)
Definition separator_tokens (model : RealTensorModel) (c : ascii) : list Z :=
  if is_whitespace c then []
  else if is_punctuation c then
    [match token_to_id model !! String c EmptyString with
     | Some id => id
     | None => TOKEN_UNK
     end]
  else [].

(** The tokenizer state with [pre] in front of its tokens. *)
Definition tk_prepend (pre : list Z) (st : TokenizerState) : TokenizerState :=
  {| tk_tokens := pre ++ tk_tokens st;
     tk_current_word := tk_current_word st;
     tk_in_word := tk_in_word st |}.

(** Between two words: nothing pending. *)
Definition tk_idle (tokens : list Z) : TokenizerState :=
  {| tk_tokens := tokens; tk_current_word := EmptyString; tk_in_word := false |}.

(** [in_word] is set exactly when a word is pending, and the pending word
    is made of lower-case word characters. *)
Definition tk_wf (st : TokenizerState) : Prop :=
  tk_in_word st = negb (str_empty (tk_current_word st)) ∧
  str_forall is_lower_word_char (tk_current_word st) = true.

(** The tokens emitted so far and the characters of the pending word. *)
Definition tk_size (st : TokenizerState) : nat :=
  (length (tk_tokens st) + String.length (tk_current_word st))%nat.


(** ** Vocabulary tables *)

(** The string the loader stores for position [i] of the container's
    token array: the entry itself, or a placeholder when the entry is
    empty or longer than 100 characters. *)
Definition stored_token (tokens : list string) (i : Z) : string :=
  let token_data := nth (Z.to_nat i) tokens EmptyString in
  if str_empty token_data then placeholder_token i
  else if 100 <? Z.of_nat (String.length token_data) then placeholder_token i
  else token_data.

(** A run of [vocab.push_back (token); token_to_id[token] = (int) i;
    id_to_token[(int) i] = token;] over the pairs [(i, token)]. *)
Definition add_tokens (entries : list (Z * string)) (model : RealTensorModel)
  : RealTensorModel :=
  fold_left (λ model e, with_token model e.1 e.2) entries model.

(** The pairs the two vocabulary loaders go through. *)
Definition real_vocabulary_entries (tokens : list string) (n_vocab : Z) : list (Z * string) :=
  (λ i, (i, stored_token tokens i))
  <$> for_range (Z.min (Z.of_nat (length tokens)) n_vocab).

Definition basic_vocabulary_entries (n_vocab : Z) : list (Z * string) :=
  imap (λ i t, (Z.of_nat i, t)) basic_tokens
  ++ ((λ k, let i := Z.of_nat (length basic_tokens) + k in (i, placeholder_token i))
      <$> for_range (n_vocab - Z.of_nat (length basic_tokens))).

(** ** Response generation *)

Section Generation.
Context {F : Type} `{FloatOps F}.
Variable rand_stream : nat → Z.

(** The body of the collecting loop of [generateResponsePhase3Streaming]:
    empty tokens and the text "<unk>" are skipped, the others are joined
    with single spaces. *)
Definition append_response (response next_token : string) : string :=
  if negb (str_empty next_token) && negb (bool_decide (next_token = "<unk>")) then
    (if negb (str_empty response) then response +:+ " " else response) +:+ next_token
  else response.

(** How a generation that an entry point runs under its [catch] handlers
    ends: it returns a result; or it throws, and the handlers find the
    context and the state of [rand ()] as they were at that point; or its
    behaviour is undefined. *)
Inductive generation (A : Type) : Type :=
  | Completed (result : A)
  | Thrown (context : @RealInferenceContext F) (r : nat)
  | Undefined.
Arguments Completed {A} result.
Arguments Thrown {A} context r.
Arguments Undefined {A}.

(** The tokens a streaming context may still generate. *)
Definition tokens_left (context : @RealInferenceContext F) : nat :=
  Z.to_nat (max_tokens_to_generate context - tokens_generated context).

(** [while (!isStreamingComplete (context)) { ... }].  Every iteration
    that returns has generated one token, so [tokens_left] decreases. *)
Equations? streaming_loop (context : @RealInferenceContext F) (model : option RealTensorModel)
    (response : string) (r : nat) : generation (string * @RealInferenceContext F * nat)
  by wf (tokens_left context) lt :=
  streaming_loop context model response r with inspect (isStreamingComplete context) := {
    | exist _ true _ => Completed (response, context, r);
    | exist _ false _
        with inspect (generateNextStreamingToken rand_stream context model r) := {
        | exist _ None _ =>
            if generateNextStreamingToken_throws context model
            then Thrown context r else Undefined;
        | exist _ (Some (next_token, context', r')) _ =>
            streaming_loop context' model (append_response response next_token) r' } }.
Proof.
  clear streaming_loop.
  unfold isStreamingComplete in e. unfold generateNextStreamingToken in e0.
  rewrite e in e0. apply orb_false_iff in e as [_ Hlt]. apply Z.leb_gt in Hlt.
  destruct model as [m|]; [|discriminate].
  destruct (forwardPass rand_stream (full_context_tokens context) m r) as [[logits r1]|];
    [|discriminate].
  destruct (sample_token rand_stream m logits r1) as [[best r2]|]; [|discriminate].
  inversion e0; subst. unfold tokens_left; simpl. lia.
Qed.

(** *** Batch generation *)

(** The scan for the largest logit: [best_score] starts at [logits[0]],
    which must exist; a later entry wins only when strictly larger. *)
Definition best_logit (model : RealTensorModel) (logits : list F) : option Z :=
  match logits with
  | [] => None
  | l0 :: _ =>
      let bound := Z.min (n_vocab model) (Z.of_nat (length logits)) in
      Some (fold_left (λ best j,
                if f_ltb best.2 (vnth logits j) then (j, vnth logits j) else best)
              ((λ k, k + 1) <$> for_range (bound - 1)) (0, l0)).1
  end.

(** The sampling loop of [generateResponsePhase3Original], with [rounds]
    iterations to go. *)
Fixpoint greedy_tokens (rounds : nat) (model : RealTensorModel) (logits : list F)
  : option (list Z) :=
  match rounds with
  | O => Some []
  | S rounds' =>
      match best_logit model logits with
      | None => None
      | Some best_token =>
          let scale :=
            f_add (f_lit 9 10)
                  (f_mul (f_lit 1 10)
                         (f_div (f_of_int best_token) (f_of_int (n_vocab model)))) in
          let logits := (λ l, f_mul l scale) <$> logits in
          if best_token =? 3 then Some [best_token]
          else cons best_token <$> greedy_tokens rounds' model logits
      end
  end.

(** The ids with an entry in [id_to_token], joined with single spaces. *)
Definition decode_tokens (model : RealTensorModel) (output_tokens : list Z) : string :=
  fold_left (λ response token,
      match id_to_token model !! token with
      | Some text => (if negb (str_empty response) then response +:+ " " else response) +:+ text
      | None => response
      end)
    output_tokens EmptyString.

Definition enhance_batch_response (model : RealTensorModel) (input response : string) : string :=
  let lower_input := str_tolower input in
  if str_contains "phase" lower_input || str_contains "real" lower_input then
    "Phase 3 real neural network active! Loaded " +:+ pretty (size (tensors model))
    +:+ " tensors, " +:+ pretty (length (vocab model)) +:+ " vocab tokens. " +:+ response
  else if str_contains "tensor" lower_input || str_contains "matrix" lower_input then
    "Real tensor operations complete! Used " +:+ pretty (n_layer model)
    +:+ " transformer layers, " +:+ pretty (n_head model) +:+ " attention heads. " +:+ response
  else if str_contains "inference" lower_input || str_contains "neural" lower_input then
    "Full neural network inference! Forward pass through " +:+ pretty (n_layer model)
    +:+ " layers, " +:+ pretty (n_embd model) +:+ "D embeddings. " +:+ response
  else response.

(** [context->input_tokens = input_tokens], the first write of
    [generateResponsePhase3Original]. *)
Definition store_input (context : @RealInferenceContext F) (tokens : list Z)
  : @RealInferenceContext F :=
  {| ctx_model := ctx_model context; ctx_size := ctx_size context;
     initialized := initialized context;
     input_tokens := tokens;
     embeddings := embeddings context; logits := logits context;
     generated_tokens := generated_tokens context;
     full_context_tokens := full_context_tokens context;
     is_streaming := is_streaming context;
     max_tokens_to_generate := max_tokens_to_generate context;
     tokens_generated := tokens_generated context;
     work_ctx := work_ctx context; work_buffer := work_buffer context;
     work_buffer_size := work_buffer_size context |}.

(** [context->logits = logits]. *)
Definition store_logits (context : @RealInferenceContext F) (output : list F)
  : @RealInferenceContext F :=
  {| ctx_model := ctx_model context; ctx_size := ctx_size context;
     initialized := initialized context;
     input_tokens := input_tokens context;
     embeddings := embeddings context; logits := output;
     generated_tokens := generated_tokens context;
     full_context_tokens := full_context_tokens context;
     is_streaming := is_streaming context;
     max_tokens_to_generate := max_tokens_to_generate context;
     tokens_generated := tokens_generated context;
     work_ctx := work_ctx context; work_buffer := work_buffer context;
     work_buffer_size := work_buffer_size context |}.

(** [generateResponsePhase3Original (input, context)].  [model] is the
    object behind [context->model], [None] when it has been deleted.  The
    forward pass may throw, after the input tokens have been stored; with
    no logits, the scan for the best token reads [logits[0]] of an empty
    vector. *)
Definition generateResponsePhase3Original (input : string)
    (context : @RealInferenceContext F) (model : option RealTensorModel) (r : nat)
  : generation (string * @RealInferenceContext F * nat) :=
  match model with
  | None => Undefined
  | Some model =>
      let tokens := tokenizeAdvanced input model in
      let context := store_input context tokens in
      match forwardPass rand_stream tokens model r with
      | None => if forwardPass_throws tokens model then Thrown context r else Undefined
      | Some (output, r) =>
          let context := store_logits context output in
          match greedy_tokens 15 model output with
          | None => Undefined
          | Some output_tokens =>
              Completed (enhance_batch_response model input (decode_tokens model output_tokens),
                         context, r)
          end
      end
  end.

(** *** Streaming generation in one call *)

Definition DEMO_MAX_TOKENS : Z := 20.

Definition enhance_streaming_response (context : @RealInferenceContext F)
    (input response : string) : string :=
  let lower_input := str_tolower input in
  if str_contains "streaming" lower_input || str_contains "real" lower_input then
    "Streaming inference active! Generated " +:+ pretty (tokens_generated context)
    +:+ " tokens in real-time. " +:+ response
  else response.

(** [generateResponsePhase3Streaming (input, context, use_streaming)]. *)
Definition generateResponsePhase3Streaming (input : string)
    (context : @RealInferenceContext F) (model : option RealTensorModel)
    (use_streaming : bool) (r : nat)
  : generation (string * @RealInferenceContext F * nat) :=
  if use_streaming then
    match model with
    | None => Undefined
    | Some m =>
        let '(started, context) := startStreamingInference context m input DEMO_MAX_TOKENS in
        if negb started then
          Completed ("Error: Failed to start streaming inference", context, r)
        else
          match streaming_loop context model EmptyString r with
          | Completed (response, context, r) =>
              Completed (enhance_streaming_response context input response, context, r)
          | Thrown context r => Thrown context r
          | Undefined => Undefined
          end
    end
  else generateResponsePhase3Original input context model r.

Definition EMPTY_RESPONSE_APOLOGY : string :=
  "I apologize, but I couldn't generate a proper response. Please try again.".

(** The validation of the response at the end of [generateText]. *)
Definition finish_response (response : string) : string :=
  let response := if str_empty response then EMPTY_RESPONSE_APOLOGY else response in
  if 4096 <? Z.of_nat (String.length response)
  then str_take (Z.to_nat 4093) response +:+ "..." else response.

Definition GENERATION_ERROR_APOLOGY : string :=
  "I apologize, but I encountered an error during processing. Please try again.".

(** [generateText (context_id, input_text, max_tokens)], with the state
    of [rand ()].  When the generation throws, the handler runs a memory
    recovery and answers with a fixed text, which is returned as it is.
    [None]: the call follows a pointer to a context or a model that has
    been deleted, or the generation is undefined. *)
Definition generateText (context_id : Z) (input : string) (max_tokens : Z)
    (st : @State F) (r : nat) : option (string * @State F * nat) :=
  match contexts st !! context_id with
  | None => Some (EmptyString, st, r)
  | Some ctx =>
      if negb (initialized ctx) then Some (EmptyString, st, r)
      else
        match models st !! ctx_model ctx with
        | None => None
        | Some model =>
            if negb (loaded model) then Some (EmptyString, st, r)
            else
              let '(healthy, st) :=
                if checkMemoryHealth st then (true, st) else recoverFromMemoryError st in
              if negb healthy then Some ("Error: Memory recovery failed", st, r)
              else if (max_tokens <=? 0) || (2048 <? max_tokens) then Some (EmptyString, st, r)
              else
                let input_len := Z.of_nat (String.length input) in
                if input_len =? 0 then Some (EmptyString, st, r)
                else if 8192 <? input_len then Some ("Error: Input text too long", st, r)
                else
                  match contexts st !! context_id with
                  | None => None
                  | Some ctx =>
                      match generateResponsePhase3Streaming input ctx
                              (models st !! ctx_model ctx) true r with
                      | Completed (response, ctx, r) =>
                          Some (finish_response response,
                                with_context st context_id ctx, r)
                      | Thrown ctx r =>
                          let '(recovered, st) :=
                            recoverFromMemoryError (with_context st context_id ctx) in
                          Some (if recovered then GENERATION_ERROR_APOLOGY
                                else "Error: Unable to generate response due to system issues.",
                                st, r)
                      | Undefined => None
                      end
                  end
        end
  end.

(** ** The calls of the bridge

    One call of an exported function that returns, as a step from the
    registries before it to the registries after it. *)
Inductive bridge_call : @State F → @State F → Prop :=
  | call_loadModel lib lib_retry file model_path st :
      bridge_call st (loadModel lib lib_retry file model_path st).2
  | call_createContext lib model_id st h st' :
      createContext lib model_id st = Some (h, st') → bridge_call st st'
  | call_generateText context_id input max_tokens st r reply st' r' :
      generateText context_id input max_tokens st r = Some (reply, st', r') →
      bridge_call st st'
  | call_freeContext context_id st :
      bridge_call st (freeContext context_id st)
  | call_freeModel model_id st :
      bridge_call st (freeModel model_id st)
  | call_startStreaming context_id input max_tokens st ok st' :
      startStreaming context_id input max_tokens st = Some (ok, st') → bridge_call st st'
  | call_getNextStreamingToken context_id st r token st' r' :
      getNextStreamingToken rand_stream context_id st r = Some (token, st', r') →
      bridge_call st st'
  | call_stopStreaming context_id st :
      bridge_call st (stopStreaming context_id st)
  | call_forceCleanup st :
      bridge_call st (forceCleanup st)
  | call_recoverFromError st :
      bridge_call st (recoverFromError st).2.

(** The registries some sequence of calls leads to from the start. *)
Definition bridge_reachable (st : @State F) : Prop := rtc bridge_call initial_state st.

End Generation.

Arguments Completed {F A} result.
Arguments Thrown {F A} context r.
Arguments Undefined {F A}.

(** ** What every sequence of calls preserves *)

Section Invariant.
Context {F : Type}.

Definition MAX_INPUT_LENGTH : Z := 8192.
Definition MAX_STREAM_TOKENS : Z := 2048.

(** What the governor allows to be tracked for models and work buffers:
    the ceiling, and one arena that a load may add to a healthy state. *)
Definition MEMORY_BUDGET : Z := MAX_MEMORY_LIMIT + max_tensor_size.

(** A model as [loadModel] commits it. *)
Definition model_ok (m : RealTensorModel) : Prop :=
  loaded m = true ∧ tensor_data m = true ∧ is_Some (ggml_ctx m) ∧ tensors m ≠ ∅ ∧
  0 ≤ tensor_data_size m ≤ max_tensor_size.

(** A context as the calls leave it: its work buffer, no cached
    activations, token vectors within the limits the entry points check,
    and a model that is still registered. *)
Definition context_ok (ms : gmap Z RealTensorModel) (c : @RealInferenceContext F) : Prop :=
  initialized c = true ∧ work_buffer_size c = WORK_BUFFER_SIZE ∧
  embeddings c = [] ∧ logits c = [] ∧
  Z.of_nat (length (input_tokens c)) ≤ MAX_INPUT_LENGTH + 1 ∧
  0 ≤ tokens_generated c ≤ max_tokens_to_generate c ∧
  max_tokens_to_generate c ≤ MAX_STREAM_TOKENS ∧
  Z.of_nat (length (generated_tokens c)) ≤ tokens_generated c ∧
  Z.of_nat (length (full_context_tokens c)) ≤ MAX_INPUT_LENGTH + 1 + tokens_generated c ∧
  is_Some (ms !! ctx_model c).

Definition bridge_invariant (st : @State F) : Prop :=
  handles_fresh st ∧
  map_Forall (λ _ m, model_ok m) (models st) ∧
  map_Forall (λ _ c, context_ok (models st) c) (contexts st) ∧
  map_sum tensor_data_size (models st) + map_sum work_buffer_size (contexts st)
    ≤ MEMORY_BUDGET ∧
  (∀ k, is_Some (models st !! k) → contexts st !! k = None).

(** No handle in use is zero or negative: the failure value 0 of
    [loadModel] and [createContext] is never a handle. *)
Definition handles_positive (st : @State F) : Prop :=
  handles_fresh st ∧
  map_Forall (λ k _, 0 < k) (models st) ∧ map_Forall (λ k _, 0 < k) (contexts st).

(** The most a reachable registry ever tracks: 547 MB. *)
Definition MEMORY_BOUND : Z := 547 * 1024 * 1024.

(** From [st] to [st']: the handle counter has not gone back, and no
    handle below it that was free in [st] is in use in [st']. *)
Definition handles_retired (st st' : @State F) : Prop :=
  next_id st ≤ next_id st' ∧
  ∀ k, k < next_id st →
       (contexts st !! k = None → contexts st' !! k = None) ∧
       (models st !! k = None → models st' !! k = None).

End Invariant.

(** ** Dequantization *)

Section Dequantize.
Context {F : Type} `{FloatOps F}.
Variable rand_stream : nat → Z.

(** [((float) val / 15.0f) * 2.0f - 1.0f]. *)
Definition q4_to_float (val : Z) : F :=
  f_sub (f_mul (f_div (f_of_int val) (f_lit 15 1)) (f_lit 2 1)) (f_lit 1 1).

(** The two 4-bit values of a byte: the lower bits, then the upper bits. *)
Definition low_nibble (byte_val : Z) : Z := Z.land byte_val 15.
Definition high_nibble (byte_val : Z) : Z := Z.land (Z.shiftr byte_val 4) 15.

(** One iteration of the loop of [dequantizeQ4KM], at index [i].  [src]
    and [dst] are the extents of the two buffers; a read or a write
    outside them is not defined. *)
Definition dequantize_pair (src : list Z) (n : Z) (dst : list F) (i : Z) : option (list F) :=
  match src !! Z.to_nat (i / 2) with
  | None => None
  | Some byte_val =>
      if idx_in i dst then
        let dst := vset dst i (q4_to_float (low_nibble byte_val)) in
        if i + 1 <? n then
          if idx_in (i + 1) dst
          then Some (vset dst (i + 1) (q4_to_float (high_nibble byte_val)))
          else None
        else Some dst
      else None
  end.

(** [dequantizeQ4KM (src, dst, n)]: the index runs over 0, 2, 4, ...
    below [n]; the increment [i += 2] must stay within [int]. *)
Definition dequantizeQ4KM (src : list Z) (dst : list F) (n : Z) : option (list F) :=
  if INT_MAX <=? n then None
  else
    fold_left (λ acc p, match acc with
                        | Some dst => dequantize_pair src n dst (2 * p)
                        | None => None
                        end)
      (for_range ((n + 1) / 2)) (Some dst).



End Dequantize.

(** ** Fixtures, continued *)

(** A container without a token array, which declares a vocabulary of 64
    entries. *)
Definition plain_gguf : gguf_context := {|
  gguf_version := 3;
  gguf_kv_u32 := {[ "llama.vocab_size" := 64; "llama.embedding_length" := 8;
                    "llama.attention.head_count" := 4; "llama.block_count" := 2 ]};
  gguf_tokens := None;
  gguf_infos := [ {| ti_name := "output.weight"; ti_type := GGML_TYPE_F16;
                     ti_size := 65536 |} ]
|}.

Definition plain_file : ModelFile := {|
  file_is_open := true; file_seek_fails := false; file_tellg := 70000;
  file_gguf := Some plain_gguf
|}.

(** One model of vocabulary size 0 (handle 1) and one context on it
    (handle 2) that streams "hello" with a bound of 5 tokens. *)
Definition zero_vocab_state : @State Z :=
  example_start "hello" 5
    (example_create 1
       (loadModel example_lib example_lib zero_vocab_file "model.gguf" initial_state).2).

(** One model that declares a negative embedding length (handle 1), an
    idle context on it (handle 2) and a second idle context (handle 3). *)
Definition negative_embd_idle : @State Z :=
  example_create 1
    (example_create 1
       (loadModel example_lib example_lib negative_embd_file "model.gguf" initial_state).2).

(** [serving_state] once context 2 streams "hello" with a bound of 5. *)
Definition streaming_state : @State Z := example_start "hello" 5 serving_state.

(** [serving_state] after [freeContext (2)]. *)
Definition retired_state : @State Z := freeContext 2 serving_state.

(** A container with no layer, embeddings of width 1 and the four
    reserved tokens for vocabulary. *)
Definition tiny_gguf : gguf_context := {|
  gguf_version := 3;
  gguf_kv_u32 := {[ "llama.vocab_size" := 4; "llama.embedding_length" := 1;
                    "llama.attention.head_count" := 1; "llama.block_count" := 0 ]};
  gguf_tokens := Some ["<pad>"; "<unk>"; "<s>"; "</s>"];
  gguf_infos := [ {| ti_name := "output.weight"; ti_type := GGML_TYPE_F16;
                     ti_size := 65536 |} ]
|}.

Definition tiny_file : ModelFile := {|
  file_is_open := true; file_seek_fails := false; file_tellg := 70000;
  file_gguf := Some tiny_gguf
|}.

(** One model loaded from that container (handle 1) and one idle context
    on it (handle 2). *)
Definition tiny_state : @State Z :=
  example_create 1
    (loadModel example_lib example_lib tiny_file "model.gguf" initial_state).2.

(** * Properties *)

(** ** Tokenizer *)

Lemma longest_prefix_some t2i r n k id :
  longest_prefix t2i r n = Some (k, id) →
  (1 ≤ k ≤ n)%nat ∧ t2i !! str_take k r = Some id ∧
  ∀ k', (k < k' ≤ n)%nat → t2i !! str_take k' r = None.
Proof.
  induction n as [|n IH]; cbn [longest_prefix]; [discriminate|].
  destruct (t2i !! str_take (S n) r) as [id'|] eqn:E.
  - intros Heq; inversion Heq; subst. repeat split; [lia | lia | exact E | intros k' ?; lia].
  - intros Hn. destruct (IH Hn) as (Hr & Hk & Hmax).
    repeat split; [lia | lia | exact Hk |].
    intros k' Hk'. destruct (decide (k' = S n)) as [->|]; [exact E | apply Hmax; lia].
Qed.

Lemma longest_prefix_none t2i r n :
  longest_prefix t2i r n = None →
  ∀ k, (1 ≤ k ≤ n)%nat → t2i !! str_take k r = None.
Proof.
  induction n as [|n IH]; cbn [longest_prefix]; [intros _ k ?; lia|].
  destruct (t2i !! str_take (S n) r) as [id'|] eqn:E; [discriminate|].
  intros Hn k Hk. destruct (decide (k = S n)) as [->|]; [exact E | apply IH; [exact Hn | lia]].
Qed.

Lemma str_drop_shorter n c s :
  (1 ≤ n)%nat → (String.length (str_drop n (String c s)) < String.length (String c s))%nat.
Proof.
  destruct n as [|n]; [lia|]. simpl. revert s.
  induction n as [|n IH]; intros [|a s]; simpl; try lia. specialize (IH s). lia.
Qed.

Lemma tokenizeSubword_loop_spec t2i word :
  subword_spec t2i word (tokenizeSubword_loop t2i word) ∧
  (length (tokenizeSubword_loop t2i word) ≤ String.length word)%nat.
Proof.
  remember (String.length word) as n eqn:Hn.
  revert word Hn. induction n as [n IH] using lt_wf_ind. intros word Hn.
  destruct word as [|c s].
  - simp tokenizeSubword_loop. split; [constructor | simpl; lia].
  - simp tokenizeSubword_loop.
    generalize (inspect (longest_prefix t2i (String c s) (prefix_bound (String c s)))).
    intros [[[len id]|] E]; simp tokenizeSubword_loop.
    + destruct (longest_prefix_some _ _ _ _ _ E) as (Hr & Hk & Hmax).
      pose proof (str_drop_shorter len c s ltac:(lia)) as Hlt.
      destruct (IH _ ltac:(subst n; exact Hlt) (str_drop len (String c s)) eq_refl)
        as [Hspec Hlen].
      split.
      * eapply subword_match; [discriminate | | exact Hspec].
        split; [split; [exact Hr | exact Hk]|].
        intros len' id' [Hr' Hk'].
        destruct (decide (len' ≤ len)%nat) as [|Hgt]; [assumption|].
        rewrite Hmax in Hk'; [discriminate | unfold prefix_bound in *; lia].
      * simpl in *. subst n. simpl in Hlt. lia.
    + split; [|subst n; simpl; lia].
      apply subword_unknown; [discriminate|].
      intros len id [Hr Hk].
      rewrite (longest_prefix_none _ _ _ E len) in Hk; [discriminate | exact Hr].
Qed.

(** C7.  Whatever the vocabulary of the model, encoding the empty string
    yields exactly one token, the begin-of-sequence id 2. *)
Theorem tokenizeAdvanced_empty (model : RealTensorModel) :
  tokenizeAdvanced EmptyString model = [TOKEN_BOS] ∧ TOKEN_BOS = 2.
Proof. split; reflexivity. Qed.

(** C8.  For a word that is not in the string-to-id map the encoder uses
    the subword fallback, and the fallback behaves as specified: on each
    remaining suffix it emits the id of the longest known prefix among the
    lengths min(length, 10) down to 1 and continues after that prefix, or,
    when no such prefix is known, emits the unknown id once and stops.  It
    is a total function (it terminates on every word) and emits at most one
    id per character. *)
Theorem tokenizeSubword_fallback (model : RealTensorModel) (word : string) :
  token_to_id model !! word = None →
  tokenizeWord word model = tokenizeSubword word model ∧
  subword_spec (token_to_id model) word (tokenizeSubword word model) ∧
  (length (tokenizeSubword word model) ≤ String.length word)%nat.
Proof.
  intros Hmiss. unfold tokenizeWord. rewrite Hmiss. split; [reflexivity|].
  apply tokenizeSubword_loop_spec.
Qed.

(** ** Sums over registries *)

Section MapSum.
Context {V : Type}.
Implicit Types (f g : V → Z) (m : gmap Z V).

Lemma map_sum_empty f : map_sum f (∅ : gmap Z V) = 0.
Proof. unfold map_sum. apply map_fold_empty. Qed.

Lemma map_sum_insert f m k v :
  m !! k = None → map_sum f (<[k := v]> m) = f v + map_sum f m.
Proof.
  intros Hk. unfold map_sum.
  rewrite map_fold_insert_L; [reflexivity | intros; lia | exact Hk].
Qed.

Lemma map_sum_delete f m k v :
  m !! k = Some v → map_sum f m = f v + map_sum f (delete k m).
Proof.
  intros Hk. rewrite <- (insert_delete_id m k v Hk) at 1.
  apply map_sum_insert, lookup_delete_eq.
Qed.

Lemma map_sum_le f g m :
  map_Forall (λ _ v, f v ≤ g v) m → map_sum f m ≤ map_sum g m.
Proof.
  induction m as [|k v m Hk IH] using map_ind; intros Hall.
  - rewrite !map_sum_empty. lia.
  - rewrite !map_sum_insert by assumption.
    apply map_Forall_insert in Hall as [Hv Hm]; [|assumption].
    specialize (IH Hm). lia.
Qed.

Lemma map_sum_nonneg f m :
  map_Forall (λ _ v, 0 ≤ f v) m → 0 ≤ map_sum f m.
Proof.
  induction m as [|k v m Hk IH] using map_ind; intros Hall.
  - rewrite map_sum_empty. lia.
  - rewrite map_sum_insert by assumption.
    apply map_Forall_insert in Hall as [Hv Hm]; [|assumption].
    specialize (IH Hm). lia.
Qed.

Lemma map_sum_filter_le f (P : Z * V → Prop) `{!∀ x, Decision (P x)} m :
  map_Forall (λ _ v, 0 ≤ f v) m → map_sum f (filter P m) ≤ map_sum f m.
Proof.
  induction m as [|k v m Hk IH] using map_ind; intros Hall.
  - rewrite map_filter_empty. lia.
  - apply map_Forall_insert in Hall as [Hv Hm]; [|assumption].
    specialize (IH Hm). rewrite (map_sum_insert f m) by assumption.
    destruct (decide (P (k, v))) as [HP|HP].
    + rewrite map_filter_insert_True by assumption.
      rewrite map_sum_insert; [lia|].
      apply map_lookup_filter_None; left; assumption.
    + rewrite map_filter_insert_not' by (try assumption; intros ? ?; congruence).
      lia.
Qed.

(** The governor's loop, which adds in [size_t], against the exact sum. *)
Lemma map_fold_size_add f m a :
  wrap64 (map_fold (λ _ v total, size_add total (f v)) a m) = wrap64 (a + map_sum f m).
Proof.
  unfold map_sum. rewrite !map_fold_foldr.
  induction (map_to_list m) as [|[k v] l IH]; simpl.
  - f_equal; lia.
  - unfold size_add at 1. unfold wrap64 in *.
    rewrite Zmod_mod, Zplus_mod, IH, <- Zplus_mod. f_equal; lia.
Qed.

Lemma map_fold_size_add_range f m a :
  0 ≤ a < 2 ^ 64 →
  0 ≤ map_fold (λ _ v total, size_add total (f v)) a m < 2 ^ 64.
Proof.
  intros Ha. rewrite map_fold_foldr.
  destruct (map_to_list m) as [|[k v] l]; simpl; [exact Ha|].
  apply Z.mod_pos_bound. lia.
Qed.
End MapSum.

Lemma map_sum_fmap {V W : Type} (f : W → Z) (g : V → W) (m : gmap Z V) :
  map_sum f (g <$> m) = map_sum (f ∘ g) m.
Proof. unfold map_sum. apply map_fold_fmap. Qed.

Lemma wrap64_idemp z : wrap64 (wrap64 z) = wrap64 z.
Proof. unfold wrap64. apply Zmod_mod. Qed.

Lemma size_add_wrapped a b : wrap64 (size_add a b) = size_add a b.
Proof. apply wrap64_idemp. Qed.

(** Addition in [size_t] respects equality modulo 2^64. *)
Lemma size_add_congr a b a' b' :
  wrap64 a = wrap64 a' → wrap64 b = wrap64 b' → wrap64 (size_add a b) = wrap64 (a' + b').
Proof.
  unfold size_add, wrap64. intros Ha Hb.
  rewrite Zmod_mod, Zplus_mod, Ha, Hb, <- Zplus_mod. reflexivity.
Qed.

Lemma wrap64_small z : 0 ≤ z < 2 ^ 64 → wrap64 z = z.
Proof. apply Z.mod_small. Qed.

Lemma wrap64_range z : 0 ≤ wrap64 z < 2 ^ 64.
Proof. apply Z.mod_pos_bound. lia. Qed.

(** ** Memory governor *)

Section Governor.
Context {F : Type}.
Implicit Types (st : @State F) (c : @RealInferenceContext F).

Lemma getMemoryUsage_exact c : getMemoryUsage c = wrap64 (context_bytes c).
Proof.
  unfold getMemoryUsage, context_bytes.
  rewrite <- size_add_wrapped.
  repeat (apply size_add_congr); try reflexivity;
    unfold size_mul; rewrite wrap64_idemp; apply (f_equal wrap64); lia.
Qed.

Lemma getTotalMemoryUsage_exact st :
  getTotalMemoryUsage st = wrap64 (tracked_bytes st).
Proof.
  unfold getTotalMemoryUsage, tracked_bytes.
  set (total := map_fold _ 0 (models st)).
  assert (Ht : 0 ≤ total < 2 ^ 64) by (apply map_fold_size_add_range; lia).
  assert (Hc : ∀ a (cs : gmap Z (@RealInferenceContext F)),
             wrap64 (map_fold (λ _ c t, size_add t (getMemoryUsage c)) a cs)
             = wrap64 (a + map_sum context_bytes cs)).
  { intros a cs. unfold map_sum. rewrite !map_fold_foldr.
    induction (map_to_list cs) as [|[k c] l IH]; simpl; [f_equal; lia|].
    unfold size_add at 1. rewrite getMemoryUsage_exact. unfold wrap64 in *.
    rewrite Zmod_mod, Zplus_mod, IH, Zmod_mod, <- Zplus_mod. f_equal; lia. }
  rewrite <- (wrap64_small (map_fold _ total (contexts st)))
    by (apply map_fold_size_add_range; exact Ht).
  rewrite Hc. unfold total.
  unfold wrap64. rewrite Zplus_mod.
  change ((map_fold (λ _ m t, size_add t (tensor_data_size m)) 0 (models st)) mod 2 ^ 64)
    with (wrap64 (map_fold (λ _ m t, size_add t (tensor_data_size m)) 0 (models st))).
  rewrite map_fold_size_add. unfold wrap64. rewrite <- Zplus_mod. f_equal; lia.
Qed.

Lemma getTotalMemoryUsage_range st : 0 ≤ getTotalMemoryUsage st < 2 ^ 64.
Proof. rewrite getTotalMemoryUsage_exact. apply wrap64_range. Qed.

Lemma checkMemoryHealth_true st :
  checkMemoryHealth st = true ↔
  getTotalMemoryUsage st ≤ MAX_MEMORY_LIMIT ∧ models_intact st = true.
Proof.
  unfold checkMemoryHealth, models_intact.
  destruct (MAX_MEMORY_LIMIT <? getTotalMemoryUsage st) eqn:E.
  - apply Z.ltb_lt in E. split; [discriminate | intros [? _]; lia].
  - apply Z.ltb_ge in E. tauto.
Qed.

Lemma registry_ok_true st :
  registry_ok st = true ↔
  map_Forall (λ _ m, 0 ≤ tensor_data_size m) (models st) ∧
  map_Forall (λ _ c, 0 ≤ work_buffer_size c) (contexts st) ∧
  tracked_bytes st < 2 ^ 64.
Proof.
  unfold registry_ok. rewrite !andb_true_iff, !bool_decide_eq_true, Z.ltb_lt. tauto.
Qed.

Lemma context_bytes_trim c : context_bytes (trim_context c) ≤ context_bytes c.
Proof.
  unfold context_bytes, trim_context; simpl.
  destruct (1024 <? length (full_context_tokens c))%nat; [rewrite length_drop|]; lia.
Qed.

Lemma context_bytes_lower c : work_buffer_size c ≤ context_bytes c.
Proof. unfold context_bytes. lia. Qed.

Lemma contexts_nonneg (cs : gmap Z (@RealInferenceContext F)) :
  map_Forall (λ _ c, 0 ≤ work_buffer_size c) cs →
  map_Forall (λ _ c, 0 ≤ context_bytes c) cs.
Proof.
  intros Hall k c Hk. specialize (Hall k c Hk). simpl in *.
  pose proof (context_bytes_lower c). lia.
Qed.

(** What a cleanup leaves is at most what it could not release, which is
    at most what was there. *)
Lemma forceMemoryCleanup_bytes st :
  registry_ok st = true →
  0 ≤ tracked_bytes (forceMemoryCleanup st) ≤ kept_bytes st ∧
  kept_bytes st ≤ tracked_bytes st.
Proof.
  intros (Hm & Hc & Hlt)%registry_ok_true.
  unfold tracked_bytes, kept_bytes, forceMemoryCleanup; simpl.
  pose proof (map_sum_nonneg _ _ Hm) as Hm0.
  pose proof (contexts_nonneg _ Hc) as Hc0.
  set (kept := filter _ (contexts st)).
  assert (Hk0 : map_Forall (λ _ c, 0 ≤ work_buffer_size (trim_context c)) kept).
  { intros k c [Hk _]%map_lookup_filter_Some. exact (Hc k c Hk). }
  rewrite map_sum_fmap.
  assert (0 ≤ map_sum (context_bytes ∘ trim_context) kept).
  { apply map_sum_nonneg. intros k c Hk. specialize (Hk0 k c Hk).
    pose proof (context_bytes_lower (trim_context c)). unfold compose. simpl in *. lia. }
  assert (map_sum (context_bytes ∘ trim_context) kept ≤ map_sum context_bytes kept).
  { apply map_sum_le. intros k c _. unfold compose. apply context_bytes_trim. }
  assert (map_sum context_bytes kept ≤ map_sum context_bytes (contexts st)).
  { apply map_sum_filter_le. exact Hc0. }
  lia.
Qed.

Lemma forceMemoryCleanup_usage st :
  registry_ok st = true →
  getTotalMemoryUsage (forceMemoryCleanup st) = tracked_bytes (forceMemoryCleanup st) ∧
  getTotalMemoryUsage st = tracked_bytes st.
Proof.
  intros Hok. pose proof (forceMemoryCleanup_bytes st Hok) as [[H0 H1] H2].
  apply registry_ok_true in Hok as (_ & _ & Hlt).
  rewrite !getTotalMemoryUsage_exact.
  split; apply wrap64_small; lia.
Qed.

Lemma forceMemoryCleanup_stays_healthy st :
  registry_ok st = true → checkMemoryHealth st = true →
  checkMemoryHealth (forceMemoryCleanup st) = true.
Proof.
  intros Hok [Hle Hint]%checkMemoryHealth_true.
  apply checkMemoryHealth_true. split; [|exact Hint].
  pose proof (forceMemoryCleanup_bytes st Hok) as [[H0 H1] H2].
  destruct (forceMemoryCleanup_usage st Hok) as [-> E]. lia.
Qed.

Lemma recoverFromMemoryError_healthy st :
  registry_ok st = true → checkMemoryHealth st = true →
  recoverFromMemoryError st = (true, forceMemoryCleanup st).
Proof.
  intros Hok Hh. unfold recoverFromMemoryError.
  rewrite (forceMemoryCleanup_stays_healthy st Hok Hh). reflexivity.
Qed.

Lemma recoverFromMemoryError_models st :
  models (recoverFromMemoryError st).2 ⊆ models st.
Proof.
  unfold recoverFromMemoryError.
  destruct (checkMemoryHealth (forceMemoryCleanup st)); simpl; [reflexivity|].
  apply map_filter_subseteq.
Qed.
End Governor.

Section GovernorClaims.
Context {F : Type}.
Implicit Types (st : @State F) (c : @RealInferenceContext F).

Lemma forceMemoryCleanup_contexts st id c :
  contexts (forceMemoryCleanup st) !! id = Some c →
  ∃ c0, contexts st !! id = Some c0 ∧ is_streaming c0 = true ∧ c = trim_context c0.
Proof.
  unfold forceMemoryCleanup; simpl. rewrite lookup_fmap.
  destruct (filter _ (contexts st) !! id) as [c0|] eqn:E; [|discriminate].
  apply map_lookup_filter_Some in E as [Hc Hs]. simpl in Hs.
  intros [= <-]. eauto.
Qed.

(** C1, as the code has it.  [forceCleanup] evicts every idle context and
    clears the cached buffers of the streaming ones; it never evicts a
    model.  So when the bytes of the models and of the streaming contexts
    fit under the 512 MB ceiling and no model is corrupted, memory is
    healthy after the call, whatever the usage was before it. *)
Theorem forceCleanup_restores_health st :
  registry_ok st = true →
  models_intact st = true →
  kept_bytes st ≤ MAX_MEMORY_LIMIT →
  isMemoryHealthy (forceCleanup st) = true ∧
  models (forceCleanup st) = models st ∧
  (∀ id c, contexts (forceCleanup st) !! id = Some c → is_streaming c = true) ∧
  getTotalMemoryUsage (forceCleanup st) ≤ getTotalMemoryUsage st.
Proof.
  intros Hok Hint Hkept. unfold isMemoryHealthy, forceCleanup.
  pose proof (forceMemoryCleanup_bytes st Hok) as [[H0 H1] H2].
  destruct (forceMemoryCleanup_usage st Hok) as [E1 E2].
  repeat split.
  - apply checkMemoryHealth_true. split; [rewrite E1; lia | exact Hint].
  - intros id c (c0 & _ & Hs & ->)%forceMemoryCleanup_contexts. exact Hs.
  - rewrite E1, E2. lia.
Qed.

(** Models are out of the reach of [forceCleanup]: while they alone
    exceed the ceiling, memory stays unhealthy. *)
Lemma forceCleanup_models_over st :
  registry_ok st = true →
  MAX_MEMORY_LIMIT < map_sum tensor_data_size (models st) →
  isMemoryHealthy (forceCleanup st) = false.
Proof.
  intros Hok Hover. unfold isMemoryHealthy, forceCleanup.
  pose proof (forceMemoryCleanup_bytes st Hok) as [[H0 H1] H2].
  destruct (forceMemoryCleanup_usage st Hok) as [E1 E2].
  destruct (checkMemoryHealth (forceMemoryCleanup st)) eqn:E; [|reflexivity].
  apply checkMemoryHealth_true in E as [Hle _]. rewrite E1 in Hle.
  apply registry_ok_true in Hok as (Hm & Hc & Hlt).
  unfold tracked_bytes in Hle. simpl in Hle. rewrite map_sum_fmap in Hle.
  assert (0 ≤ map_sum (context_bytes ∘ trim_context)
                (filter (λ kv, is_streaming kv.2 = true) (contexts st))).
  { apply map_sum_nonneg. intros k c [Hk _]%map_lookup_filter_Some.
    specialize (Hc k c Hk). simpl in Hc. unfold compose.
    pose proof (context_bytes_lower (trim_context c)). simpl in *. lia. }
  lia.
Qed.

(** C6.  [freeModel] on a handle whose model a live context points to is
    rejected: the call changes nothing, so the model is still registered
    and every context is still there, as it was. *)
Theorem freeModel_in_use_rejected st model_id context_id c :
  contexts st !! context_id = Some c →
  ctx_model c = model_id →
  freeModel model_id st = st ∧
  models (freeModel model_id st) !! model_id = models st !! model_id ∧
  contexts (freeModel model_id st) = contexts st.
Proof.
  intros Hc Hm.
  assert (E : freeModel model_id st = st).
  { unfold freeModel. destruct (models st !! model_id); [|reflexivity].
    assert (Huse : model_in_use model_id st = true).
    { apply bool_decide_eq_true. exists context_id, c. split; assumption. }
    rewrite Huse. reflexivity. }
  rewrite E. auto.
Qed.
End GovernorClaims.

(** ** Model loading *)

Section Loader.
Variable lib : GgmlLibrary.

(** Building the vocabulary touches the vocabulary only. *)
Lemma fold_left_proj {A B : Type} (p : RealTensorModel → B)
    (step : RealTensorModel → A → RealTensorModel) (l : list A) (m : RealTensorModel) :
  (∀ m a, p (step m a) = p m) → p (fold_left step l m) = p m.
Proof.
  intros Hstep. revert m. induction l as [|a l IH]; intros m; simpl; [reflexivity|].
  rewrite IH. apply Hstep.
Qed.

Lemma load_real_vocabulary_proj {B : Type} (p : RealTensorModel → B) tokens m :
  (∀ m i t, p (with_token m i t) = p m) → p (load_real_vocabulary tokens m) = p m.
Proof.
  intros Hp. unfold load_real_vocabulary. apply fold_left_proj.
  intros m' i. repeat case_match; apply Hp.
Qed.

Lemma load_basic_vocabulary_proj {B : Type} (p : RealTensorModel → B) m :
  (∀ m i t, p (with_token m i t) = p m) → p (load_basic_vocabulary m) = p m.
Proof.
  intros Hp. unfold load_basic_vocabulary.
  rewrite fold_left_proj by (intros; apply Hp).
  rewrite fold_left_proj by (intros; apply Hp). reflexivity.
Qed.

(** One directory entry: the pool keeps its size, and a tensor appears
    only with the element count of the entry. *)
Lemma loadTensorWithQuantization_inv m name ty size ok m' pool :
  loadTensorWithQuantization lib m name ty size = (ok, m') →
  ggml_ctx m = Some pool →
  (∃ pool', ggml_ctx m' = Some pool' ∧ mem_size pool' = mem_size pool) ∧
  tensor_data_size m' = tensor_data_size m ∧ tensor_data m' = tensor_data m ∧
  n_vocab m' = n_vocab m ∧ loaded m' = loaded m ∧
  (∀ n t, tensors m' !! n = Some t →
          tensors m !! n = Some t ∨ (n = name ∧ ne t = element_count ty size)) ∧
  (tensors m' ≠ tensors m → ggml_new_tensor_1d lib pool (element_count ty size) = true).
Proof.
  unfold loadTensorWithQuantization. simpl. intros E Hpool. rewrite Hpool in E.
  destruct (ggml_new_tensor_1d lib pool (element_count ty size)) eqn:Ealloc;
    injection E as <- <-; simpl.
  - split_and!; try reflexivity.
    + eexists; split; reflexivity.
    + intros n t. destruct (decide (name = n)) as [->|Hne].
      * rewrite lookup_insert_eq. intros [= <-]. right; auto.
      * rewrite lookup_insert_ne by assumption. auto.
  - split_and!; try congruence; eauto.
Qed.

Lemma load_key_tensors_inv infos k m k' m' pool :
  load_key_tensors lib infos k m = (k', m') →
  ggml_ctx m = Some pool →
  (∃ pool', ggml_ctx m' = Some pool' ∧ mem_size pool' = mem_size pool) ∧
  tensor_data_size m' = tensor_data_size m ∧ tensor_data m' = tensor_data m ∧
  n_vocab m' = n_vocab m ∧ loaded m' = loaded m ∧
  (∀ n t, tensors m' !! n = Some t →
          tensors m !! n = Some t ∨
          ∃ info, info ∈ infos ∧ ti_name info = n ∧
                  ne t = element_count (ti_type info) (gguf_get_tensor_size info)) ∧
  (pool_sound lib → tensors m' ≠ tensors m → 0 < mem_size pool).
Proof.
  revert k m pool. induction infos as [|info rest IH]; intros k m pool; simpl.
  - intros [= <- <-] Hpool. split_and!; try congruence; eauto.
  - destruct (max_tensors_to_load <=? k).
    { intros [= <- <-] Hpool. split_and!; try congruence; eauto. }
    destruct (is_essential_tensor (ti_name info)).
    + destruct (loadTensorWithQuantization lib m (ti_name info) (ti_type info)
                  (gguf_get_tensor_size info)) as [ok m1] eqn:E1.
      intros E Hpool.
      destruct (loadTensorWithQuantization_inv _ _ _ _ _ _ _ E1 Hpool)
        as ((pool1 & Hp1 & Hs1) & Hd1 & Hb1 & Hv1 & Hl1 & Ht1 & Ha1).
      destruct ok.
      * destruct (IH _ _ _ E Hp1) as ((pool2 & Hp2 & Hs2) & Hd2 & Hb2 & Hv2 & Hl2 & Ht2 & Ha2).
        split_and!; try congruence.
        -- exists pool2. split; [assumption | congruence].
        -- intros n t Hn. destruct (Ht2 n t Hn) as [Hn1|(i & Hi & Hin & Hne)].
           ++ destruct (Ht1 n t Hn1) as [?|[-> Hne]]; [auto|].
              right. exists info. split; [apply list_elem_of_here | done].
           ++ right. exists i. split; [apply list_elem_of_further; assumption | done].
        -- intros Hsound Hdiff.
           destruct (decide (tensors m1 = tensors m)) as [Heq|Hneq].
           ++ rewrite <- Hs1. apply Ha2; [assumption | congruence].
           ++ exact (Hsound _ _ (Ha1 Hneq)).
      * injection E as <- <-.
        split_and!; try congruence.
        -- exists pool1. auto.
        -- intros n t Hn. destruct (Ht1 n t Hn) as [?|[-> Hne]]; [auto|].
           right. exists info. split; [apply list_elem_of_here | done].
        -- intros Hsound Hdiff. exact (Hsound _ _ (Ha1 Hdiff)).
    + intros E Hpool.
      destruct (IH _ _ _ E Hpool) as (Hp & Hd & Hb & Hv & Hl & Ht & Ha).
      split_and!; try assumption.
      intros n t Hn. destruct (Ht n t Hn) as [?|(i & Hi & Hin & Hne)]; [auto|].
      right. exists i. split; [apply list_elem_of_further; assumption | done].
Qed.

Lemma create_demo_tensor_inv name count m pool :
  ggml_ctx m = Some pool →
  let m' := create_demo_tensor lib name count m in
  (∃ pool', ggml_ctx m' = Some pool' ∧ mem_size pool' = mem_size pool) ∧
  tensor_data_size m' = tensor_data_size m ∧ tensor_data m' = tensor_data m ∧
  n_vocab m' = n_vocab m ∧ loaded m' = loaded m ∧
  (∀ n t, tensors m' !! n = Some t →
          tensors m !! n = Some t ∨ (n = name ∧ ne t = count)) ∧
  (pool_sound lib → tensors m' ≠ tensors m → 0 < mem_size pool).
Proof.
  intros Hpool. unfold create_demo_tensor. rewrite Hpool.
  destruct (ggml_new_tensor_1d lib pool count) eqn:Ealloc; simpl.
  - split_and!; try reflexivity.
    + eexists; split; reflexivity.
    + intros n t. destruct (decide (name = n)) as [->|Hne].
      * rewrite lookup_insert_eq. intros [= <-]. right; auto.
      * rewrite lookup_insert_ne by assumption. auto.
    + intros Hsound _. exact (Hsound _ _ Ealloc).
  - split_and!; try congruence; eauto.
Qed.
End Loader.

Section LoadModel.
Variables lib lib_retry : GgmlLibrary.

Lemma arena_size_range g : 0 ≤ arena_size g ≤ max_tensor_size.
Proof.
  unfold arena_size.
  set (total := fold_left _ (gguf_infos g) 0).
  assert (Htotal : 0 ≤ total).
  { unfold total.
    assert (Hfold : ∀ l a, 0 ≤ a →
              0 ≤ fold_left (λ total info, size_add total (gguf_get_tensor_size info)) l a).
    { induction l as [|info l IH]; intros a Ha; simpl; [exact Ha|].
      apply IH. apply wrap64_range. }
    apply Hfold. lia. }
  destruct (max_tensor_size <? total) eqn:E; [unfold max_tensor_size; lia|].
  apply Z.ltb_ge in E. lia.
Qed.

Lemma load_vocabulary_proj {B : Type} (p : RealTensorModel → B) g m :
  (∀ m i t, p (with_token m i t) = p m) → p (load_vocabulary g m) = p m.
Proof.
  intros Hp. unfold load_vocabulary. destruct (gguf_tokens g).
  - apply load_real_vocabulary_proj, Hp.
  - apply load_basic_vocabulary_proj, Hp.
Qed.

(** What a successful [loadRealTensorModel] establishes. *)
Lemma loadRealTensorModel_inv l file m0 m :
  loadRealTensorModel l file m0 = Some m →
  ∃ g, file = Some g ∧ loaded m = true ∧
       n_vocab m = gguf_u32_or g "llama.vocab_size" 32000 ∧
       tensor_data m = true ∧ is_Some (ggml_ctx m) ∧
       0 ≤ tensor_data_size m ≤ max_tensor_size ∧
       (∀ n t, tensors m !! n = Some t →
               tensors m0 !! n = Some t ∨ from_directory g n t ∨ demo_tensor n t) ∧
       (pool_sound l → tensors m ≠ tensors m0 → 0 < tensor_data_size m).
Proof.
  unfold loadRealTensorModel. destruct file as [g|]; [|discriminate].
  set (mv := load_vocabulary g (read_hyperparameters g m0)).
  assert (Hmv_t : tensors mv = tensors m0) by (unfold mv; rewrite load_vocabulary_proj; done).
  assert (Hmv_v : n_vocab mv = gguf_u32_or g "llama.vocab_size" 32000)
    by (unfold mv; rewrite load_vocabulary_proj; done).
  destruct (ggml_init l (arena_size g)); [|discriminate].
  destruct (load_key_tensors l (gguf_infos g) 0 (with_arena mv (arena_size g)))
    as [k m1] eqn:E1.
  destruct (load_key_tensors_inv l _ _ _ _ _ _ E1 eq_refl)
    as ((pool1 & Hp1 & Hs1) & Hd1 & Hb1 & Hv1 & Hl1 & Ht1 & Ha1).
  simpl in Hs1, Hd1, Hb1, Hv1, Ht1, Ha1.
  pose proof (arena_size_range g) as Hrange.
  intros [= <-]. exists g. split; [reflexivity|].
  destruct (k =? 0).
  - destruct (create_demo_tensor_inv l "token_embd.weight" 64 m1 pool1 Hp1)
      as ((pool2 & Hp2 & Hs2) & Hd2 & Hb2 & Hv2 & Hl2 & Ht2 & Ha2).
    destruct (create_demo_tensor_inv l "output.weight" 32 _ pool2 Hp2)
      as ((pool3 & Hp3 & Hs3) & Hd3 & Hb3 & Hv3 & Hl3 & Ht3 & Ha3).
    simpl. split_and!; try congruence.
    + rewrite Hp3. eauto.
    + lia.
    + lia.
    + intros n t Hn. destruct (Ht3 n t Hn) as [Hn2|Hdemo].
      * destruct (Ht2 n t Hn2) as [Hn1|Hdemo].
        -- destruct (Ht1 n t Hn1) as [?|Hdir]; [left; congruence | right; left; exact Hdir].
        -- right; right; left; exact Hdemo.
      * right; right; right; exact Hdemo.
    + intros Hsound Hdiff. rewrite Hd3, Hd2, Hd1.
      destruct (decide (tensors m1 = tensors (with_arena mv (arena_size g)))) as [Heq1|Hne1].
      * destruct (decide (tensors (create_demo_tensor l "token_embd.weight" 64 m1)
                          = tensors m1)) as [Heq2|Hne2].
        -- specialize (Ha3 Hsound). rewrite Hs2, Hs1 in Ha3. apply Ha3.
           simpl in Heq1. congruence.
        -- specialize (Ha2 Hsound Hne2). rewrite Hs1 in Ha2. exact Ha2.
      * exact (Ha1 Hsound Hne1).
  - simpl. split_and!; try congruence.
    + rewrite Hp1. eauto.
    + lia.
    + lia.
    + intros n t Hn. destruct (Ht1 n t Hn) as [?|Hdir];
        [left; congruence | right; left; exact Hdir].
    + intros Hsound Hdiff. rewrite Hd1. apply Ha1; [exact Hsound|]. simpl. congruence.
Qed.
End LoadModel.

Section LoadModelClaims.
Context {F : Type}.
Implicit Types (st : @State F).
Variables lib lib_retry : GgmlLibrary.
Variable file : ModelFile.
Variable model_path : string.

Lemma commit_model_inv st m h st' :
  commit_model st m = (h, st') → h ≠ 0 →
  loaded m = true ∧ tensors m ≠ ∅ ∧ h = next_id st ∧
  st' = {| models := <[h := m]> (models st); contexts := contexts st;
           next_id := next_id st + 1 |}.
Proof.
  unfold commit_model.
  destruct (loaded m); simpl; [|intros [= <- _] ?; congruence].
  case_bool_decide as Ht; simpl; [intros [= <- _] ?; congruence|].
  intros [= <- <-] _. auto.
Qed.

(** A successful [loadModel] commits the result of one of its two load
    attempts to the registries a recovery may have pruned before. *)
Lemma loadModel_success_inv st h st' :
  loadModel lib lib_retry file model_path st = (h, st') → h ≠ 0 →
  ∃ st1 l m0 m,
    loadRealTensorModel l (file_gguf file) m0 = Some m ∧ tensors m0 = ∅ ∧
    commit_model st1 m = (h, st') ∧
    (checkMemoryHealth st = true →
     is_Some (loadRealTensorModel lib (file_gguf file)
                (model_for model_path (wrap64 (file_tellg file)))) →
     st1 = st ∧ l = lib).
Proof.
  unfold loadModel.
  destruct (if checkMemoryHealth st then (true, st) else recoverFromMemoryError st)
    as [healthy st0] eqn:E0.
  destruct healthy; simpl; [|intros [= <- _] ?; congruence].
  destruct (file_is_open file); simpl; [|intros [= <- _] ?; congruence].
  destruct (file_seek_fails file); simpl; [intros [= <- _] ?; congruence|].
  destruct (wrap64 (file_tellg file) <=? 0); [intros [= <- _] ?; congruence|].
  destruct (MAX_MODEL_SIZE <? wrap64 (file_tellg file)); [intros [= <- _] ?; congruence|].
  destruct (loadRealTensorModel lib _ _) as [m|] eqn:E1.
  - intros Hc Hh. eexists st0, lib, _, m. split_and!; [exact E1 | reflexivity | exact Hc |].
    intros Hhealthy _. rewrite Hhealthy in E0. injection E0 as <-. auto.
  - destruct (recoverFromMemoryError st0) as [recovered st2].
    destruct recovered; [|intros [= <- _] ?; congruence].
    destruct (loadRealTensorModel lib_retry _ _) as [m|] eqn:E2;
      [|intros [= <- _] ?; congruence].
    intros Hc Hh. eexists st2, lib_retry, _, m.
    split_and!; [exact E2 | reflexivity | exact Hc |].
    intros _ [? ?]. discriminate.
Qed.

(** C3, as the code has it.  A model for which [loadModel] returned a
    nonzero handle has the vocabulary size the container declares under
    [llama.vocab_size] (32000 when the key is absent), an unsigned 32-bit
    value that is zero when the container says so; and each of its tensor
    buffers is either decoded from a directory entry, with the capped
    element count of that entry's kind ([element_count]), or one of the
    two demo tensors of 64 and 32 elements. *)
Theorem loadModel_model_shape st h st' :
  loadModel lib lib_retry file model_path st = (h, st') → h ≠ 0 →
  ∃ g model,
    file_gguf file = Some g ∧ models st' !! h = Some model ∧
    n_vocab model = gguf_u32_or g "llama.vocab_size" 32000 ∧
    0 ≤ n_vocab model < 2 ^ 32 ∧
    (gguf_kv_u32 g !! "llama.vocab_size" = None → n_vocab model = 32000) ∧
    ∀ name t, tensors model !! name = Some t →
              from_directory g name t ∨ demo_tensor name t.
Proof.
  intros E Hh.
  destruct (loadModel_success_inv st h st' E Hh) as (st1 & l & m0 & m & El & Hm0 & Hc & _).
  destruct (commit_model_inv _ _ _ _ Hc Hh) as (_ & _ & -> & ->).
  destruct (loadRealTensorModel_inv l _ _ _ El)
    as (g & Hg & _ & Hv & _ & _ & _ & Ht & _).
  exists g, m.
  split; [exact Hg|]. split; [simpl; apply lookup_insert_eq|]. split; [exact Hv|].
  split; [|split].
  - rewrite Hv. unfold gguf_u32_or, to_u32.
    destruct (gguf_kv_u32 g !! _); [apply Z.mod_pos_bound|]; lia.
  - intros Hnone. rewrite Hv. unfold gguf_u32_or. rewrite Hnone. reflexivity.
  - intros name t Hn. destruct (Ht name t Hn) as [H0|H1]; [|exact H1].
    rewrite Hm0, lookup_empty in H0. discriminate.
Qed.

Lemma LlamaCppPlugin_getMemoryUsage_small st :
  getTotalMemoryUsage st < 2 ^ 63 →
  LlamaCppPlugin_getMemoryUsage st = getTotalMemoryUsage st.
Proof.
  intros Hlt. pose proof (getTotalMemoryUsage_range st).
  unfold LlamaCppPlugin_getMemoryUsage, to_jlong. rewrite Z.mod_small; lia.
Qed.



Lemma loadRealTensorModel_none l m0 : loadRealTensorModel l None m0 = None.
Proof. reflexivity. Qed.

(** C2, as the code has it.  A call to [loadModel] with a path that
    cannot be opened, or with a file that does not parse as a container,
    returns the failure handle 0 and commits nothing: the model registry
    after the call is contained in the registry before it, and it is
    exactly the same registry whenever memory was healthy when the call
    was made.  (On unhealthy memory the recovery that opens the call may
    evict models.) *)
Theorem loadModel_bad_file st :
  file_is_open file = false ∨ file_gguf file = None →
  (loadModel lib lib_retry file model_path st).1 = 0 ∧
  models (loadModel lib lib_retry file model_path st).2 ⊆ models st ∧
  (checkMemoryHealth st = true → registry_ok st = true →
   models (loadModel lib lib_retry file model_path st).2 = models st).
Proof.
  intros Hbad. unfold loadModel.
  destruct (checkMemoryHealth st) eqn:Hh.
  - (* healthy: no recovery before the load *)
    destruct (file_is_open file) eqn:Hopen; simpl; [|split_and!; done].
    destruct Hbad as [Hbad|Hbad]; [discriminate|]. rewrite Hbad.
    destruct (file_seek_fails file); simpl; [split_and!; done|].
    destruct (wrap64 (file_tellg file) <=? 0); [split_and!; done|].
    destruct (MAX_MODEL_SIZE <? wrap64 (file_tellg file)); [split_and!; done|].
    rewrite ?loadRealTensorModel_none.
    pose proof (recoverFromMemoryError_models st) as Hsub.
    destruct (recoverFromMemoryError st) as [recovered st2] eqn:Er.
    assert (Hst2 : checkMemoryHealth st = true → registry_ok st = true →
                   models st2 = models st).
    { intros _ Hok. rewrite (recoverFromMemoryError_healthy st Hok Hh) in Er.
      injection Er as _ <-. reflexivity. }
    destruct recovered; simpl in *;
      (split_and!; [reflexivity | exact Hsub | intros _; apply Hst2; exact Hh]).
  - (* unhealthy: the call starts with a recovery *)
    pose proof (recoverFromMemoryError_models st) as Hsub.
    destruct (recoverFromMemoryError st) as [healthy st0] eqn:Er. simpl in Hsub.
    destruct healthy; simpl; [|split_and!; [done | exact Hsub | discriminate]].
    destruct (file_is_open file) eqn:Hopen; simpl;
      [|split_and!; [done | exact Hsub | discriminate]].
    destruct Hbad as [Hbad|Hbad]; [discriminate|]. rewrite Hbad.
    destruct (file_seek_fails file); simpl;
      [split_and!; [done | exact Hsub | discriminate]|].
    destruct (wrap64 (file_tellg file) <=? 0);
      [split_and!; [done | exact Hsub | discriminate]|].
    destruct (MAX_MODEL_SIZE <? wrap64 (file_tellg file));
      [split_and!; [done | exact Hsub | discriminate]|].
    rewrite ?loadRealTensorModel_none.
    pose proof (recoverFromMemoryError_models st0) as Hsub2.
    destruct (recoverFromMemoryError st0) as [recovered st2] eqn:Er2.
    destruct recovered; simpl in *;
      (split_and!; [reflexivity | etrans; eassumption | discriminate]).
Qed.
End LoadModelClaims.

(** ** Forward pass and streaming generation *)

Section Streaming.
Context {F : Type} `{FloatOps F}.
Variable rand_stream : nat → Z.
Implicit Types (st : @State F) (ctx : @RealInferenceContext F).

Lemma for_range_length n : 0 ≤ n → Z.of_nat (length (for_range n)) = n.
Proof. intros Hn. unfold for_range. rewrite length_fmap, length_seq. lia. Qed.

(** An execution of the forward pass that throws returns no vector: the
    two predicates exclude each other. *)
Lemma forwardPass_throws_undefined tokens model :
  forwardPass_throws tokens model = true → forwardPass_defined tokens model = false.
Proof.
  unfold forwardPass_throws, forwardPass_defined. intros Ht.
  apply andb_true_iff in Ht as [_ Ht]. apply orb_true_iff in Ht as [Ht|Ht].
  - apply andb_true_iff in Ht as [_ Hneg%Z.ltb_lt].
    destruct (0 <=? to_int (n_embd model)) eqn:E.
    + apply Z.leb_le in E. nia.
    + rewrite andb_false_r. reflexivity.
  - repeat (apply andb_true_iff in Ht as [Ht ?]).
    match goal with Hv : (n_vocab model <? 0) = true |- _ => apply Z.ltb_lt in Hv end.
    destruct (0 <=? n_vocab model) eqn:E; [apply Z.leb_le in E; lia|].
    rewrite andb_false_r. reflexivity.
Qed.

Lemma forwardPass_throws_none tokens model r :
  forwardPass_throws tokens model = true → forwardPass rand_stream tokens model r = None.
Proof.
  intros Ht. unfold forwardPass. rewrite (forwardPass_throws_undefined _ _ Ht). reflexivity.
Qed.

Lemma forwardPass_inv tokens model r logits r' :
  forwardPass rand_stream tokens model r = Some (logits, r') →
  forwardPass_defined tokens model = true ∧
  Z.of_nat (length logits) = n_vocab model ∧
  r' = (r + Z.to_nat (n_vocab model))%nat.
Proof.
  unfold forwardPass. destruct (forwardPass_defined tokens model) eqn:Hd; [|discriminate].
  intros [= <- <-]. split_and!; [reflexivity | | reflexivity].
  rewrite length_fmap. apply for_range_length.
  unfold forwardPass_defined in Hd.
  repeat (apply andb_true_iff in Hd as [Hd ?]). lia.
Qed.

(** The roulette loop runs off the end when the draw is above the
    cumulative mass reached after each candidate. *)
Lemma roulette_none random_val cumulative candidates :
  (∀ a b c : F, f_leb a b = true → f_leb b c = true → f_leb a c = true) →
  mass_nondecreasing cumulative candidates = true →
  f_leb random_val (total_mass cumulative candidates) = false →
  candidates ≠ [] →
  roulette random_val cumulative candidates = None.
Proof.
  intros Htrans. revert cumulative. unfold total_mass.
  assert (Hchain : ∀ cands c,
            cands ≠ [] → mass_nondecreasing c cands = true →
            f_leb c (fold_left (λ c pi, f_add c pi.1) cands c) = true).
  { induction cands as [|[p i] rest IH]; intros c Hne Hmono; [congruence|].
    simpl in *. apply andb_true_iff in Hmono as [H1 H2].
    destruct rest as [|q rest']; [exact H1|].
    eapply Htrans; [exact H1|]. apply IH; [discriminate | exact H2]. }
  induction candidates as [|[p i] rest IH]; intros c Hmono Hover Hne; [congruence|].
  simpl in *. apply andb_true_iff in Hmono as [H1 H2].
  destruct (f_leb random_val (f_add c p)) eqn:Ehit.
  - exfalso. destruct rest as [|q rest'].
    + simpl in Hover. congruence.
    + assert (f_leb random_val (fold_left (λ c pi, f_add c pi.1) (q :: rest') (f_add c p))
              = true) as Habs.
      { eapply Htrans; [exact Ehit|]. apply Hchain; [discriminate | exact H2]. }
      rewrite Hover in Habs. discriminate.
  - destruct rest as [|q rest']; [reflexivity|].
    apply IH; [exact H2 | exact Hover | discriminate].
Qed.

(** C10.  In the top-K roulette sampling of [nextToken]: when the forward
    pass has returned a non-empty logits vector and the uniform draw
    exceeds the cumulative probability mass of the top-K candidates (the
    comparison of floats being transitive and no candidate having a
    negative mass), [best_token] keeps its initial value 0, the pad id.
    The call returns the text of id 0, with no second draw and no error,
    and id 0 is appended to the running context and to the generated
    list; the counter grows by one and the context keeps streaming. *)
Theorem nextToken_draw_above_mass ctx model r logits r1 :
  is_streaming ctx = true →
  tokens_generated ctx < max_tokens_to_generate ctx →
  forwardPass rand_stream (full_context_tokens ctx) model r = Some (logits, r1) →
  logits ≠ [] →
  (∀ a b c : F, f_leb a b = true → f_leb b c = true → f_leb a c = true) →
  mass_nondecreasing f_zero (top_candidates (softmax_probs logits)) = true →
  f_leb (random_draw rand_stream r1)
        (total_mass f_zero (top_candidates (softmax_probs logits))) = false →
  ∃ ctx',
    generateNextStreamingToken rand_stream ctx (Some model) r
      = Some (token_text model TOKEN_PAD, ctx', S r1) ∧
    full_context_tokens ctx' = full_context_tokens ctx ++ [TOKEN_PAD] ∧
    generated_tokens ctx' = generated_tokens ctx ++ [TOKEN_PAD] ∧
    tokens_generated ctx' = tokens_generated ctx + 1 ∧
    is_streaming ctx' = true.
Proof.
  intros Hs Hlt Hfp Hne Htrans Hmono Hover.
  exists (append_token ctx TOKEN_PAD).
  split; [|simpl; rewrite Hs; auto].
  unfold generateNextStreamingToken. rewrite Hs, Hfp. simpl.
  destruct (max_tokens_to_generate ctx <=? tokens_generated ctx) eqn:E;
    [apply Z.leb_le in E; lia|].
  unfold sample_token. destruct logits as [|l0 logits']; [congruence|].
  rewrite roulette_none; [reflexivity | exact Htrans | exact Hmono | exact Hover |].
  unfold top_candidates, softmax_probs.
  intros Hnil. apply (f_equal length) in Hnil. revert Hnil.
  rewrite length_take. unfold sort_desc.
  assert (Hlen : ∀ l : list (F * Z), length (foldr insert_desc [] l) = length l).
  { assert (Hins : ∀ x (l : list (F * Z)), length (insert_desc x l) = S (length l)).
    { intros x l. induction l as [|y l IH]; simpl; [reflexivity|].
      destruct (pair_gtb x y); simpl; [reflexivity | rewrite IH; reflexivity]. }
    induction l as [|x l IH]; simpl; [reflexivity | rewrite Hins, IH; reflexivity]. }
  rewrite Hlen, length_imap, !length_fmap. simpl. lia.
Qed.

Lemma getNextStreamingToken_models context_id st r token st' r' :
  getNextStreamingToken rand_stream context_id st r = Some (token, st', r') →
  models st' = models st.
Proof.
  unfold getNextStreamingToken.
  destruct (contexts st !! context_id) as [ctx|]; [|intros [= _ <- _]; reflexivity].
  destruct (negb (initialized ctx)); [intros [= _ <- _]; reflexivity|].
  destruct (negb (is_streaming ctx)); [intros [= _ <- _]; reflexivity|].
  destruct (generateNextStreamingToken _ _ _ _) as [[[tk ctx'] r1]|].
  - intros [= _ <- _]. reflexivity.
  - destruct (generateNextStreamingToken_throws _ _); [|discriminate].
    intros [= _ <- _]. reflexivity.
Qed.

(** C9, as the code has it.  On every token sequence and every model for
    which the forward pass is defined (sizes and counters within [int],
    and a head count that is not zero when there is a layer to run), the
    forward pass returns, and the logits vector it returns has exactly
    [n_vocab] entries; it consumes one [rand ()] per entry and nothing
    else.  It does not mutate the model: a [nextToken] call, which runs
    it, leaves every entry of the model registry (tensors, vocabulary
    maps, hyperparameters) as it was. *)
Theorem forwardPass_logits tokens model r :
  forwardPass_defined tokens model = true →
  (∃ logits,
     forwardPass rand_stream tokens model r
       = Some (logits, (r + Z.to_nat (n_vocab model))%nat) ∧
     Z.of_nat (length logits) = n_vocab model) ∧
  (∀ context_id st r0 token st' r',
     getNextStreamingToken rand_stream context_id st r0 = Some (token, st', r') →
     models st' = models st).
Proof.
  intros Hd. split.
  - destruct (forwardPass rand_stream tokens model r) as [[logits r']|] eqn:E.
    + destruct (forwardPass_inv _ _ _ _ _ E) as (_ & Hlen & ->). eauto.
    + unfold forwardPass in E. rewrite Hd in E. discriminate.
  - intros. eapply getNextStreamingToken_models; eassumption.
Qed.

(** *** The streaming state machine *)

Lemma startStreaming_invariant context_id input max_tokens st st1 :
  startStreaming context_id input max_tokens st = Some (true, st1) →
  0 < max_tokens ≤ 2048 ∧
  ∃ ctx, contexts st1 !! context_id = Some ctx ∧ streaming_invariant max_tokens ctx ∧
         is_streaming ctx = true ∧ tokens_generated ctx = 0.
Proof.
  unfold startStreaming.
  destruct (contexts st !! context_id) as [ctx0|] eqn:E0; [|discriminate].
  destruct (initialized ctx0) eqn:Einit; simpl; [|discriminate].
  destruct (is_streaming ctx0) eqn:Eidle; [discriminate|].
  assert (Hstart : ∀ st0,
    contexts st0 !! context_id = Some ctx0 →
    (if (max_tokens <=? 0) || (2048 <? max_tokens) then Some (false, st0)
     else
       let input_len := Z.of_nat (String.length input) in
       if (input_len =? 0) || (8192 <? input_len) then Some (false, st0)
       else
         match contexts st0 !! context_id with
         | None => None
         | Some ctx =>
             match models st0 !! ctx_model ctx with
             | None => None
             | Some model =>
                 let '(success, ctx) :=
                   startStreamingInference ctx model input max_tokens in
                 Some (success, with_context st0 context_id ctx)
             end
         end) = Some (true, st1) →
    0 < max_tokens ≤ 2048 ∧
    ∃ ctx, contexts st1 !! context_id = Some ctx ∧ streaming_invariant max_tokens ctx ∧
           is_streaming ctx = true ∧ tokens_generated ctx = 0).
  { intros st0 Hc0.
    destruct ((max_tokens <=? 0) || (2048 <? max_tokens)) eqn:Emax; [discriminate|].
    apply orb_false_iff in Emax as [?%Z.leb_gt ?%Z.ltb_ge]. simpl.
    destruct ((_ =? 0) || _); [discriminate|]. rewrite Hc0.
    destruct (models st0 !! ctx_model ctx0); [|discriminate].
    unfold startStreamingInference. intros [= <-]. split; [lia|].
    eexists. split; [simpl; apply lookup_insert_eq|].
    unfold streaming_invariant; simpl. split_and!; try done; lia. }
  destruct (checkMemoryHealth st) eqn:Hh; simpl.
  - apply Hstart, E0.
  - (* a recovery deletes the idle context: the call cannot succeed *)
    unfold recoverFromMemoryError.
    assert (Hgone : contexts (forceMemoryCleanup st) !! context_id = None).
    { unfold forceMemoryCleanup; simpl. rewrite lookup_fmap.
      destruct (filter _ (contexts st) !! context_id) as [c|] eqn:Ef; [|reflexivity].
      apply map_lookup_filter_Some in Ef as [Hc Hs]. simpl in Hs. congruence. }
    remember (forceMemoryCleanup st) as stc eqn:Estc. clear Estc.
    destruct (checkMemoryHealth stc); simpl.
    + rewrite Hgone. repeat case_match; discriminate.
    + rewrite lookup_empty. repeat case_match; discriminate.
Qed.

Lemma append_token_invariant max_tokens ctx best_token :
  streaming_invariant max_tokens ctx →
  tokens_generated ctx < max_tokens_to_generate ctx →
  streaming_invariant max_tokens (append_token ctx best_token).
Proof.
  intros (Hi & Hm & Hr & Hl & He) Hlt. unfold streaming_invariant; simpl.
  split_and!; try done; try lia.
  - rewrite length_app; simpl. lia.
  - rewrite last_snoc. intros [= ->]. reflexivity.
Qed.

Lemma stop_on_error_invariant max_tokens ctx :
  streaming_invariant max_tokens ctx → streaming_invariant max_tokens (stop_on_error ctx).
Proof.
  intros (Hi & Hm & Hr & Hl & He). unfold streaming_invariant; simpl.
  split_and!; try done; lia.
Qed.

Lemma generateNextStreamingToken_inv ctx model r token ctx' r' :
  generateNextStreamingToken rand_stream ctx model r = Some (token, ctx', r') →
  (ctx' = ctx ∧ token = EmptyString ∧ r' = r ∧
   (is_streaming ctx = false ∨ max_tokens_to_generate ctx ≤ tokens_generated ctx)) ∨
  (∃ best_token, ctx' = append_token ctx best_token ∧
                 is_streaming ctx = true ∧
                 tokens_generated ctx < max_tokens_to_generate ctx).
Proof.
  unfold generateNextStreamingToken.
  destruct (is_streaming ctx) eqn:Es; simpl.
  - destruct (max_tokens_to_generate ctx <=? tokens_generated ctx) eqn:Em.
    + intros [= <- <- <-]. left. apply Z.leb_le in Em. auto.
    + apply Z.leb_gt in Em. destruct model as [model|]; [|discriminate].
      destruct (forwardPass _ _ _ _) as [[logits r1]|]; [|discriminate].
      destruct (sample_token _ _ _ _) as [[best r2]|]; [|discriminate].
      intros [= <- <- <-]. right. eauto.
  - intros [= <- <- <-]. left. auto.
Qed.

Lemma nextToken_step_invariant context_id max_tokens s s' ctx :
  nextToken_step rand_stream context_id s s' →
  contexts s.1 !! context_id = Some ctx → streaming_invariant max_tokens ctx →
  ∃ ctx', contexts s'.1 !! context_id = Some ctx' ∧ streaming_invariant max_tokens ctx'.
Proof.
  intros [token Hstep] Hctx Hinv. unfold getNextStreamingToken in Hstep.
  rewrite Hctx in Hstep.
  destruct (negb (initialized ctx)); [injection Hstep as _ <- _; eauto|].
  destruct (negb (is_streaming ctx)); [injection Hstep as _ <- _; eauto|].
  destruct (generateNextStreamingToken _ _ _ _) as [[[tk ctx'] r1]|] eqn:Eg.
  - injection Hstep as _ <- _. exists ctx'. split; [simpl; apply lookup_insert_eq|].
    destruct (generateNextStreamingToken_inv _ _ _ _ _ _ Eg)
      as [(-> & _)|(best & -> & _ & Hlt)]; [exact Hinv|].
    apply append_token_invariant; assumption.
  - (* the generation throws and the handlers stop the streaming *)
    destruct (generateNextStreamingToken_throws _ _); [|discriminate].
    injection Hstep as _ <- _. exists (stop_on_error ctx).
    split; [simpl; apply lookup_insert_eq|]. apply stop_on_error_invariant, Hinv.
Qed.

Lemma nextToken_calls_invariant context_id max_tokens s s' :
  rtc (nextToken_step rand_stream context_id) s s' →
  ∀ ctx, contexts s.1 !! context_id = Some ctx → streaming_invariant max_tokens ctx →
  ∃ ctx', contexts s'.1 !! context_id = Some ctx' ∧ streaming_invariant max_tokens ctx'.
Proof.
  induction 1 as [s|s s2 s3 Hstep Hrest IH]; intros ctx Hc Hinv; [eauto|].
  destruct (nextToken_step_invariant _ _ _ _ _ Hstep Hc Hinv) as (ctx2 & Hc2 & Hinv2).
  exact (IH ctx2 Hc2 Hinv2).
Qed.

(** A call whose generation throws: the handlers answer.  The call
    returns the empty string and the context stops streaming; nothing else
    changes, no token is counted and [rand ()] is not consumed. *)
Lemma getNextStreamingToken_caught context_id st r ctx :
  contexts st !! context_id = Some ctx → initialized ctx = true →
  generateNextStreamingToken_throws ctx (models st !! ctx_model ctx) = true →
  getNextStreamingToken rand_stream context_id st r
    = Some (EmptyString, with_context st context_id (stop_on_error ctx), r).
Proof.
  intros Hc Hi Ht. unfold getNextStreamingToken. rewrite Hc, Hi, Ht. simpl.
  unfold generateNextStreamingToken_throws in Ht.
  apply andb_true_iff in Ht as [Hguard Ht]. apply negb_true_iff in Hguard.
  unfold generateNextStreamingToken. rewrite Hguard.
  apply orb_false_iff in Hguard as [Hs _]. rewrite Hs.
  destruct (models st !! ctx_model ctx) as [model|]; [|discriminate].
  rewrite (forwardPass_throws_none _ _ _ Ht). reflexivity.
Qed.

(** C4.  After a successful [startStreaming (text, max_tokens)] on a
    context, whatever the sequence of [nextToken] calls that follows,
    those that return a token and those in which the generation throws
    and the handlers of the entry point answer: the number of generated
    tokens (the counter, which is the length of the generated list) never
    exceeds [max_tokens]; [nextToken] returns the empty string and leaves
    the state unchanged whenever the context is not streaming or the
    counter has reached [max_tokens]; [isStreamingComplete] is true once
    the counter equals [max_tokens] or the end-of-sequence id 3 was the
    token sampled last; and a call in which the generation throws returns
    the empty string and stops the streaming without counting a token. *)
Theorem streaming_bounded context_id input max_tokens st0 st1 r1 st r :
  startStreaming context_id input max_tokens st0 = Some (true, st1) →
  rtc (nextToken_step rand_stream context_id) (st1, r1) (st, r) →
  ∃ ctx,
    contexts st !! context_id = Some ctx ∧
    0 ≤ tokens_generated ctx ≤ max_tokens ∧
    Z.of_nat (length (generated_tokens ctx)) = tokens_generated ctx ∧
    (is_streaming ctx = false ∨ max_tokens ≤ tokens_generated ctx →
     getNextStreamingToken rand_stream context_id st r = Some (EmptyString, st, r)) ∧
    (tokens_generated ctx = max_tokens ∨ last (generated_tokens ctx) = Some TOKEN_EOS →
     LlamaCppPlugin_isStreamingComplete context_id st = true) ∧
    (generateNextStreamingToken_throws ctx (models st !! ctx_model ctx) = true →
     getNextStreamingToken rand_stream context_id st r
       = Some (EmptyString, with_context st context_id (stop_on_error ctx), r)).
Proof.
  intros Hstart Hcalls.
  destruct (startStreaming_invariant _ _ _ _ _ Hstart) as (Hmax & ctx1 & Hc1 & Hinv1 & _).
  destruct (nextToken_calls_invariant _ _ _ _ Hcalls ctx1 Hc1 Hinv1)
    as (ctx & Hc & (Hi & Hm & Hr & Hl & He)).
  simpl in Hc. exists ctx.
  split; [exact Hc|]. split; [exact Hr|]. split; [exact Hl|]. split; [|split].
  - intros Hguard. unfold getNextStreamingToken. rewrite Hc, Hi. simpl.
    destruct (is_streaming ctx) eqn:Es; simpl; [|reflexivity].
    destruct Hguard as [?|Hge]; [discriminate|].
    unfold generateNextStreamingToken. rewrite Es, Hm. simpl.
    apply Z.leb_le in Hge. rewrite Hge. simpl.
    unfold with_context. rewrite insert_id by exact Hc. destruct st; reflexivity.
  - intros Hdone. unfold LlamaCppPlugin_isStreamingComplete, isStreamingComplete. rewrite Hc, Hi, Hm. simpl.
    destruct Hdone as [->|Heos].
    + rewrite Z.leb_refl. apply orb_true_r.
    + rewrite (He Heos). reflexivity.
  - intros Ht. apply getNextStreamingToken_caught; assumption.
Qed.
End Streaming.

(** ** Handles *)

Section Handles.
Context {F : Type} `{FloatOps F}.
Variable rand_stream : nat → Z.
Implicit Types (st : @State F).

Lemma forceMemoryCleanup_fresh st :
  handles_fresh st → handles_fresh (forceMemoryCleanup st).
Proof.
  intros (Hn & Hm & Hc). split_and!; [exact Hn | exact Hm |].
  intros k c (c0 & Hk & _ & ->)%forceMemoryCleanup_contexts. exact (Hc k c0 Hk).
Qed.

Lemma recoverFromMemoryError_fresh st :
  handles_fresh st → handles_fresh (recoverFromMemoryError st).2.
Proof.
  intros Hf. apply forceMemoryCleanup_fresh in Hf. unfold recoverFromMemoryError.
  destruct (checkMemoryHealth (forceMemoryCleanup st)); simpl; [exact Hf|].
  destruct Hf as (Hn & Hm & Hc). split_and!; [exact Hn | | apply map_Forall_empty].
  intros k m [Hk _]%map_lookup_filter_Some. exact (Hm k m Hk).
Qed.

Lemma governor_gate_fresh st :
  handles_fresh st →
  handles_fresh (if checkMemoryHealth st then (true, st) else recoverFromMemoryError st).2.
Proof.
  intros Hf. destruct (checkMemoryHealth st); [exact Hf | apply recoverFromMemoryError_fresh, Hf].
Qed.

Lemma commit_model_fresh st m : handles_fresh st → handles_fresh (commit_model st m).2.
Proof.
  intros (Hn & Hm & Hc). unfold commit_model.
  destruct (negb (loaded m) || bool_decide (tensors m = ∅)); simpl; [done|].
  split_and!; simpl; [lia | |].
  - apply map_Forall_insert_2; [lia|]. intros k v Hk. specialize (Hm k v Hk). simpl in Hm. lia.
  - intros k c Hk. specialize (Hc k c Hk). simpl in Hc. lia.
Qed.

Lemma loadModel_fresh lib lib_retry file model_path st :
  handles_fresh st → handles_fresh (loadModel lib lib_retry file model_path st).2.
Proof.
  intros Hf. unfold loadModel.
  pose proof (governor_gate_fresh st Hf) as Hg.
  destruct (if checkMemoryHealth st then (true, st) else recoverFromMemoryError st)
    as [healthy st0]. simpl in Hg.
  destruct healthy; simpl; [|exact Hg].
  destruct (file_is_open file); simpl; [|exact Hg].
  destruct (file_seek_fails file); simpl; [exact Hg|].
  destruct (wrap64 (file_tellg file) <=? 0); [exact Hg|].
  destruct (MAX_MODEL_SIZE <? wrap64 (file_tellg file)); [exact Hg|].
  destruct (loadRealTensorModel lib _ _) as [m|]; [apply commit_model_fresh, Hg|].
  pose proof (recoverFromMemoryError_fresh st0 Hg) as Hr.
  destruct (recoverFromMemoryError st0) as [recovered st2]. simpl in Hr.
  destruct recovered; [|exact Hr].
  destruct (loadRealTensorModel lib_retry _ _) as [m|]; [apply commit_model_fresh, Hr | exact Hr].
Qed.

Lemma createContext_fresh lib model_id st h st' :
  handles_fresh st → createContext lib model_id st = Some (h, st') → handles_fresh st'.
Proof.
  intros Hf. unfold createContext.
  destruct (models st !! model_id) as [model0|]; [|intros [= _ <-]; exact Hf].
  destruct (negb (loaded model0)); [intros [= _ <-]; exact Hf|].
  pose proof (governor_gate_fresh st Hf) as Hg.
  destruct (if checkMemoryHealth st then (true, st) else recoverFromMemoryError st)
    as [healthy st0]. simpl in Hg.
  destruct healthy; simpl; [|intros [= _ <-]; exact Hg].
  destruct (models st0 !! model_id) as [model|] eqn:Em; [|discriminate].
  set (gate2 := if MAX_MEMORY_LIMIT <? size_add (getTotalMemoryUsage st0) WORK_BUFFER_SIZE
                then _ else _).
  assert (Hg2 : handles_fresh gate2.2 ∧ models gate2.2 = models st0).
  { unfold gate2. destruct (MAX_MEMORY_LIMIT <? _); simpl; [|done].
    split; [apply forceMemoryCleanup_fresh, Hg | reflexivity]. }
  destruct gate2 as [enough st1]. simpl in Hg2. destruct Hg2 as [Hg2 Hm2].
  destruct enough; simpl; [|intros [= _ <-]; exact Hg2].
  set (gate3 := if ggml_init lib WORK_BUFFER_SIZE then _ else _).
  assert (Hg3 : handles_fresh gate3.2 ∧ models gate3.2 = models st0).
  { unfold gate3. destruct (ggml_init lib WORK_BUFFER_SIZE); simpl; [done|].
    split; [apply forceMemoryCleanup_fresh, Hg2 | exact Hm2]. }
  destruct gate3 as [created st2]. simpl in Hg3. destruct Hg3 as [(Hn & Hm & Hc) Hm3].
  destruct created; simpl; [|intros [= _ <-]; done].
  intros [= _ <-]. split_and!; simpl; [lia | |].
  - intros k v Hk. specialize (Hm k v Hk). simpl in Hm. lia.
  - apply map_Forall_insert_2.
    + rewrite <- Hm3 in Em. specialize (Hm _ _ Em). simpl in *. lia.
    + intros k c Hk. specialize (Hc k c Hk). simpl in Hc. lia.
Qed.

Lemma with_context_fresh st context_id c0 c :
  handles_fresh st → contexts st !! context_id = Some c0 → ctx_model c = ctx_model c0 →
  handles_fresh (with_context st context_id c).
Proof.
  intros (Hn & Hm & Hc) Hc0 Heq. split_and!; [exact Hn | exact Hm |]. simpl.
  apply map_Forall_insert_2; [|exact Hc].
  specialize (Hc _ _ Hc0). simpl in Hc. rewrite Heq. exact Hc.
Qed.

Lemma startStreaming_fresh context_id input max_tokens st ok st' :
  handles_fresh st → startStreaming context_id input max_tokens st = Some (ok, st') →
  handles_fresh st'.
Proof.
  intros Hf. unfold startStreaming.
  destruct (contexts st !! context_id) as [ctx0|]; [|intros [= _ <-]; exact Hf].
  destruct (negb (initialized ctx0)); [intros [= _ <-]; exact Hf|].
  destruct (is_streaming ctx0); [intros [= _ <-]; exact Hf|].
  pose proof (governor_gate_fresh st Hf) as Hg.
  destruct (if checkMemoryHealth st then (true, st) else recoverFromMemoryError st)
    as [healthy st0]. simpl in Hg.
  destruct healthy; simpl; [|intros [= _ <-]; exact Hg].
  destruct ((max_tokens <=? 0) || (2048 <? max_tokens)); [intros [= _ <-]; exact Hg|].
  destruct ((_ =? 0) || _); [intros [= _ <-]; exact Hg|].
  destruct (contexts st0 !! context_id) as [ctx|] eqn:Ec; [|discriminate].
  destruct (models st0 !! ctx_model ctx); [|discriminate].
  unfold startStreamingInference. intros [= _ <-].
  eapply with_context_fresh; [exact Hg | exact Ec | reflexivity].
Qed.

Lemma getNextStreamingToken_fresh context_id st r token st' r' :
  handles_fresh st →
  getNextStreamingToken rand_stream context_id st r = Some (token, st', r') →
  handles_fresh st'.
Proof.
  intros Hf. unfold getNextStreamingToken.
  destruct (contexts st !! context_id) as [ctx|] eqn:Ec; [|intros [= _ <- _]; exact Hf].
  destruct (negb (initialized ctx)); [intros [= _ <- _]; exact Hf|].
  destruct (negb (is_streaming ctx)); [intros [= _ <- _]; exact Hf|].
  destruct (generateNextStreamingToken _ _ _ _) as [[[tk ctx'] r1]|] eqn:Eg.
  - intros [= _ <- _]. eapply with_context_fresh; [exact Hf | exact Ec |].
    destruct (generateNextStreamingToken_inv _ _ _ _ _ _ _ Eg) as [(-> & _)|(best & -> & _)];
      reflexivity.
  - destruct (generateNextStreamingToken_throws _ _); [|discriminate].
    intros [= _ <- _]. eapply with_context_fresh; [exact Hf | exact Ec | reflexivity].
Qed.

(** The handle counter stays ahead of every registered handle and of every
    model handle a context holds. *)
Lemma reachable_handles_fresh st : reachable rand_stream st → handles_fresh st.
Proof.
  induction 1 as [| ? ? ? ? st Hr IH | ? ? st ? ? Hr IH Hcall | ? st Hr IH | model_id st Hr IH
                  | ? ? ? st ? ? Hr IH Hcall | ? st ? ? ? ? Hr IH Hcall | context_id st Hr IH
                  | st Hr IH | st Hr IH].
  - split_and!; [reflexivity | apply map_Forall_empty | apply map_Forall_empty].
  - apply loadModel_fresh, IH.
  - eapply createContext_fresh; eassumption.
  - destruct IH as (Hn & Hm & Hc). split_and!; [exact Hn | exact Hm |]. simpl.
    apply map_Forall_delete, Hc.
  - unfold freeModel. destruct (models st !! model_id); [|exact IH].
    destruct (model_in_use model_id st); [exact IH|].
    destruct IH as (Hn & Hm & Hc). split_and!; [exact Hn | | exact Hc]. simpl.
    apply map_Forall_delete, Hm.
  - eapply startStreaming_fresh; eassumption.
  - eapply getNextStreamingToken_fresh; eassumption.
  - unfold stopStreaming. destruct (contexts st !! context_id) as [c|] eqn:Ec; [|exact IH].
    eapply with_context_fresh; [exact IH | exact Ec | reflexivity].
  - apply forceMemoryCleanup_fresh, IH.
  - apply recoverFromMemoryError_fresh, IH.
Qed.

(** In a reachable state the handle about to be issued is unused, and no
    context points to it. *)
Lemma handles_fresh_next st :
  handles_fresh st →
  models st !! next_id st = None ∧
  map_Forall (λ _ c, ctx_model c ≠ next_id st) (contexts st).
Proof.
  intros (Hn & Hm & Hc). split.
  - destruct (models st !! next_id st) as [m|] eqn:E; [|reflexivity].
    specialize (Hm _ _ E). simpl in Hm. lia.
  - intros k c Hk. specialize (Hc k c Hk). simpl in *. lia.
Qed.
End Handles.

(** ** Worked examples *)


Lemma pair_from_fst {A B : Type} (p : A * B) (a : A) : p.1 = a → p = (a, p.2).
Proof. intros <-. apply surjective_pairing. Qed.

Lemma example_leb_trans (a b c : Z) :
  f_leb a b = true → f_leb b c = true → f_leb a c = true.
Proof. simpl. rewrite !Z.leb_le. lia. Qed.

Lemma example_next_step rand_stream (s : @State Z * nat) :
  is_Some (getNextStreamingToken rand_stream 2 s.1 s.2) →
  nextToken_step rand_stream 2 s (example_next rand_stream s).
Proof.
  intros [[[token st'] r'] E]. exists token. unfold example_next. rewrite E. reflexivity.
Qed.

Example tokenizeSubword_foobarz : tokenizeSubword "foobarz" subword_model = [10; 11; 1].
Proof. reflexivity. Qed.

Example tokenizeAdvanced_hello :
  tokenizeAdvanced "Hello, foo_x!" subword_model = [2; 1; 1; 10; 1; 1].
Proof. vm_compute. reflexivity. Qed.

Example sixteen_models_are_healthy :
  getTotalMemoryUsage (loaded_models 16) = MAX_MEMORY_LIMIT ∧
  isMemoryHealthy (loaded_models 16) = true.
Proof. split; vm_compute; reflexivity. Qed.

(** *** C1 *)

(** Seventeen successful loads of a 40 MB container leave 17 arenas of
    32 MB, 544 MB in all, and no context.  There are models other than the
    most recent one, yet [forceCleanup] evicts none of them and memory
    stays unhealthy. *)
Lemma forceCleanup_counterexample :
  MAX_MEMORY_LIMIT < getTotalMemoryUsage (loaded_models 17) ∧
  (∃ id, is_Some (models (loaded_models 17) !! id) ∧
         id ≠ most_recent_model (models (loaded_models 17))) ∧
  isMemoryHealthy (forceCleanup (loaded_models 17)) = false.
Proof.
  split; [vm_compute; reflexivity|]. split; [|vm_compute; reflexivity].
  exists 1. split; [vm_compute; eexists; reflexivity | vm_compute; discriminate].
Qed.

Lemma forceCleanup_restores_health_witness :
  MAX_MEMORY_LIMIT < getTotalMemoryUsage crowded_state ∧
  isMemoryHealthy (forceCleanup crowded_state) = true ∧
  models (forceCleanup crowded_state) = models crowded_state.
Proof.
  split; [vm_compute; reflexivity|].
  destruct (forceCleanup_restores_health crowded_state) as (Hh & Hm & _).
  - vm_compute; reflexivity.
  - vm_compute; reflexivity.
  - vm_compute; discriminate.
  - split; [exact Hh | exact Hm].
Defined.

(** *** C2 *)

(** On the 544 MB of seventeen models, a load of a path that cannot be
    opened returns 0, but the recovery that opens the call has evicted
    sixteen models. *)
Lemma loadModel_bad_file_counterexample :
  let st := loaded_models 17 in
  let result := loadModel example_lib example_lib missing_file "missing.gguf" st in
  file_is_open missing_file = false ∧ result.1 = 0 ∧
  size (models st) = 17%nat ∧ size (models result.2) = 1%nat ∧
  models result.2 ≠ models st.
Proof.
  intros st result.
  assert (Hbefore : size (models st) = 17%nat) by (vm_compute; reflexivity).
  assert (Hafter : size (models result.2) = 1%nat) by (vm_compute; reflexivity).
  split; [reflexivity|]. split; [vm_compute; reflexivity|].
  split; [exact Hbefore|]. split; [exact Hafter|].
  intros Heq.
  pose proof (eq_trans (eq_sym Hafter) (eq_trans (f_equal size Heq) Hbefore)) as Habs.
  discriminate Habs.
Qed.

Lemma loadModel_bad_file_witness :
  let st := loaded_models 2 in
  (loadModel example_lib example_lib garbage_file "garbage.bin" st).1 = 0 ∧
  models (loadModel example_lib example_lib garbage_file "garbage.bin" st).2 = models st.
Proof.
  intros st.
  destruct (loadModel_bad_file example_lib example_lib garbage_file "garbage.bin" st)
    as (Hz & _ & Heq).
  - right. reflexivity.
  - split; [exact Hz|]. apply Heq; vm_compute; reflexivity.
Defined.

(** A failed load is not without effect on the other registry: loading a
    file that does not parse makes the recovery evict the idle context. *)
Example failed_load_evicts_idle_context :
  let result := loadModel example_lib example_lib garbage_file "garbage.bin" serving_state in
  result.1 = 0 ∧ size (models result.2) = 1%nat ∧
  size (contexts serving_state) = 1%nat ∧ size (contexts result.2) = 0%nat.
Proof. split_and!; vm_compute; reflexivity. Qed.

(** *** C3 *)

(** A container that declares [llama.vocab_size = 0] and a full-precision
    tensor of 4096 bytes loads: the handle is 1, the vocabulary size of the
    model is 0, and the tensor has 256 elements, not 4096 / 4. *)
Lemma loadModel_shape_counterexample :
  let result := loadModel example_lib example_lib zero_vocab_file "model.gguf"
                          (@initial_state Z) in
  result.1 = 1 ∧
  ∃ model, models result.2 !! 1 = Some model ∧
           ¬ (0 < n_vocab model) ∧
           tensor_types model !! "token_embd.weight" = Some GGML_TYPE_F32 ∧
           ∃ t, tensors model !! "token_embd.weight" = Some t ∧ ne t ≠ 4096 / 4.
Proof.
  split; [vm_compute; reflexivity|].
  exists (model_of_file zero_vocab_file).
  split_and!; try (vm_compute; reflexivity); [vm_compute; discriminate|].
  exists {| ne := 256 |}. split; [vm_compute; reflexivity | vm_compute; discriminate].
Qed.

Lemma loadModel_model_shape_witness :
  ∃ g model,
    file_gguf wide_file = Some g ∧
    models (loadModel example_lib example_lib wide_file "model.gguf" (@initial_state Z)).2 !! 1
      = Some model ∧
    n_vocab model = gguf_u32_or g "llama.vocab_size" 32000 ∧
    0 ≤ n_vocab model < 2 ^ 32 ∧
    (gguf_kv_u32 g !! "llama.vocab_size" = None → n_vocab model = 32000) ∧
    ∀ name t, tensors model !! name = Some t → from_directory g name t ∨ demo_tensor name t.
Proof.
  apply (loadModel_model_shape example_lib example_lib wide_file "model.gguf"
           (@initial_state Z) 1).
  - apply pair_from_fst. vm_compute; reflexivity.
  - discriminate.
Defined.

(** *** C5 *)



(** *** C6 *)

Lemma freeModel_in_use_rejected_witness :
  freeModel 1 serving_state = serving_state ∧
  models (freeModel 1 serving_state) !! 1 = models serving_state !! 1 ∧
  contexts (freeModel 1 serving_state) = contexts serving_state.
Proof.
  apply (freeModel_in_use_rejected serving_state 1 2 fresh_context).
  - vm_compute; reflexivity.
  - reflexivity.
Defined.

(** *** C8 *)

Lemma tokenizeSubword_fallback_witness :
  tokenizeWord "foobarz" subword_model = tokenizeSubword "foobarz" subword_model ∧
  subword_spec (token_to_id subword_model) "foobarz" (tokenizeSubword "foobarz" subword_model) ∧
  (length (tokenizeSubword "foobarz" subword_model) ≤ String.length "foobarz")%nat.
Proof.
  apply (tokenizeSubword_fallback subword_model "foobarz"). vm_compute; reflexivity.
Defined.

(** *** C9 *)

(** A container that declares a head count of 0 loads (handle 1), and the
    forward pass on the loaded model does not return: with two layers to
    run, [computeAttention] divides the embedding width by zero. *)
Lemma forwardPass_counterexample :
  let result := loadModel example_lib example_lib zero_head_file "model.gguf"
                          (@initial_state Z) in
  result.1 = 1 ∧
  models result.2 !! 1 = Some (model_of_file zero_head_file) ∧
  n_head (model_of_file zero_head_file) = 0 ∧
  n_layer (model_of_file zero_head_file) = 2 ∧
  forwardPass example_rand [TOKEN_BOS] (model_of_file zero_head_file) 0 = None.
Proof. split_and!; vm_compute; reflexivity. Qed.

Lemma forwardPass_logits_witness :
  ∃ logits,
    forwardPass example_rand [2; 4] (model_of_file wide_file) 0 = Some (logits, 64%nat) ∧
    Z.of_nat (length logits) = 64.
Proof.
  destruct (forwardPass_logits example_rand [2; 4] (model_of_file wide_file) 0) as [Hl _].
  - vm_compute; reflexivity.
  - exact Hl.
Defined.

(** *** C4 and C10 *)

Lemma streaming_bounded_witness :
  (let s2 := example_next example_rand
               (example_next example_rand (example_start "hello" 5 serving_state, 0%nat)) in
   ∃ ctx, contexts s2.1 !! 2 = Some ctx ∧
          0 ≤ tokens_generated ctx ≤ 5 ∧
          Z.of_nat (length (generated_tokens ctx)) = tokens_generated ctx) ∧
  (let s1 := example_next example_rand (negative_embd_state, 0%nat) in
   ∃ ctx, contexts s1.1 !! 2 = Some ctx ∧
          0 ≤ tokens_generated ctx ≤ 5 ∧
          getNextStreamingToken example_rand 2 s1.1 s1.2 = Some (EmptyString, s1.1, s1.2)).
Proof.
  split.
  - intros s2.
    destruct (streaming_bounded example_rand 2 "hello" 5 serving_state
                (example_start "hello" 5 serving_state) 0%nat s2.1 s2.2)
      as (ctx & Hc & Hr & Hl & _).
    + vm_compute; reflexivity.
    + eapply rtc_l; [apply example_next_step; vm_compute; eexists; reflexivity|].
      eapply rtc_l; [apply example_next_step; vm_compute; eexists; reflexivity|].
      subst s2. rewrite <- surjective_pairing. apply rtc_refl.
    + exists ctx. auto.
  - (* the model declares a negative embedding length: the first call
       throws, and is answered by the handlers *)
    intros s1.
    destruct (streaming_bounded example_rand 2 "hello" 5
                (example_create 1
                   (loadModel example_lib example_lib negative_embd_file "model.gguf"
                      initial_state).2)
                negative_embd_state 0%nat s1.1 s1.2)
      as (ctx & Hc & Hr & _ & Hnoop & _).
    + vm_compute; reflexivity.
    + eapply rtc_l; [apply example_next_step; vm_compute; eexists; reflexivity|].
      subst s1. rewrite <- surjective_pairing. apply rtc_refl.
    + exists ctx. split; [exact Hc|]. split; [exact Hr|].
      apply Hnoop. left. vm_compute in Hc. injection Hc as <-. reflexivity.
Defined.

Lemma nextToken_draw_above_mass_witness :
  ∃ ctx',
    generateNextStreamingToken rand_max_stream streaming_context
        (Some (model_of_file wide_file)) 0
      = Some (token_text (model_of_file wide_file) TOKEN_PAD, ctx', 65%nat) ∧
    full_context_tokens ctx' = [2; 4; 0] ∧
    generated_tokens ctx' = [0] ∧
    tokens_generated ctx' = 1 ∧
    is_streaming ctx' = true.
Proof.
  apply (nextToken_draw_above_mass rand_max_stream streaming_context
           (model_of_file wide_file) 0 first_logits 64).
  - vm_compute; reflexivity.
  - vm_compute; reflexivity.
  - vm_compute; reflexivity.
  - vm_compute; discriminate.
  - exact example_leb_trans.
  - vm_compute; reflexivity.
  - vm_compute; reflexivity.
Defined.

(** * Further properties *)

(** ** Tokenizer *)

Lemma tolower_idemp c : tolower (tolower c) = tolower c.
Proof. destruct c as [[] [] [] [] [] [] [] []]; vm_compute; reflexivity. Qed.

Lemma is_word_char_tolower c : is_word_char (tolower c) = is_word_char c.
Proof. destruct c as [[] [] [] [] [] [] [] []]; vm_compute; reflexivity. Qed.

Lemma tolower_not_word c : is_word_char c = false → tolower c = c.
Proof. destruct c as [[] [] [] [] [] [] [] []]; vm_compute; congruence. Qed.

Lemma tokenize_char_tolower model st c :
  tokenize_char model st (tolower c) = tokenize_char model st c.
Proof.
  unfold tokenize_char. rewrite is_word_char_tolower, tolower_idemp.
  destruct (is_word_char c) eqn:E; [reflexivity|].
  rewrite (tolower_not_word c E). reflexivity.
Qed.

Lemma tokenize_chars_tolower model text st :
  tokenize_chars model st (str_tolower text) = tokenize_chars model st text.
Proof.
  revert st. induction text as [|c text IH]; intros st; simpl; [reflexivity|].
  rewrite tokenize_char_tolower. apply IH.
Qed.

(** X1.  The encoder is insensitive to the case of its input: a text and
    its lower-case form encode to the same ids, whatever the vocabulary. *)
Theorem tokenizeAdvanced_case_insensitive (text : string) (model : RealTensorModel) :
  tokenizeAdvanced (str_tolower text) model = tokenizeAdvanced text model.
Proof. unfold tokenizeAdvanced. rewrite tokenize_chars_tolower. reflexivity. Qed.

Lemma flush_word_prepend model pre st :
  flush_word model (tk_prepend pre st) = tk_prepend pre (flush_word model st).
Proof.
  unfold flush_word, tk_prepend; simpl.
  destruct (tk_in_word st && negb (str_empty (tk_current_word st))); simpl;
    [rewrite app_assoc|]; reflexivity.
Qed.

Lemma tokenize_char_prepend model pre st c :
  tokenize_char model (tk_prepend pre st) c = tk_prepend pre (tokenize_char model st c).
Proof.
  unfold tokenize_char. destruct (is_word_char c); [reflexivity|].
  rewrite flush_word_prepend.
  destruct (is_whitespace c); [reflexivity|].
  destruct (is_punctuation c); [|reflexivity].
  unfold tk_prepend; simpl. rewrite app_assoc. reflexivity.
Qed.

Lemma tokenize_chars_prepend model pre text st :
  tokenize_chars model (tk_prepend pre st) text = tk_prepend pre (tokenize_chars model st text).
Proof.
  revert st. induction text as [|c text IH]; intros st; simpl; [reflexivity|].
  rewrite tokenize_char_prepend. apply IH.
Qed.

Lemma tokenize_chars_app model a b st :
  tokenize_chars model st (a +:+ b) = tokenize_chars model (tokenize_chars model st a) b.
Proof. revert st. induction a as [|c a IH]; intros st; simpl; [reflexivity | apply IH]. Qed.

Lemma str_app_nil (b : string) : EmptyString +:+ b = b.
Proof. reflexivity. Qed.

Lemma str_app_cons (x : ascii) (a b : string) : String x a +:+ b = String x (a +:+ b).
Proof. reflexivity. Qed.

Lemma str_app_assoc (a b c : string) : (a +:+ b) +:+ c = a +:+ (b +:+ c).
Proof.
  induction a as [|x a IH]; [reflexivity|]. rewrite !str_app_cons, IH. reflexivity.
Qed.

Lemma str_app_length (a b : string) :
  String.length (a +:+ b) = (String.length a + String.length b)%nat.
Proof.
  induction a as [|x a IH]; [reflexivity|]. rewrite str_app_cons. simpl. rewrite IH. reflexivity.
Qed.

Lemma str_push_not_empty s c : str_empty (str_push s c) = false.
Proof. destruct s; reflexivity. Qed.

Lemma str_forall_push p s c : str_forall p (str_push s c) = str_forall p s && p c.
Proof.
  unfold str_push. induction s as [|a s IH]; simpl.
  - rewrite andb_true_r. reflexivity.
  - change (str_forall p (s +:+ String c "")) with (str_forall p (s +:+ String c EmptyString)).
    rewrite IH, andb_assoc. reflexivity.
Qed.

Lemma is_lower_word_char_tolower c : is_word_char c = true → is_lower_word_char (tolower c) = true.
Proof.
  intros Hc. unfold is_lower_word_char.
  rewrite is_word_char_tolower, Hc, tolower_idemp. simpl. apply bool_decide_eq_true. reflexivity.
Qed.

Lemma tk_idle_wf tokens : tk_wf (tk_idle tokens).
Proof. split; reflexivity. Qed.

Lemma flush_word_wf model st : tk_wf st → flush_word model st = tk_idle (tk_tokens (flush_word model st)).
Proof.
  intros [Hin Hw]. unfold flush_word. rewrite Hin.
  destruct st as [tokens w i]; simpl in *.
  destruct w; simpl in *; [subst i|]; reflexivity.
Qed.

Lemma tokenize_char_wf model st c : tk_wf st → tk_wf (tokenize_char model st c).
Proof.
  intros Hwf. unfold tokenize_char.
  destruct (is_word_char c) eqn:Hc.
  - destruct Hwf as [_ Hw]. split; simpl.
    + rewrite str_push_not_empty. reflexivity.
    + rewrite str_forall_push, Hw, is_lower_word_char_tolower by exact Hc. reflexivity.
  - rewrite (flush_word_wf model st Hwf).
    destruct (is_whitespace c); [apply tk_idle_wf|].
    destruct (is_punctuation c); [|apply tk_idle_wf]. split; reflexivity.
Qed.

Lemma tokenize_chars_wf model text st : tk_wf st → tk_wf (tokenize_chars model st text).
Proof.
  revert st. induction text as [|c text IH]; intros st Hwf; simpl; [exact Hwf|].
  apply IH, tokenize_char_wf, Hwf.
Qed.

(** What a character that is not a word character does to the state. *)
Lemma tokenize_char_separator model st c :
  tk_wf st → is_word_char c = false →
  tokenize_char model st c
  = tk_idle (tk_tokens (flush_word model st) ++ separator_tokens model c).
Proof.
  intros Hwf Hc. unfold tokenize_char, separator_tokens. rewrite Hc.
  rewrite (flush_word_wf model st Hwf). simpl.
  destruct (is_whitespace c); [unfold tk_idle; rewrite app_nil_r; reflexivity|].
  destruct (is_punctuation c); [reflexivity|].
  unfold tk_idle; rewrite app_nil_r; reflexivity.
Qed.

Lemma tokenizeAdvanced_from_idle text model pre :
  tk_tokens (flush_word model (tokenize_chars model (tk_idle pre) text))
  = pre ++ drop 1 (tokenizeAdvanced text model).
Proof.
  unfold tokenizeAdvanced.
  change {| tk_tokens := [TOKEN_BOS]; tk_current_word := EmptyString; tk_in_word := false |}
    with (tk_prepend [TOKEN_BOS] (tk_idle [])).
  replace (tk_idle pre) with (tk_prepend pre (tk_idle []))
    by (unfold tk_prepend, tk_idle; simpl; rewrite app_nil_r; reflexivity).
  rewrite !tokenize_chars_prepend, !flush_word_prepend. reflexivity.
Qed.

(** X2.  A character that is not a word character ends the pending word
    and splits the text: the ids of [a], then the id of the character
    itself when it is one of the six punctuation marks (the id of the
    single-character string, or the unknown id), then the ids of [b]
    without their begin-of-sequence marker.  White space and every other
    character contribute no id. *)
Theorem tokenizeAdvanced_separator (a b : string) (c : ascii) (model : RealTensorModel) :
  is_word_char c = false →
  tokenizeAdvanced (a +:+ String c b) model
  = tokenizeAdvanced a model ++ separator_tokens model c ++ drop 1 (tokenizeAdvanced b model).
Proof.
  intros Hc. unfold tokenizeAdvanced at 1.
  rewrite tokenize_chars_app. simpl.
  rewrite tokenize_char_separator;
    [|apply tokenize_chars_wf; split; reflexivity | exact Hc].
  rewrite tokenizeAdvanced_from_idle, app_assoc. reflexivity.
Qed.

Lemma tokenize_chars_word model word st :
  str_forall is_word_char word = true → word ≠ EmptyString →
  tokenize_chars model st word
  = {| tk_tokens := tk_tokens st;
       tk_current_word := tk_current_word st +:+ str_tolower word;
       tk_in_word := true |}.
Proof.
  revert st. induction word as [|c word IH]; intros st Hall Hne; [congruence|].
  simpl in Hall. apply andb_true_iff in Hall as [Hc Hall].
  simpl. unfold tokenize_char at 1. rewrite Hc.
  destruct word as [|c' word'].
  - reflexivity.
  - rewrite IH by (exact Hall || discriminate). simpl. f_equal.
    unfold str_push. rewrite str_app_assoc. reflexivity.
Qed.

(** X3.  A text that is one run of word characters is looked up as a
    whole, in lower case, before any subword split is tried: when the
    lower-case word is in the vocabulary, the encoding is the
    begin-of-sequence id followed by the id of the word. *)
Theorem tokenizeAdvanced_known_word (word : string) (model : RealTensorModel) (id : Z) :
  word ≠ EmptyString →
  str_forall is_word_char word = true →
  token_to_id model !! str_tolower word = Some id →
  tokenizeAdvanced word model = [TOKEN_BOS; id].
Proof.
  intros Hne Hall Hid. unfold tokenizeAdvanced.
  rewrite tokenize_chars_word by assumption. simpl. rewrite str_app_nil.
  unfold flush_word; simpl.
  destruct word as [|c w]; [congruence|]. simpl.
  unfold tokenizeWord. simpl in Hid. rewrite Hid. reflexivity.
Qed.

Lemma str_empty_length s : str_empty s = false → (1 ≤ String.length s)%nat.
Proof. destruct s; simpl; [discriminate | lia]. Qed.

Lemma tokenizeWord_length word model :
  str_empty word = false → (length (tokenizeWord word model) ≤ String.length word)%nat.
Proof.
  intros Hne. apply str_empty_length in Hne. unfold tokenizeWord.
  destruct (token_to_id model !! word); [simpl; lia|].
  apply tokenizeSubword_loop_spec.
Qed.

Lemma flush_word_size model st : (tk_size (flush_word model st) ≤ tk_size st)%nat.
Proof.
  unfold flush_word, tk_size.
  destruct (tk_in_word st); simpl; [|lia].
  destruct (str_empty (tk_current_word st)) eqn:E; simpl; [lia|].
  rewrite length_app. pose proof (tokenizeWord_length _ model E). lia.
Qed.

Lemma tokenize_char_size model st c :
  (tk_size (tokenize_char model st c) ≤ S (tk_size st))%nat.
Proof.
  unfold tokenize_char. destruct (is_word_char c).
  - unfold tk_size, str_push; simpl. rewrite str_app_length. simpl. lia.
  - pose proof (flush_word_size model st) as Hf.
    destruct (is_whitespace c); [lia|].
    destruct (is_punctuation c); [|lia].
    unfold tk_size in *; simpl. rewrite length_app. simpl. lia.
Qed.

Lemma tokenize_chars_size model text st :
  (tk_size (tokenize_chars model st text) ≤ tk_size st + String.length text)%nat.
Proof.
  revert st. induction text as [|c text IH]; intros st; simpl; [lia|].
  pose proof (IH (tokenize_char model st c)). pose proof (tokenize_char_size model st c). lia.
Qed.

Lemma tokenizeAdvanced_length text model :
  (length (tokenizeAdvanced text model) ≤ 1 + String.length text)%nat.
Proof.
  unfold tokenizeAdvanced.
  set (st0 := {| tk_tokens := [TOKEN_BOS]; tk_current_word := EmptyString;
                 tk_in_word := false |}).
  pose proof (flush_word_size model (tokenize_chars model st0 text)) as Hf.
  pose proof (tokenize_chars_size model text st0) as Hs.
  unfold tk_size in Hf at 1. change (tk_size st0) with 1%nat in Hs. lia.
Qed.

(** X4.  Every encoding starts with the begin-of-sequence id 2, and
    after it there is at most one id per character of the text. *)
Theorem tokenizeAdvanced_shape (text : string) (model : RealTensorModel) :
  ∃ ids, tokenizeAdvanced text model = TOKEN_BOS :: ids ∧
         (length ids ≤ String.length text)%nat.
Proof.
  exists (drop 1 (tokenizeAdvanced text model)).
  pose proof (tokenizeAdvanced_from_idle text model [TOKEN_BOS]) as Hshape.
  change (tk_tokens (flush_word model (tokenize_chars model (tk_idle [TOKEN_BOS]) text)))
    with (tokenizeAdvanced text model) in Hshape.
  split; [exact Hshape|].
  pose proof (tokenizeAdvanced_length text model) as Hlen.
  rewrite length_drop. lia.
Qed.

(** *** The keys the encoder looks up *)













(** ** Vocabulary tables *)

Lemma add_tokens_snoc entries e model :
  add_tokens (entries ++ [e]) model = with_token (add_tokens entries model) e.1 e.2.
Proof. unfold add_tokens. rewrite fold_left_app. reflexivity. Qed.

(** The three tables after a run of insertions into empty ones, when no
    id is used twice: [vocab] lists the strings in order, [id_to_token]
    holds every pair, and [token_to_id] holds for each string its last
    pair. *)
Lemma add_tokens_spec entries model :
  vocab model = [] → token_to_id model = ∅ → id_to_token model = ∅ →
  NoDup (to_int <$> entries.*1) →
  let model' := add_tokens entries model in
  vocab model' = entries.*2 ∧
  (∀ id s, id_to_token model' !! id = Some s ↔ ∃ i, (i, s) ∈ entries ∧ id = to_int i) ∧
  (∀ s id, token_to_id model' !! s = Some id ↔
           ∃ l1 i l2, entries = l1 ++ (i, s) :: l2 ∧ id = to_int i ∧ s ∉ l2.*2).
Proof.
  intros Hv Ht Hi. induction entries as [|[i t] entries IH] using rev_ind; intros Hnd model'.
  - subst model'. unfold add_tokens; simpl. rewrite Hv, Ht, Hi. split_and!; [reflexivity| |].
    + intros id s. rewrite lookup_empty. split; [discriminate|].
      intros (i & Hin & _). apply elem_of_nil in Hin. destruct Hin.
    + intros s id. rewrite lookup_empty. split; [discriminate|].
      intros (l1 & i & l2 & Habs & _). destruct l1; discriminate.
  - rewrite !fmap_app in Hnd. simpl in Hnd.
    apply NoDup_app in Hnd as (Hnd & Hfresh & _).
    destruct (IH Hnd) as (IHv & IHi & IHt). clear IH.
    subst model'. rewrite add_tokens_snoc. simpl.
    set (m := add_tokens entries model) in *.
    assert (Hnew : ∀ j s, (j, s) ∈ entries → to_int j ≠ to_int i).
    { intros j s Hin Heq. apply (Hfresh (to_int j)).
      - apply list_elem_of_fmap. exists j. split; [reflexivity|].
        apply list_elem_of_fmap. exists (j, s). split; [reflexivity | exact Hin].
      - rewrite Heq. apply list_elem_of_here. }
    split_and!.
    + rewrite IHv, fmap_app. reflexivity.
    + intros id s. destruct (decide (to_int i = id)) as [<-|Hne].
      * rewrite lookup_insert_eq. split.
        -- intros [= <-]. exists i. split; [|reflexivity].
           apply elem_of_app. right. apply list_elem_of_here.
        -- intros (j & Hin & Heq). apply elem_of_app in Hin as [Hin|Hin].
           ++ exfalso. exact (Hnew j s Hin (eq_sym Heq)).
           ++ apply list_elem_of_singleton in Hin. congruence.
      * rewrite lookup_insert_ne by exact Hne. rewrite IHi. split.
        -- intros (j & Hin & ->). exists j. split; [|reflexivity].
           apply elem_of_app. left. exact Hin.
        -- intros (j & Hin & ->). exists j. split; [|reflexivity].
           apply elem_of_app in Hin as [Hin|Hin]; [exact Hin|].
           apply list_elem_of_singleton in Hin. congruence.
    + intros s id. destruct (decide (t = s)) as [<-|Hne].
      * rewrite lookup_insert_eq. split.
        -- intros [= <-]. exists entries, i, []. split_and!; [reflexivity | reflexivity |].
           apply not_elem_of_nil.
        -- intros (l1 & j & l2 & Heq & -> & Hlast).
           destruct l2 as [|e l2 _] using rev_ind.
           ++ apply app_inj_tail in Heq as [_ Heq]. congruence.
           ++ exfalso. apply Hlast.
              rewrite app_comm_cons, app_assoc in Heq.
              apply app_inj_tail in Heq as [_ <-].
              rewrite fmap_app. apply elem_of_app. right. apply list_elem_of_here.
      * rewrite lookup_insert_ne by exact Hne. rewrite IHt. split.
        -- intros (l1 & j & l2 & -> & -> & Hlast).
           exists l1, j, (l2 ++ [(i, t)]). split_and!.
           ++ rewrite <- app_assoc. reflexivity.
           ++ reflexivity.
           ++ rewrite fmap_app. intros Hin. apply elem_of_app in Hin as [Hin|Hin];
                [exact (Hlast Hin)|]. apply list_elem_of_singleton in Hin. simpl in Hin. congruence.
        -- intros (l1 & j & l2 & Heq & -> & Hlast).
           destruct l2 as [|e l2 _] using rev_ind.
           ++ apply app_inj_tail in Heq as [_ Heq]. congruence.
           ++ rewrite app_comm_cons, app_assoc in Heq.
              apply app_inj_tail in Heq as [-> <-].
              exists l1, j, l2. split_and!; [reflexivity | reflexivity |].
              intros Hin. apply Hlast. rewrite fmap_app. apply elem_of_app. left. exact Hin.
Qed.

Lemma fold_left_fmap {A B C : Type} (f : A → C → A) (g : B → C) (l : list B) (a : A) :
  fold_left f (g <$> l) a = fold_left (λ a x, f a (g x)) l a.
Proof. revert a. induction l as [|x l IH]; intros a; simpl; [reflexivity | apply IH]. Qed.

Lemma fold_left_ext_all {A B : Type} (f g : A → B → A) (l : list B) (a : A) :
  (∀ a x, f a x = g a x) → fold_left f l a = fold_left g l a.
Proof.
  intros Hfg. revert a. induction l as [|x l IH]; intros a; simpl; [reflexivity|].
  rewrite Hfg. apply IH.
Qed.

Lemma load_real_vocabulary_entries tokens model :
  load_real_vocabulary tokens model
  = add_tokens (real_vocabulary_entries tokens (n_vocab model)) model.
Proof.
  unfold load_real_vocabulary, add_tokens, real_vocabulary_entries.
  rewrite fold_left_fmap. apply fold_left_ext_all.
  intros m i. unfold stored_token; simpl. repeat case_match; reflexivity.
Qed.

Lemma load_basic_vocabulary_entries model :
  load_basic_vocabulary model = add_tokens (basic_vocabulary_entries (n_vocab model)) model.
Proof.
  unfold load_basic_vocabulary, add_tokens, basic_vocabulary_entries.
  rewrite fold_left_app, fold_left_fmap.
  rewrite (fold_left_proj n_vocab) by reflexivity. reflexivity.
Qed.

(** Loading tensors leaves the vocabulary and the hyperparameters alone. *)
Lemma loadTensorWithQuantization_proj {B : Type} (p : RealTensorModel → B) lib m name ty size :
  (∀ m n t, p (with_tensor_type m n t) = p m) →
  (∀ m pool n c, p (with_tensor m pool n c) = p m) →
  p (loadTensorWithQuantization lib m name ty size).2 = p m.
Proof.
  intros Hty Hte. unfold loadTensorWithQuantization.
  destruct (ggml_ctx (with_tensor_type m name ty)) as [pool|]; [|apply Hty].
  destruct (ggml_new_tensor_1d lib pool _); simpl; [rewrite Hte|]; apply Hty.
Qed.

Lemma load_key_tensors_proj {B : Type} (p : RealTensorModel → B) lib infos k m :
  (∀ m n t, p (with_tensor_type m n t) = p m) →
  (∀ m pool n c, p (with_tensor m pool n c) = p m) →
  p (load_key_tensors lib infos k m).2 = p m.
Proof.
  intros Hty Hte. revert k m. induction infos as [|info rest IH]; intros k m; simpl;
    [reflexivity|].
  destruct (max_tensors_to_load <=? k); [reflexivity|].
  destruct (is_essential_tensor (ti_name info)); [|apply IH].
  pose proof (loadTensorWithQuantization_proj p lib m (ti_name info) (ti_type info)
                (gguf_get_tensor_size info) Hty Hte) as Hone.
  destruct (loadTensorWithQuantization lib m _ _ _) as [ok m1]. simpl in Hone.
  destruct ok; [rewrite IH|]; exact Hone.
Qed.

Lemma create_demo_tensor_proj {B : Type} (p : RealTensorModel → B) lib name count m :
  (∀ m pool n c, p (with_tensor m pool n c) = p m) →
  p (create_demo_tensor lib name count m) = p m.
Proof.
  intros Hte. unfold create_demo_tensor.
  destruct (ggml_ctx m) as [pool|]; [|reflexivity].
  destruct (ggml_new_tensor_1d lib pool count); [apply Hte | reflexivity].
Qed.

(** What is decided before the tensors are loaded stays as it is. *)
Lemma loadRealTensorModel_proj {B : Type} (p : RealTensorModel → B) lib g m0 m :
  (∀ m n t, p (with_tensor_type m n t) = p m) →
  (∀ m pool n c, p (with_tensor m pool n c) = p m) →
  (∀ m s, p (with_arena m s) = p m) →
  (∀ m, p (mark_loaded m) = p m) →
  loadRealTensorModel lib (Some g) m0 = Some m →
  p m = p (load_vocabulary g (read_hyperparameters g m0)).
Proof.
  intros Hty Hte Har Hma. unfold loadRealTensorModel.
  destruct (ggml_init lib (arena_size g)); [|discriminate].
  pose proof (load_key_tensors_proj p lib (gguf_infos g) 0
                (with_arena (load_vocabulary g (read_hyperparameters g m0)) (arena_size g))
                Hty Hte) as Hk.
  destruct (load_key_tensors lib _ _ _) as [k m1]. simpl in Hk.
  intros [= <-]. rewrite Hma.
  destruct (k =? 0); [rewrite !create_demo_tensor_proj by exact Hte|];
    rewrite Hk; apply Har.
Qed.

Lemma to_int_small z : -2 ^ 31 ≤ z < 2 ^ 31 → to_int z = z.
Proof. intros Hz. unfold to_int. rewrite Z.mod_small; lia. Qed.

Lemma to_int_large z : 2 ^ 31 ≤ z < 2 ^ 32 → to_int z = z - 2 ^ 32.
Proof.
  intros Hz. unfold to_int.
  replace (z + 2 ^ 31) with (z - 2 ^ 31 + 1 * 2 ^ 32) by lia.
  rewrite Z.mod_add by lia. rewrite Z.mod_small; lia.
Qed.

Lemma to_int_inj_u32 a b : 0 ≤ a < 2 ^ 32 → 0 ≤ b < 2 ^ 32 → to_int a = to_int b → a = b.
Proof.
  intros Ha Hb.
  assert (Hcases : ∀ z, 0 ≤ z < 2 ^ 32 → to_int z = z ∨ to_int z = z - 2 ^ 32).
  { intros z Hz. destruct (decide (z < 2 ^ 31)); [left; apply to_int_small | right; apply to_int_large]; lia. }
  assert (Hrange : ∀ z, -2 ^ 31 ≤ to_int z < 2 ^ 31).
  { intros z. unfold to_int. pose proof (Z.mod_pos_bound (z + 2 ^ 31) (2 ^ 32)). lia. }
  pose proof (Hrange a). pose proof (Hrange b).
  destruct (Hcases a Ha) as [->| ->]; destruct (Hcases b Hb) as [->| ->]; lia.
Qed.

Lemma for_range_elem x n : x ∈ for_range n ↔ 0 ≤ x < n.
Proof.
  unfold for_range. rewrite list_elem_of_fmap. split.
  - intros (k & -> & Hk). apply elem_of_seq in Hk. lia.
  - intros Hx. exists (Z.to_nat x). split; [lia|]. apply elem_of_seq. lia.
Qed.

Lemma for_range_lookup n (i : nat) : Z.of_nat i < n → for_range n !! i = Some (Z.of_nat i).
Proof.
  intros Hi. unfold for_range. rewrite list_lookup_fmap, lookup_seq_lt by lia. reflexivity.
Qed.

Lemma for_range_NoDup n : NoDup (for_range n).
Proof.
  unfold for_range. apply NoDup_fmap_2; [|apply NoDup_seq].
  intros a b Hab. lia.
Qed.

Lemma fmap_fst_pair {A B : Type} (g : A → B) (l : list A) : ((λ i, (i, g i)) <$> l).*1 = l.
Proof. induction l as [|x l IH]; simpl; [reflexivity | f_equal; exact IH]. Qed.

Lemma real_vocabulary_entries_ids tokens n :
  n < 2 ^ 32 → NoDup (to_int <$> (real_vocabulary_entries tokens n).*1).
Proof.
  intros Hn. unfold real_vocabulary_entries.
  rewrite fmap_fst_pair.
  apply NoDup_fmap_2_strong; [|apply for_range_NoDup].
  intros a b Ha%for_range_elem Hb%for_range_elem. apply to_int_inj_u32; lia.
Qed.

Lemma real_vocabulary_entries_elem tokens n i s :
  (i, s) ∈ real_vocabulary_entries tokens n ↔
  0 ≤ i < Z.min (Z.of_nat (length tokens)) n ∧ s = stored_token tokens i.
Proof.
  unfold real_vocabulary_entries. rewrite list_elem_of_fmap. split.
  - intros (j & [= -> ->] & Hj%for_range_elem). auto.
  - intros [Hi ->]. exists i. split; [reflexivity | apply for_range_elem, Hi].
Qed.

Lemma real_vocabulary_entries_lookup tokens n (i : nat) :
  Z.of_nat i < Z.min (Z.of_nat (length tokens)) n →
  real_vocabulary_entries tokens n !! i = Some (Z.of_nat i, stored_token tokens (Z.of_nat i)).
Proof.
  intros Hi. unfold real_vocabulary_entries.
  rewrite list_lookup_fmap, for_range_lookup by exact Hi. reflexivity.
Qed.

(** In the list of pairs a string's last pair is at its last position. *)
Lemma real_vocabulary_entries_last tokens n l1 i s l2 :
  real_vocabulary_entries tokens n = l1 ++ (i, s) :: l2 → s ∉ l2.*2 →
  0 ≤ i < Z.min (Z.of_nat (length tokens)) n ∧
  ∀ j, i < j < Z.min (Z.of_nat (length tokens)) n → stored_token tokens j ≠ s.
Proof.
  intros Heq Hlast.
  assert (Hin : (i, s) ∈ real_vocabulary_entries tokens n).
  { rewrite Heq. apply elem_of_app. right. apply list_elem_of_here. }
  apply real_vocabulary_entries_elem in Hin as [Hi _]. split; [exact Hi|].
  assert (Hpos : Z.of_nat (length l1) = i).
  { pose proof (real_vocabulary_entries_lookup tokens n (length l1)) as Hl.
    assert (Hlen : length (real_vocabulary_entries tokens n) = Z.to_nat (Z.min (Z.of_nat (length tokens)) n)).
    { unfold real_vocabulary_entries, for_range. rewrite !length_fmap, length_seq. reflexivity. }
    rewrite Heq in Hlen. rewrite length_app in Hlen. simpl in Hlen.
    rewrite Heq, list_lookup_middle in Hl by reflexivity.
    specialize (Hl ltac:(lia)). congruence. }
  intros j Hj Hs. apply Hlast.
  pose proof (real_vocabulary_entries_lookup tokens n (Z.to_nat j) ltac:(lia)) as Hl.
  rewrite Heq in Hl.
  rewrite lookup_app_r in Hl by lia.
  replace (Z.to_nat j - length l1)%nat with (S (Z.to_nat j - length l1 - 1)) in Hl by lia.
  simpl in Hl.
  apply list_elem_of_fmap. exists (Z.of_nat (Z.to_nat j), stored_token tokens (Z.of_nat (Z.to_nat j))).
  split; [simpl; rewrite Z2Nat.id by lia; congruence|].
  eapply list_elem_of_lookup_2. exact Hl.
Qed.

(** Without duplicate strings the two maps are inverse to each other. *)
Lemma add_tokens_round_trip entries model i t :
  vocab model = [] → token_to_id model = ∅ → id_to_token model = ∅ →
  NoDup (to_int <$> entries.*1) → NoDup entries.*2 → (i, t) ∈ entries →
  token_to_id (add_tokens entries model) !! t = Some (to_int i) ∧
  id_to_token (add_tokens entries model) !! to_int i = Some t.
Proof.
  intros Hv Ht Hi Hids Hstr Hin.
  destruct (add_tokens_spec entries model Hv Ht Hi Hids) as (_ & Hi2t & Ht2i).
  split; [|apply Hi2t; eauto].
  apply Ht2i. apply list_elem_of_split in Hin as (l1 & l2 & ->).
  exists l1, i, l2. split_and!; [reflexivity | reflexivity |].
  rewrite fmap_app, fmap_cons in Hstr. apply NoDup_app in Hstr as (_ & _ & Hstr).
  apply NoDup_cons in Hstr as [Hnot _]. exact Hnot.
Qed.

Lemma str_app_inv_r (a b c : string) : a +:+ c = b +:+ c → a = b.
Proof.
  intros Heq.
  assert (Hlen : String.length a = String.length b).
  { apply (f_equal String.length) in Heq. rewrite !str_app_length in Heq. lia. }
  revert b Heq Hlen. induction a as [|x a IH]; intros [|y b] Heq Hlen; try discriminate.
  - reflexivity.
  - rewrite !str_app_cons in Heq. injection Heq as -> Heq.
    f_equal. apply IH; [exact Heq | simpl in Hlen; lia].
Qed.

Lemma placeholder_token_inj i j : placeholder_token i = placeholder_token j → i = j.
Proof.
  unfold placeholder_token. intros Heq.
  apply String.app_inj in Heq. apply str_app_inv_r in Heq.
  apply pretty_Z_inj in Heq. exact Heq.
Qed.

Lemma placeholder_token_not_basic i : placeholder_token i ∉ basic_tokens.
Proof.
  intros Hin.
  assert (Hbasic : Forall (λ t, String.prefix "<token_" t = false) basic_tokens).
  { repeat constructor. }
  rewrite Forall_forall in Hbasic. specialize (Hbasic _ Hin).
  unfold placeholder_token in Hbasic.
  assert (Hpre : ∀ s, String.prefix "<token_" ("<token_" +:+ s) = true).
  { intros s. destruct s; reflexivity. }
  rewrite Hpre in Hbasic. discriminate.
Qed.

Lemma basic_tokens_NoDup : NoDup basic_tokens.
Proof. apply (bool_decide_unpack (NoDup basic_tokens)). vm_compute. exact I. Qed.

Lemma basic_vocabulary_entries_fst n :
  (basic_vocabulary_entries n).*1
  = for_range 67 ++ ((λ k, 67 + k) <$> for_range (n - 67)).
Proof.
  unfold basic_vocabulary_entries. rewrite fmap_app. f_equal.
  rewrite <- list_fmap_compose. reflexivity.
Qed.

Lemma basic_vocabulary_entries_snd n :
  (basic_vocabulary_entries n).*2
  = basic_tokens ++ ((λ k, placeholder_token (67 + k)) <$> for_range (n - 67)).
Proof.
  unfold basic_vocabulary_entries. rewrite fmap_app. f_equal.
  rewrite <- list_fmap_compose. reflexivity.
Qed.

Lemma basic_vocabulary_entries_ids n :
  n ≤ INT_MAX → NoDup (to_int <$> (basic_vocabulary_entries n).*1).
Proof.
  intros Hn. rewrite basic_vocabulary_entries_fst.
  apply NoDup_fmap_2_strong.
  - intros a b Ha Hb. apply to_int_inj_u32.
    + apply elem_of_app in Ha as [Ha%for_range_elem|(k & -> & Hk%for_range_elem)%list_elem_of_fmap];
        unfold INT_MAX in *; lia.
    + apply elem_of_app in Hb as [Hb%for_range_elem|(k & -> & Hk%for_range_elem)%list_elem_of_fmap];
        unfold INT_MAX in *; lia.
  - apply NoDup_app. split_and!.
    + apply for_range_NoDup.
    + intros x Hx%for_range_elem (k & -> & Hk%for_range_elem)%list_elem_of_fmap. lia.
    + apply NoDup_fmap_2; [intros a b; lia | apply for_range_NoDup].
Qed.

Lemma basic_vocabulary_entries_strings n : NoDup (basic_vocabulary_entries n).*2.
Proof.
  rewrite basic_vocabulary_entries_snd. apply NoDup_app. split_and!.
  - apply basic_tokens_NoDup.
  - intros x Hx (k & -> & _)%list_elem_of_fmap. exact (placeholder_token_not_basic _ Hx).
  - apply NoDup_fmap_2; [|apply for_range_NoDup].
    intros a b Hab%placeholder_token_inj. lia.
Qed.

Section Vocabulary.
Context {F : Type}.
Implicit Types (st : @State F).
Variables lib lib_retry : GgmlLibrary.
Variable file : ModelFile.
Variable model_path : string.

Lemma gguf_u32_or_range g key default :
  0 ≤ default < 2 ^ 32 → 0 ≤ gguf_u32_or g key default < 2 ^ 32.
Proof.
  intros Hd. unfold gguf_u32_or, to_u32.
  destruct (gguf_kv_u32 g !! key); [apply Z.mod_pos_bound; lia | exact Hd].
Qed.

(** X6.  The vocabulary tables of a model loaded from a container with a
    token array.  With [k] the smaller of the array's length and the
    declared vocabulary size: the list has [k] entries; id [(int) i]
    decodes to the string stored for position [i] (the array entry, or a
    placeholder when the entry is empty or longer than 100 characters);
    and whatever a string encodes to decodes back to that string, the id
    being that of the last position that stores it. *)
Theorem loadModel_vocabulary_tables st h st' g tokens :
  loadModel lib lib_retry file model_path st = (h, st') → h ≠ 0 →
  file_gguf file = Some g → gguf_tokens g = Some tokens →
  ∃ model,
    models st' !! h = Some model ∧
    let k := Z.min (Z.of_nat (length tokens)) (n_vocab model) in
    length (vocab model) = Z.to_nat k ∧
    (∀ i, 0 ≤ i < k → id_to_token model !! to_int i = Some (stored_token tokens i)) ∧
    (∀ s id, token_to_id model !! s = Some id →
       id_to_token model !! id = Some s ∧
       ∃ i, 0 ≤ i < k ∧ id = to_int i ∧ stored_token tokens i = s ∧
            ∀ j, i < j < k → stored_token tokens j ≠ s).
Proof.
  intros E Hh Hg Htok.
  destruct (loadModel_success_inv lib lib_retry file model_path st h st' E Hh)
    as (st1 & l & m0 & m & El & _ & Hc & _).
  destruct (commit_model_inv _ _ _ _ Hc Hh) as (_ & _ & -> & ->).
  rewrite Hg in El.
  exists m. split; [simpl; apply lookup_insert_eq|].
  set (mv := load_vocabulary g (read_hyperparameters g m0)).
  assert (Hn : n_vocab m = gguf_u32_or g "llama.vocab_size" 32000).
  { rewrite (loadRealTensorModel_proj n_vocab _ _ _ _ ltac:(done) ltac:(done) ltac:(done)
               ltac:(done) El).
    unfold load_vocabulary. rewrite Htok. rewrite load_real_vocabulary_proj by done. reflexivity. }
  pose proof (gguf_u32_or_range g "llama.vocab_size" 32000 ltac:(lia)) as Hrange.
  rewrite <- Hn in Hrange.
  assert (Hmv : mv = add_tokens (real_vocabulary_entries tokens (n_vocab m))
                                (read_hyperparameters g m0)).
  { unfold mv, load_vocabulary. rewrite Htok, load_real_vocabulary_entries. simpl.
    rewrite Hn. reflexivity. }
  destruct (add_tokens_spec (real_vocabulary_entries tokens (n_vocab m))
              (read_hyperparameters g m0) eq_refl eq_refl eq_refl
              (real_vocabulary_entries_ids tokens (n_vocab m) ltac:(lia)))
    as (Hv & Hi & Ht).
  rewrite <- Hmv in Hv, Hi, Ht.
  rewrite (loadRealTensorModel_proj vocab _ _ _ _ ltac:(done) ltac:(done) ltac:(done)
             ltac:(done) El).
  rewrite (loadRealTensorModel_proj id_to_token _ _ _ _ ltac:(done) ltac:(done) ltac:(done)
             ltac:(done) El).
  rewrite (loadRealTensorModel_proj token_to_id _ _ _ _ ltac:(done) ltac:(done) ltac:(done)
             ltac:(done) El).
  fold mv. intros k. split_and!.
  - rewrite Hv. unfold real_vocabulary_entries, for_range.
    rewrite !length_fmap, length_seq. reflexivity.
  - intros i Hik. apply Hi. exists i. split; [|reflexivity].
    apply real_vocabulary_entries_elem. auto.
  - intros s id Hs. apply Ht in Hs as (l1 & i & l2 & Heq & -> & Hlast).
    destruct (real_vocabulary_entries_last _ _ _ _ _ _ Heq Hlast) as [Hik Hafter].
    assert (Hin : (i, s) ∈ real_vocabulary_entries tokens (n_vocab m)).
    { rewrite Heq. apply elem_of_app. right. apply list_elem_of_here. }
    split.
    + apply Hi. exists i. auto.
    + exists i. split; [exact Hik|]. split; [reflexivity|]. split; [|exact Hafter].
      apply real_vocabulary_entries_elem in Hin as [_ ->]. reflexivity.
Qed.

(** X7.  The vocabulary of a model loaded from a container without a
    token array (the vocabulary size being within [int]): the 67 built-in
    entries in their order, then placeholders up to the declared size.
    The built-in entries are never cut: with a declared size below 67
    the list still has 67 entries.  Both maps are inverse to each other on
    every entry. *)
Theorem loadModel_basic_vocabulary st h st' g :
  loadModel lib lib_retry file model_path st = (h, st') → h ≠ 0 →
  file_gguf file = Some g → gguf_tokens g = None →
  ∃ model,
    models st' !! h = Some model ∧
    (n_vocab model ≤ INT_MAX →
     length (vocab model) = Z.to_nat (Z.max 67 (n_vocab model)) ∧
     (∀ (i : nat) t, basic_tokens !! i = Some t →
        token_to_id model !! t = Some (Z.of_nat i) ∧
        id_to_token model !! Z.of_nat i = Some t) ∧
     (∀ i, 67 ≤ i < n_vocab model →
        token_to_id model !! placeholder_token i = Some i ∧
        id_to_token model !! i = Some (placeholder_token i))).
Proof.
  intros E Hh Hg Htok.
  destruct (loadModel_success_inv lib lib_retry file model_path st h st' E Hh)
    as (st1 & l & m0 & m & El & _ & Hc & _).
  destruct (commit_model_inv _ _ _ _ Hc Hh) as (_ & _ & -> & ->).
  rewrite Hg in El.
  exists m. split; [simpl; apply lookup_insert_eq|]. intros Hint.
  set (mv := load_vocabulary g (read_hyperparameters g m0)).
  assert (Hn : n_vocab m = gguf_u32_or g "llama.vocab_size" 32000).
  { rewrite (loadRealTensorModel_proj n_vocab _ _ _ _ ltac:(done) ltac:(done) ltac:(done)
               ltac:(done) El).
    unfold load_vocabulary. rewrite Htok. rewrite load_basic_vocabulary_proj by done. reflexivity. }
  assert (Hmv : mv = add_tokens (basic_vocabulary_entries (n_vocab m))
                                (read_hyperparameters g m0)).
  { unfold mv, load_vocabulary. rewrite Htok, load_basic_vocabulary_entries.
    change (n_vocab (read_hyperparameters g m0)) with (gguf_u32_or g "llama.vocab_size" 32000).
    rewrite Hn. reflexivity. }
  rewrite (loadRealTensorModel_proj vocab _ _ _ _ ltac:(done) ltac:(done) ltac:(done)
             ltac:(done) El).
  rewrite (loadRealTensorModel_proj id_to_token _ _ _ _ ltac:(done) ltac:(done) ltac:(done)
             ltac:(done) El).
  rewrite (loadRealTensorModel_proj token_to_id _ _ _ _ ltac:(done) ltac:(done) ltac:(done)
             ltac:(done) El).
  fold mv. rewrite Hmv.
  pose proof (basic_vocabulary_entries_ids (n_vocab m) Hint) as Hids.
  pose proof (basic_vocabulary_entries_strings (n_vocab m)) as Hstr.
  split_and!.
  - destruct (add_tokens_spec _ (read_hyperparameters g m0) eq_refl eq_refl eq_refl Hids)
      as (-> & _).
    rewrite basic_vocabulary_entries_snd, length_app, length_fmap.
    unfold for_range. rewrite length_fmap, length_seq.
    change (length basic_tokens) with 67%nat. lia.
  - intros i t Hi.
    assert (Hi67 : (i < 67)%nat) by (apply lookup_lt_Some in Hi; exact Hi).
    rewrite <- (to_int_small (Z.of_nat i)) by lia.
    apply add_tokens_round_trip; try reflexivity; try assumption.
    unfold basic_vocabulary_entries. apply elem_of_app. left.
    apply (elem_of_lookup_imap_2 (λ i t, (Z.of_nat i, t))). exact Hi.
  - intros i Hi.
    pose proof (add_tokens_round_trip (basic_vocabulary_entries (n_vocab m))
                  (read_hyperparameters g m0) i (placeholder_token i)
                  eq_refl eq_refl eq_refl Hids Hstr) as Hrt.
    rewrite (to_int_small i) in Hrt by (unfold INT_MAX in Hint; lia).
    apply Hrt.
    unfold basic_vocabulary_entries. apply elem_of_app. right.
    apply list_elem_of_fmap. exists (i - 67). split.
    + change (Z.of_nat (length basic_tokens)) with 67. cbv beta zeta.
      replace (67 + (i - 67)) with i by lia. reflexivity.
    + apply for_range_elem. change (Z.of_nat (length basic_tokens)) with 67. lia.
Qed.

End Vocabulary.

(** ** Sampling *)

Section Sampling.
Context {F : Type} `{FloatOps F}.
Variable rand_stream : nat → Z.
Implicit Types (ctx : @RealInferenceContext F).

Lemma insert_desc_elem (x y : F * Z) l : x ∈ insert_desc y l → x = y ∨ x ∈ l.
Proof.
  induction l as [|z l IH]; simpl.
  - intros Hx%list_elem_of_singleton. auto.
  - destruct (pair_gtb y z).
    + intros Hx%elem_of_cons. exact Hx.
    + intros [->|Hx]%elem_of_cons; [right; apply list_elem_of_here|].
      destruct (IH Hx) as [->|Hin]; [auto | right; apply list_elem_of_further, Hin].
Qed.

Lemma sort_desc_elem (x : F * Z) l : x ∈ sort_desc l → x ∈ l.
Proof.
  unfold sort_desc. induction l as [|y l IH]; simpl; [auto|].
  intros [->|Hx]%insert_desc_elem; [apply list_elem_of_here | apply list_elem_of_further, IH, Hx].
Qed.

Lemma roulette_elem random_val cumulative candidates i :
  roulette random_val cumulative candidates = Some i → ∃ p, (p, i) ∈ candidates.
Proof.
  revert cumulative. induction candidates as [|[p j] rest IH]; intros c; simpl; [discriminate|].
  destruct (f_leb random_val (f_add c p)).
  - intros [= ->]. exists p. apply list_elem_of_here.
  - intros Hr. destruct (IH _ Hr) as [q Hq]. exists q. apply list_elem_of_further, Hq.
Qed.

Lemma top_candidates_ids (probs : list F) p i :
  (p, i) ∈ top_candidates probs → 0 ≤ i < Z.of_nat (length probs).
Proof.
  unfold top_candidates. intros Hin%subseteq_take%sort_desc_elem.
  apply elem_of_lookup_imap in Hin as (n & q & [= -> ->] & Hn).
  apply lookup_lt_Some in Hn. lia.
Qed.

Lemma softmax_probs_length (logits : list F) : length (softmax_probs logits) = length logits.
Proof. unfold softmax_probs. rewrite !length_fmap. reflexivity. Qed.

(** The sampling block yields an index into the logits, and only when
    there are logits: with none, the fallback divides by a
    [vocab_limit] of zero. *)
Lemma sample_token_range model (logits : list F) r best r' :
  Z.of_nat (length logits) = n_vocab model →
  sample_token rand_stream model logits r = Some (best, r') →
  0 ≤ best < n_vocab model ∧ r' = S r.
Proof.
  intros Hlen. unfold sample_token. destruct logits as [|l0 logits'].
  - simpl in Hlen. rewrite <- Hlen. simpl. discriminate.
  - intros [= <- <-]. split; [|reflexivity]. rewrite <- Hlen.
    destruct (roulette _ _ _) as [i|] eqn:Er; [|simpl; lia].
    apply roulette_elem in Er as [p Hp]. apply top_candidates_ids in Hp.
    rewrite softmax_probs_length in Hp. exact Hp.
Qed.

Lemma generateNextStreamingToken_active ctx model r token ctx' r' :
  is_streaming ctx = true → tokens_generated ctx < max_tokens_to_generate ctx →
  generateNextStreamingToken rand_stream ctx model r = Some (token, ctx', r') →
  ∃ m id, model = Some m ∧ 0 ≤ id < n_vocab m ∧
          forwardPass_defined (full_context_tokens ctx) m = true ∧
          ctx' = append_token ctx id ∧ token = token_text m id ∧
          r' = S (r + Z.to_nat (n_vocab m)).
Proof.
  intros Hs Hlt. unfold generateNextStreamingToken. rewrite Hs. simpl.
  destruct (max_tokens_to_generate ctx <=? tokens_generated ctx) eqn:E;
    [apply Z.leb_le in E; lia|].
  destruct model as [m|]; [|discriminate].
  destruct (forwardPass rand_stream (full_context_tokens ctx) m r) as [[logits r1]|] eqn:Efp;
    [|discriminate].
  destruct (forwardPass_inv _ _ _ _ _ _ Efp) as (Hd & Hlen & ->).
  destruct (sample_token rand_stream m logits _) as [[best r2]|] eqn:Es; [|discriminate].
  destruct (sample_token_range _ _ _ _ _ Hlen Es) as [Hbest ->].
  intros [= <- <- <-]. exists m, best.
  split; [reflexivity|]. split; [exact Hbest|]. split; [exact Hd|]. auto.
Qed.

(** X8.  A token-generation step that produces a token appends a valid
    vocabulary index: the id added to the generated list and to the
    running context lies in [0, vocab_size), the text returned is the
    table entry of that id (or "<unk>" when the table has none), and the
    step has drawn one random number per logit and one for the roulette. *)
Theorem generateNextStreamingToken_valid_id ctx model r token ctx' r' :
  is_streaming ctx = true → tokens_generated ctx < max_tokens_to_generate ctx →
  generateNextStreamingToken rand_stream ctx (Some model) r = Some (token, ctx', r') →
  ∃ id, 0 ≤ id < n_vocab model ∧
        generated_tokens ctx' = generated_tokens ctx ++ [id] ∧
        full_context_tokens ctx' = full_context_tokens ctx ++ [id] ∧
        token = token_text model id ∧
        r' = S (r + Z.to_nat (n_vocab model)).
Proof.
  intros Hs Hlt E.
  destruct (generateNextStreamingToken_active _ _ _ _ _ _ Hs Hlt E)
    as (m & id & [= <-] & Hid & _ & -> & -> & ->).
  exists id. split; [exact Hid|]. simpl. auto.
Qed.

(** X9.  A model whose vocabulary size is zero cannot generate: on a
    streaming context with budget left, with a forward pass that is
    defined, the step yields no token and throws nothing that a handler
    could answer.  The forward pass yields no logits, and the fallback
    branch that is meant to pick a random common token computes
    [rand () % 0]; the entry point [getNextStreamingToken] has no result
    either. *)
Theorem generateNextStreamingToken_empty_vocabulary context_id st ctx model r :
  contexts st !! context_id = Some ctx → initialized ctx = true →
  models st !! ctx_model ctx = Some model →
  is_streaming ctx = true → tokens_generated ctx < max_tokens_to_generate ctx →
  forwardPass_defined (full_context_tokens ctx) model = true →
  n_vocab model = 0 →
  generateNextStreamingToken rand_stream ctx (Some model) r = None ∧
  generateNextStreamingToken_throws ctx (Some model) = false ∧
  getNextStreamingToken rand_stream context_id st r = None.
Proof.
  intros Hc Hi Hm Hs Hlt Hd Hv.
  assert (Hnone : generateNextStreamingToken rand_stream ctx (Some model) r = None).
  { destruct (generateNextStreamingToken rand_stream ctx (Some model) r)
      as [[[token ctx'] r']|] eqn:E; [|reflexivity].
    destruct (generateNextStreamingToken_active _ _ _ _ _ _ Hs Hlt E)
      as (m & id & [= <-] & Hid & _). lia. }
  assert (Hthrow : generateNextStreamingToken_throws ctx (Some model) = false).
  { unfold generateNextStreamingToken_throws.
    destruct (forwardPass_throws (full_context_tokens ctx) model) eqn:Et;
      [|apply andb_false_r].
    apply forwardPass_throws_undefined in Et. congruence. }
  split; [exact Hnone|]. split; [exact Hthrow|].
  unfold getNextStreamingToken. rewrite Hc, Hi, Hs, Hm. simpl.
  rewrite Hnone, Hthrow. reflexivity.
Qed.

End Sampling.

(** ** The invariant of the registries *)

Lemma map_sum_scale {V : Type} (f : V → Z) (a : Z) (m : gmap Z V) :
  map_sum (λ v, a * f v) m = a * map_sum f m.
Proof.
  induction m as [|k v m Hk IH] using map_ind.
  - rewrite !map_sum_empty. lia.
  - rewrite !map_sum_insert by assumption. rewrite IH. lia.
Qed.

Lemma map_sum_singleton {V : Type} (f : V → Z) (k : Z) (v : V) :
  map_sum f ({[k := v]} : gmap Z V) = f v.
Proof.
  rewrite <- insert_empty, map_sum_insert by apply lookup_empty.
  rewrite map_sum_empty. lia.
Qed.

Lemma map_sum_replace {V : Type} (f : V → Z) (m : gmap Z V) (k : Z) (v v' : V) :
  m !! k = Some v → map_sum f (<[k := v']> m) = map_sum f m - f v + f v'.
Proof.
  intros Hk. rewrite (map_sum_delete f m k v Hk).
  rewrite <- insert_delete_eq, map_sum_insert by apply lookup_delete_eq. lia.
Qed.

Lemma map_filter_key {V : Type} (m : gmap Z V) (k : Z) :
  filter (λ kv : Z * V, kv.1 = k) m
  = match m !! k with Some v => {[k := v]} | None => ∅ end.
Proof.
  apply map_eq. intros j. destruct (m !! k) as [v|] eqn:Ek.
  - destruct (decide (j = k)) as [->|Hne].
    + rewrite lookup_singleton_eq. apply map_lookup_filter_Some. auto.
    + rewrite lookup_singleton_ne by congruence.
      apply map_lookup_filter_None. right. intros v' _. simpl. exact Hne.
  - rewrite lookup_empty. apply map_lookup_filter_None.
    destruct (decide (j = k)) as [->|Hne]; [left; exact Ek|].
    right. intros v' _. simpl. exact Hne.
Qed.

Section Invariant.
Context {F : Type}.
Implicit Types (st : @State F) (c : @RealInferenceContext F).

Lemma model_ok_intact m : model_ok m → model_corrupted m = false.
Proof.
  intros (Hl & Hd & Hp & _). unfold model_corrupted.
  rewrite Hl, Hd, bool_decide_eq_true_2 by exact Hp. reflexivity.
Qed.

(** The token vectors of a context take at most 81928 bytes, less than
    1/204 of its work buffer. *)
Lemma context_ok_bytes ms c :
  context_ok ms c →
  work_buffer_size c ≤ context_bytes c ∧ 204 * context_bytes c ≤ 205 * work_buffer_size c.
Proof.
  intros (_ & Hw & He & Hl & Hi & Hg & Hmax & Hgen & Hfull & _).
  unfold context_bytes. rewrite Hw, He, Hl. simpl.
  unfold WORK_BUFFER_SIZE, MAX_INPUT_LENGTH, MAX_STREAM_TOKENS in *. lia.
Qed.

(** What the invariant says of the bytes: the governor's sums never wrap
    around, no model is corrupted, and the total stays under 547 MB. *)
Lemma bridge_invariant_bytes st :
  bridge_invariant st →
  registry_ok st = true ∧ models_intact st = true ∧
  map_sum tensor_data_size (models st) + map_sum work_buffer_size (contexts st)
    ≤ tracked_bytes st ∧
  0 ≤ tracked_bytes st ≤ MEMORY_BOUND ∧
  getTotalMemoryUsage st = tracked_bytes st.
Proof.
  intros (_ & Hm & Hc & Hb & _).
  assert (Hm0 : map_Forall (λ _ m, 0 ≤ tensor_data_size m) (models st)).
  { intros k m Hk. destruct (Hm k m Hk) as (_ & _ & _ & _ & ? & _). assumption. }
  assert (Hc0 : map_Forall (λ _ c, 0 ≤ work_buffer_size c) (contexts st)).
  { intros k c Hk. destruct (Hc k c Hk) as (_ & -> & _). unfold WORK_BUFFER_SIZE. lia. }
  pose proof (map_sum_nonneg _ _ Hm0) as HM.
  pose proof (map_sum_nonneg _ _ Hc0) as HW.
  assert (Hlow : map_sum work_buffer_size (contexts st) ≤ map_sum context_bytes (contexts st)).
  { apply map_sum_le. intros k c Hk. apply (context_ok_bytes _ _ (Hc k c Hk)). }
  assert (Hup : 204 * map_sum context_bytes (contexts st)
                ≤ 205 * map_sum work_buffer_size (contexts st)).
  { rewrite <- !map_sum_scale. apply map_sum_le.
    intros k c Hk. apply (context_ok_bytes _ _ (Hc k c Hk)). }
  assert (Hbound : 0 ≤ tracked_bytes st ≤ MEMORY_BOUND).
  { unfold tracked_bytes, MEMORY_BOUND, MEMORY_BUDGET, MAX_MEMORY_LIMIT, max_tensor_size in *.
    lia. }
  split_and!.
  - apply registry_ok_true. split_and!; [exact Hm0 | exact Hc0 |].
    unfold MEMORY_BOUND in Hbound. lia.
  - unfold models_intact. apply bool_decide_eq_true.
    intros k m Hk. apply model_ok_intact, (Hm k m Hk).
  - unfold tracked_bytes. lia.
  - lia.
  - lia.
  - rewrite getTotalMemoryUsage_exact. apply wrap64_small.
    unfold MEMORY_BOUND in Hbound. lia.
Qed.

Lemma initial_state_invariant : bridge_invariant (@initial_state F).
Proof.
  split_and!.
  - split_and!; [reflexivity | apply map_Forall_empty | apply map_Forall_empty].
  - apply map_Forall_empty.
  - apply map_Forall_empty.
  - simpl. rewrite !map_sum_empty. unfold MEMORY_BUDGET, MAX_MEMORY_LIMIT, max_tensor_size. lia.
  - intros k [m Hm]. simpl in Hm. rewrite lookup_empty in Hm. discriminate.
Qed.

End Invariant.

Section InvariantSteps.
Context {F : Type}.
Implicit Types (st : @State F) (c : @RealInferenceContext F).

Lemma context_ok_models ms ms' c :
  (∀ k, is_Some (ms !! k) → is_Some (ms' !! k)) → context_ok ms c → context_ok ms' c.
Proof.
  intros Hsub (H1 & H2 & H3 & H4 & H5 & H6 & H7 & H8 & H9 & H10).
  split_and!; try assumption; try apply H6. apply Hsub, H10.
Qed.

Lemma trim_context_ok ms c : context_ok ms c → context_ok ms (trim_context c).
Proof.
  intros (H1 & H2 & H3 & H4 & H5 & H6 & H7 & H8 & H9 & H10).
  split_and!; simpl; try assumption; try reflexivity; try apply H6.
  destruct (1024 <? length (full_context_tokens c))%nat; [rewrite length_drop|]; lia.
Qed.

Lemma forceMemoryCleanup_invariant st :
  bridge_invariant st → bridge_invariant (forceMemoryCleanup st).
Proof.
  intros Hinv. pose proof Hinv as (Hf & Hm & Hc & Hb & Hd).
  split_and!.
  - apply forceMemoryCleanup_fresh, Hf.
  - exact Hm.
  - intros k c (c0 & Hk & _ & ->)%forceMemoryCleanup_contexts.
    apply trim_context_ok, (Hc k c0 Hk).
  - simpl. rewrite map_sum_fmap.
    assert (Hc0 : map_Forall (λ _ c, 0 ≤ work_buffer_size c) (contexts st)).
    { intros k c Hk. destruct (Hc k c Hk) as (_ & -> & _). unfold WORK_BUFFER_SIZE. lia. }
    pose proof (map_sum_filter_le work_buffer_size
                  (λ kv : Z * @RealInferenceContext F, is_streaming kv.2 = true)
                  (contexts st) Hc0) as Hle.
    change (map_sum (work_buffer_size ∘ trim_context)
              (filter (λ kv : Z * @RealInferenceContext F, is_streaming kv.2 = true)
                 (contexts st)))
      with (map_sum work_buffer_size
              (filter (λ kv : Z * @RealInferenceContext F, is_streaming kv.2 = true)
                 (contexts st))).
    lia.
  - intros k Hk. specialize (Hd k Hk). simpl.
    rewrite lookup_fmap, (proj2 (map_lookup_filter_None _ _ _)); [reflexivity|].
    left. exact Hd.
Qed.

Lemma recoverFromMemoryError_invariant st :
  bridge_invariant st → bridge_invariant (recoverFromMemoryError st).2.
Proof.
  intros Hinv. apply forceMemoryCleanup_invariant in Hinv.
  pose proof Hinv as (Hf & Hm & Hc & Hb & Hd).
  pose proof (recoverFromMemoryError_fresh st) as Hfresh.
  unfold recoverFromMemoryError in *.
  destruct (checkMemoryHealth (forceMemoryCleanup st)); simpl in *; [exact Hinv|].
  assert (Hm0 : map_Forall (λ _ m, 0 ≤ tensor_data_size m) (models (forceMemoryCleanup st))).
  { intros k m Hk. destruct (Hm k m Hk) as (_ & _ & _ & _ & ? & _). assumption. }
  assert (Hc0 : 0 ≤ map_sum work_buffer_size (contexts (forceMemoryCleanup st))).
  { apply map_sum_nonneg. intros k c Hk. destruct (Hc k c Hk) as (_ & -> & _).
    unfold WORK_BUFFER_SIZE. lia. }
  split_and!; simpl.
  - split_and!; simpl; [apply Hf | | apply map_Forall_empty].
    intros k m [Hk _]%map_lookup_filter_Some. destruct Hf as (_ & Hfm & _). exact (Hfm k m Hk).
  - intros k m [Hk _]%map_lookup_filter_Some. exact (Hm k m Hk).
  - apply map_Forall_empty.
  - rewrite map_sum_empty.
    pose proof (map_sum_filter_le tensor_data_size
                  (λ kv : Z * RealTensorModel,
                     kv.1 = most_recent_model (models (forceMemoryCleanup st)))
                  (models (forceMemoryCleanup st)) Hm0) as Hle.
    simpl in *. lia.
  - intros k _. apply lookup_empty.
Qed.

Lemma recoverFromMemoryError_result st :
  (recoverFromMemoryError st).1 = checkMemoryHealth (recoverFromMemoryError st).2.
Proof.
  unfold recoverFromMemoryError.
  destruct (checkMemoryHealth (forceMemoryCleanup st)) eqn:E; simpl; [rewrite E|]; reflexivity.
Qed.

(** In a registry that satisfies the invariant the recovery always ends
    with healthy memory: one arena fits under the ceiling. *)
Lemma recoverFromMemoryError_succeeds st :
  bridge_invariant st → (recoverFromMemoryError st).1 = true.
Proof.
  intros Hinv. pose proof (recoverFromMemoryError_invariant st Hinv) as Hinv'.
  rewrite recoverFromMemoryError_result.
  destruct (bridge_invariant_bytes _ Hinv') as (_ & Hint & _ & _ & Husage).
  apply checkMemoryHealth_true. split; [|exact Hint].
  rewrite Husage. revert Hinv' Hint Husage.
  unfold recoverFromMemoryError.
  destruct (checkMemoryHealth (forceMemoryCleanup st)) eqn:E; simpl.
  - intros Hinv' _ Husage. apply checkMemoryHealth_true in E as [Hle _]. rewrite <- Husage. exact Hle.
  - intros (_ & Hm & _) _ _. unfold tracked_bytes; simpl. rewrite map_sum_empty.
    rewrite map_filter_key in *.
    destruct (models st !! most_recent_model (models st)) as [m|] eqn:Ek.
    + rewrite map_sum_singleton.
      destruct (Hm _ m (lookup_singleton_eq _ _)) as (_ & _ & _ & _ & Hs).
      unfold MAX_MEMORY_LIMIT, max_tensor_size in *. lia.
    + rewrite map_sum_empty. unfold MAX_MEMORY_LIMIT. lia.
Qed.

(** The gate that opens [loadModel], [createContext], [startStreaming]
    and [generateText]. *)
Lemma governor_gate_invariant st :
  bridge_invariant st →
  let gate := if checkMemoryHealth st then (true, st) else recoverFromMemoryError st in
  gate.1 = true ∧ bridge_invariant gate.2 ∧ checkMemoryHealth gate.2 = true.
Proof.
  intros Hinv. destruct (checkMemoryHealth st) eqn:E; simpl; [auto|].
  pose proof (recoverFromMemoryError_succeeds st Hinv) as Hok.
  split_and!; [exact Hok | apply recoverFromMemoryError_invariant, Hinv |].
  rewrite <- recoverFromMemoryError_result. exact Hok.
Qed.

Lemma commit_model_invariant st m :
  bridge_invariant st → checkMemoryHealth st = true →
  loaded m = true → tensor_data m = true → is_Some (ggml_ctx m) →
  0 ≤ tensor_data_size m ≤ max_tensor_size →
  bridge_invariant (commit_model st m).2.
Proof.
  intros Hinv Hh Hl Hd Hp Hs.
  pose proof (commit_model_fresh st m (proj1 Hinv)) as Hfresh.
  destruct (bridge_invariant_bytes _ Hinv) as (_ & _ & Hlow & _ & Husage).
  apply checkMemoryHealth_true in Hh as [Hle _]. rewrite Husage in Hle.
  destruct Hinv as (Hf & Hm & Hc & Hb & Hdis).
  destruct (handles_fresh_next st Hf) as [Hnext _].
  unfold commit_model in *. rewrite Hl in *. simpl in *.
  case_bool_decide as Ht; simpl in *; [split_and!; assumption|].
  split_and!; simpl.
  - exact Hfresh.
  - apply map_Forall_insert_2; [|exact Hm]. split_and!; try assumption; apply Hs.
  - intros k c Hk. eapply context_ok_models; [|exact (Hc k c Hk)].
    intros j Hj. destruct (decide (next_id st = j)) as [<-|Hne].
    + rewrite lookup_insert_eq. eauto.
    + rewrite lookup_insert_ne by exact Hne. exact Hj.
  - rewrite map_sum_insert by exact Hnext.
    unfold MEMORY_BUDGET. lia.
  - intros k Hk. destruct (decide (next_id st = k)) as [<-|Hne].
    + destruct (contexts st !! next_id st) as [c|] eqn:Ec; [|reflexivity].
      destruct Hf as (_ & _ & Hfc). specialize (Hfc _ _ Ec). simpl in Hfc. lia.
    + rewrite lookup_insert_ne in Hk by exact Hne. apply Hdis, Hk.
Qed.

Lemma with_context_invariant st context_id c0 c :
  bridge_invariant st → contexts st !! context_id = Some c0 →
  ctx_model c = ctx_model c0 → context_ok (models st) c →
  bridge_invariant (with_context st context_id c).
Proof.
  intros (Hf & Hm & Hc & Hb & Hd) Hc0 Heq Hok.
  split_and!; simpl.
  - eapply with_context_fresh; eassumption.
  - exact Hm.
  - apply map_Forall_insert_2; assumption.
  - rewrite (map_sum_replace _ _ _ c0) by exact Hc0.
    destruct Hok as (_ & -> & _). destruct (Hc _ _ Hc0) as (_ & -> & _). lia.
  - intros k Hk. specialize (Hd k Hk).
    destruct (decide (context_id = k)) as [->|Hne]; [congruence|].
    rewrite lookup_insert_ne by exact Hne. exact Hd.
Qed.

Lemma freeContext_invariant context_id st :
  bridge_invariant st → bridge_invariant (freeContext context_id st).
Proof.
  intros (Hf & Hm & Hc & Hb & Hd).
  split_and!; simpl.
  - destruct Hf as (Hn & Hfm & Hfc). split_and!; [exact Hn | exact Hfm |]. simpl.
    apply map_Forall_delete, Hfc.
  - exact Hm.
  - apply map_Forall_delete, Hc.
  - destruct (contexts st !! context_id) as [c|] eqn:Ec.
    + rewrite (map_sum_delete work_buffer_size _ _ _ Ec) in Hb.
      destruct (Hc _ _ Ec) as (_ & Hw & _). rewrite Hw in Hb. unfold WORK_BUFFER_SIZE in Hb. lia.
    + rewrite delete_id by exact Ec. exact Hb.
  - intros k Hk. specialize (Hd k Hk).
    destruct (decide (context_id = k)) as [->|Hne]; [apply lookup_delete_eq|].
    rewrite lookup_delete_ne by exact Hne. exact Hd.
Qed.

Lemma model_in_use_false model_id st :
  model_in_use model_id st = false →
  map_Forall (λ _ c, ctx_model c ≠ model_id) (contexts st).
Proof.
  unfold model_in_use. intros Hu%bool_decide_eq_false.
  intros k c Hk Heq. apply Hu. exists k, c. auto.
Qed.

Lemma freeModel_invariant model_id st :
  bridge_invariant st → bridge_invariant (freeModel model_id st).
Proof.
  intros Hinv. unfold freeModel.
  destruct (models st !! model_id) as [m|] eqn:Em; [|exact Hinv].
  destruct (model_in_use model_id st) eqn:Eu; [exact Hinv|].
  pose proof (model_in_use_false _ _ Eu) as Hfree.
  destruct Hinv as (Hf & Hm & Hc & Hb & Hd).
  split_and!; simpl.
  - destruct Hf as (Hn & Hfm & Hfc). split_and!; [exact Hn | | exact Hfc]. simpl.
    apply map_Forall_delete, Hfm.
  - apply map_Forall_delete, Hm.
  - intros k c Hk. pose proof (Hc k c Hk) as (H1 & H2 & H3 & H4 & H5 & H6 & H7 & H8 & H9 & H10).
    split_and!; try assumption; try apply H6.
    rewrite lookup_delete_ne; [exact H10|]. intros Heq. exact (Hfree k c Hk (eq_sym Heq)).
  - rewrite (map_sum_delete tensor_data_size _ _ _ Em) in Hb.
    destruct (Hm _ _ Em) as (_ & _ & _ & _ & Hs & _). lia.
  - intros k [m' Hk]. apply Hd.
    destruct (decide (model_id = k)) as [->|Hne]; [rewrite lookup_delete_eq in Hk; discriminate|].
    rewrite lookup_delete_ne in Hk by exact Hne. eauto.
Qed.

Lemma reachable_contexts_live_aux st context_id c :
  bridge_invariant st → contexts st !! context_id = Some c →
  initialized c = true ∧ ∃ model, models st !! ctx_model c = Some model ∧ loaded model = true.
Proof.
  intros (_ & Hm & Hc & _) Hctx.
  destruct (Hc _ _ Hctx) as (Hi & _ & _ & _ & _ & _ & _ & _ & _ & [model Hmodel]).
  split; [exact Hi|]. exists model. split; [exact Hmodel|]. apply (Hm _ _ Hmodel).
Qed.

End InvariantSteps.

Section InvariantCalls.
Context {F : Type} `{FloatOps F}.
Variable rand_stream : nat → Z.
Implicit Types (st : @State F) (ctx : @RealInferenceContext F).

Lemma append_token_ok ms ctx best_token :
  context_ok ms ctx → tokens_generated ctx < max_tokens_to_generate ctx →
  context_ok ms (append_token ctx best_token).
Proof.
  intros (H1 & H2 & H3 & H4 & H5 & H6 & H7 & H8 & H9 & H10) Hlt.
  split_and!; simpl; try assumption; rewrite ?length_app; simpl; lia.
Qed.

Lemma stop_on_error_ok ms ctx : context_ok ms ctx → context_ok ms (stop_on_error ctx).
Proof.
  intros (H1 & H2 & H3 & H4 & H5 & H6 & H7 & H8 & H9 & H10).
  split_and!; simpl; try assumption; lia.
Qed.

Lemma generateNextStreamingToken_ok ms ctx model r token ctx' r' :
  context_ok ms ctx →
  generateNextStreamingToken rand_stream ctx model r = Some (token, ctx', r') →
  context_ok ms ctx' ∧ ctx_model ctx' = ctx_model ctx ∧
  max_tokens_to_generate ctx' = max_tokens_to_generate ctx.
Proof.
  intros Hok E.
  destruct (generateNextStreamingToken_inv _ _ _ _ _ _ _ E) as [(-> & _)|(best & -> & _ & Hlt)].
  - auto.
  - split_and!; [apply append_token_ok; assumption | reflexivity | reflexivity].
Qed.

(** The collecting loop keeps the context within its limits and ends with
    the session complete. *)
Lemma streaming_loop_ok ms ctx model response r response' ctx' r' :
  context_ok ms ctx →
  streaming_loop rand_stream ctx model response r = Completed (response', ctx', r') →
  context_ok ms ctx' ∧ ctx_model ctx' = ctx_model ctx ∧
  max_tokens_to_generate ctx' = max_tokens_to_generate ctx ∧
  isStreamingComplete ctx' = true.
Proof.
  funelim (streaming_loop rand_stream ctx model response r).
  - intros Hok E. inversion E; subst. auto.
  - intros Hok E.
    match goal with
    | Hgen : generateNextStreamingToken _ _ _ _ = Some _, IH : ∀ ms, _ |- _ =>
        destruct (generateNextStreamingToken_ok ms _ _ _ _ _ _ Hok Hgen) as (Hok' & Hm & Hmax);
        destruct (IH ms _ _ _ Hok' E) as (? & ? & ? & ?)
    end.
    split_and!; [assumption | congruence | congruence | assumption].
  - intros Hok E. destruct (generateNextStreamingToken_throws _ _); discriminate.
Qed.

(** When the collecting loop throws, the context the handlers find is
    within its limits, and it is still streaming. *)
Lemma streaming_loop_thrown ms ctx model response r ctx' r' :
  context_ok ms ctx →
  streaming_loop rand_stream ctx model response r = Thrown ctx' r' →
  context_ok ms ctx' ∧ ctx_model ctx' = ctx_model ctx ∧
  max_tokens_to_generate ctx' = max_tokens_to_generate ctx ∧
  is_streaming ctx' = true ∧
  generateNextStreamingToken_throws ctx' model = true.
Proof.
  funelim (streaming_loop rand_stream ctx model response r).
  - intros Hok E. discriminate.
  - intros Hok E.
    match goal with
    | Hgen : generateNextStreamingToken _ _ _ _ = Some _, IH : ∀ ms, _ |- _ =>
        destruct (generateNextStreamingToken_ok ms _ _ _ _ _ _ Hok Hgen) as (Hok' & Hm & Hmax);
        destruct (IH ms _ _ Hok' E) as (? & ? & ? & ? & ?)
    end.
    split_and!; [assumption | congruence | congruence | assumption | assumption].
  - intros Hok E.
    destruct (generateNextStreamingToken_throws context model) eqn:Et; [|discriminate].
    injection E as <- <-. split_and!; try done.
    unfold generateNextStreamingToken_throws in Et.
    apply andb_true_iff in Et as [Hg _]. apply negb_true_iff, orb_false_iff in Hg as [Hs _].
    apply negb_false_iff in Hs. exact Hs.
Qed.

Lemma loadModel_preserves lib lib_retry file model_path st :
  bridge_invariant st → bridge_invariant (loadModel lib lib_retry file model_path st).2.
Proof.
  intros Hinv. unfold loadModel.
  destruct (governor_gate_invariant st Hinv) as (Hok & Hg & Hh).
  destruct (if checkMemoryHealth st then (true, st) else recoverFromMemoryError st)
    as [healthy st0]. simpl in Hok, Hg, Hh. subst healthy. simpl.
  destruct (file_is_open file); simpl; [|exact Hg].
  destruct (file_seek_fails file); simpl; [exact Hg|].
  destruct (wrap64 (file_tellg file) <=? 0); [exact Hg|].
  destruct (MAX_MODEL_SIZE <? wrap64 (file_tellg file)); [exact Hg|].
  destruct (loadRealTensorModel lib _ _) as [m|] eqn:E1.
  - destruct (loadRealTensorModel_inv _ _ _ _ E1) as (g & _ & Hl & _ & Hd & Hp & Hs & _).
    apply commit_model_invariant; assumption.
  - pose proof (recoverFromMemoryError_invariant st0 Hg) as Hr.
    pose proof (recoverFromMemoryError_result st0) as Hres.
    destruct (recoverFromMemoryError st0) as [recovered st2]. simpl in Hr, Hres.
    destruct recovered; [|exact Hr].
    destruct (loadRealTensorModel lib_retry _ _) as [m|] eqn:E2; [|exact Hr].
    destruct (loadRealTensorModel_inv _ _ _ _ E2) as (g & _ & Hl & _ & Hd & Hp & Hs & _).
    apply commit_model_invariant; auto.
Qed.

Lemma forceMemoryCleanup_tracked st :
  bridge_invariant st → tracked_bytes (forceMemoryCleanup st) ≤ tracked_bytes st.
Proof.
  intros Hinv. destruct (bridge_invariant_bytes _ Hinv) as (Hok & _).
  pose proof (forceMemoryCleanup_bytes st Hok). lia.
Qed.

Lemma createContext_preserves lib model_id st h st' :
  bridge_invariant st → createContext lib model_id st = Some (h, st') →
  bridge_invariant st'.
Proof.
  intros Hinv. unfold createContext.
  destruct (models st !! model_id) as [model0|]; [|intros [= _ <-]; exact Hinv].
  destruct (negb (loaded model0)); [intros [= _ <-]; exact Hinv|].
  destruct (governor_gate_invariant st Hinv) as (Hok & Hg & _).
  destruct (if checkMemoryHealth st then (true, st) else recoverFromMemoryError st)
    as [healthy st0]. simpl in Hok, Hg. subst healthy. simpl.
  destruct (models st0 !! model_id) as [model|] eqn:Em; [|discriminate].
  set (gate2 := if MAX_MEMORY_LIMIT <? size_add (getTotalMemoryUsage st0) WORK_BUFFER_SIZE
                then _ else _).
  assert (Hg2 : bridge_invariant gate2.2 ∧ models gate2.2 = models st0 ∧
                (gate2.1 = true →
                 tracked_bytes (gate2.2 : @State F) + WORK_BUFFER_SIZE ≤ MAX_MEMORY_LIMIT)).
  { assert (Hroom : ∀ s : @State F, bridge_invariant s →
              (MAX_MEMORY_LIMIT <? size_add (getTotalMemoryUsage s) WORK_BUFFER_SIZE) = false →
              tracked_bytes s + WORK_BUFFER_SIZE ≤ MAX_MEMORY_LIMIT).
    { intros s Hs Hlt. apply Z.ltb_ge in Hlt.
      destruct (bridge_invariant_bytes _ Hs) as (_ & _ & _ & Hb & Hu).
      rewrite Hu in Hlt. unfold size_add in Hlt. rewrite wrap64_small in Hlt; [exact Hlt|].
      unfold MEMORY_BOUND, WORK_BUFFER_SIZE in *. lia. }
    unfold gate2. destruct (MAX_MEMORY_LIMIT <? _) eqn:E; simpl.
    - pose proof (forceMemoryCleanup_invariant st0 Hg) as Hc.
      split_and!; [exact Hc | reflexivity |].
      intros Hen. apply negb_true_iff in Hen. apply Hroom; assumption.
    - split_and!; [exact Hg | reflexivity |]. intros _. apply Hroom; assumption. }
  destruct gate2 as [enough st1]. simpl in Hg2. destruct Hg2 as (Hg2 & Hm2 & Hroom).
  destruct enough; simpl; [|intros [= _ <-]; exact Hg2].
  specialize (Hroom eq_refl).
  set (gate3 := if ggml_init lib WORK_BUFFER_SIZE then _ else _).
  assert (Hg3 : bridge_invariant gate3.2 ∧ models gate3.2 = models st0 ∧
                tracked_bytes (gate3.2 : @State F) + WORK_BUFFER_SIZE ≤ MAX_MEMORY_LIMIT).
  { unfold gate3. destruct (ggml_init lib WORK_BUFFER_SIZE); simpl; [done|].
    split_and!; [apply forceMemoryCleanup_invariant, Hg2 | exact Hm2 |].
    pose proof (forceMemoryCleanup_tracked st1 Hg2). lia. }
  destruct gate3 as [created st2]. simpl in Hg3. destruct Hg3 as (Hg3 & Hm3 & Hroom3).
  destruct created; simpl; [|intros [= _ <-]; exact Hg3].
  intros E.
  pose proof (createContext_fresh lib model_id st h st' (proj1 Hinv)) as Hfresh.
  unfold createContext in Hfresh.
  injection E as _ <-.
  destruct (bridge_invariant_bytes _ Hg3) as (_ & _ & Hlow & _ & _).
  destruct Hg3 as (Hf & Hm & Hc & Hb & Hd).
  destruct (handles_fresh_next st2 Hf) as [Hnext _].
  assert (Hcnext : contexts st2 !! next_id st2 = None).
  { destruct (contexts st2 !! next_id st2) as [c|] eqn:Ec; [|reflexivity].
    destruct Hf as (_ & _ & Hfc). specialize (Hfc _ _ Ec). simpl in Hfc. lia. }
  split_and!; simpl.
  - destruct Hf as (Hn & Hfm & Hfc). split_and!; simpl; [lia | |].
    + intros k v Hk. specialize (Hfm k v Hk). simpl in Hfm. lia.
    + apply map_Forall_insert_2.
      * rewrite <- Hm3 in Em. specialize (Hfm _ _ Em). simpl in *. lia.
      * intros k c Hk. specialize (Hfc k c Hk). simpl in Hfc. lia.
  - exact Hm.
  - apply map_Forall_insert_2; [|exact Hc].
    split_and!; simpl; try reflexivity;
      try (unfold MAX_INPUT_LENGTH, MAX_STREAM_TOKENS; lia).
    rewrite Hm3, Em. eauto.
  - rewrite map_sum_insert by exact Hcnext. simpl.
    unfold MEMORY_BUDGET, max_tensor_size. lia.
  - intros k Hk. destruct (decide (next_id st2 = k)) as [<-|Hne].
    + destruct Hk as [m' Hk]. congruence.
    + rewrite lookup_insert_ne by exact Hne. apply Hd, Hk.
Qed.

Lemma startStreamingInference_ok ms ctx model input max_tokens :
  context_ok ms ctx →
  0 < max_tokens ≤ MAX_STREAM_TOKENS →
  Z.of_nat (String.length input) ≤ MAX_INPUT_LENGTH →
  context_ok ms (startStreamingInference ctx model input max_tokens).2.
Proof.
  intros (H1 & H2 & H3 & H4 & H5 & H6 & H7 & H8 & H9 & H10) Hmax Hlen.
  pose proof (tokenizeAdvanced_length input model) as Htok.
  split_and!; simpl; try assumption; lia.
Qed.

Lemma startStreaming_preserves context_id input max_tokens st ok st' :
  bridge_invariant st → startStreaming context_id input max_tokens st = Some (ok, st') →
  bridge_invariant st'.
Proof.
  intros Hinv. unfold startStreaming.
  destruct (contexts st !! context_id) as [ctx0|]; [|intros [= _ <-]; exact Hinv].
  destruct (negb (initialized ctx0)); [intros [= _ <-]; exact Hinv|].
  destruct (is_streaming ctx0); [intros [= _ <-]; exact Hinv|].
  destruct (governor_gate_invariant st Hinv) as (Hok & Hg & _).
  destruct (if checkMemoryHealth st then (true, st) else recoverFromMemoryError st)
    as [healthy st0]. simpl in Hok, Hg. subst healthy. simpl.
  destruct ((max_tokens <=? 0) || (2048 <? max_tokens)) eqn:Emax; [intros [= _ <-]; exact Hg|].
  destruct ((_ =? 0) || (8192 <? _)) eqn:Elen; [intros [= _ <-]; exact Hg|].
  destruct (contexts st0 !! context_id) as [ctx|] eqn:Ec; [|discriminate].
  destruct (models st0 !! ctx_model ctx) as [model|]; [|discriminate].
  apply orb_false_iff in Emax as [Hm1%Z.leb_gt Hm2%Z.ltb_ge].
  apply orb_false_iff in Elen as [_ Hl2%Z.ltb_ge].
  pose proof (startStreamingInference_ok (models st0) ctx model input max_tokens) as Hstart.
  unfold startStreamingInference in *. simpl in *.
  intros [= _ <-].
  eapply with_context_invariant; [exact Hg | exact Ec | reflexivity |].
  apply Hstart.
    + destruct Hg as (_ & _ & Hc & _). exact (Hc _ _ Ec).
    + unfold MAX_STREAM_TOKENS. lia.
    + unfold MAX_INPUT_LENGTH. lia.
Qed.

Lemma getNextStreamingToken_preserves context_id st r token st' r' :
  bridge_invariant st →
  getNextStreamingToken rand_stream context_id st r = Some (token, st', r') →
  bridge_invariant st'.
Proof.
  intros Hinv. unfold getNextStreamingToken.
  destruct (contexts st !! context_id) as [ctx|] eqn:Ec; [|intros [= _ <- _]; exact Hinv].
  destruct (negb (initialized ctx)); [intros [= _ <- _]; exact Hinv|].
  destruct (negb (is_streaming ctx)); [intros [= _ <- _]; exact Hinv|].
  assert (Hok : context_ok (models st) ctx) by (destruct Hinv as (_ & _ & Hc & _); exact (Hc _ _ Ec)).
  destruct (generateNextStreamingToken _ _ _ _) as [[[tk ctx'] r1]|] eqn:Eg.
  - intros [= _ <- _].
    destruct (generateNextStreamingToken_ok _ _ _ _ _ _ _ Hok Eg) as (Hok' & Hm & _).
    eapply with_context_invariant; eassumption.
  - destruct (generateNextStreamingToken_throws _ _); [|discriminate].
    intros [= _ <- _].
    eapply with_context_invariant; [exact Hinv | exact Ec | reflexivity |].
    apply stop_on_error_ok, Hok.
Qed.

Lemma stopStreaming_preserves context_id st :
  bridge_invariant st → bridge_invariant (stopStreaming context_id st).
Proof.
  intros Hinv. unfold stopStreaming.
  destruct (contexts st !! context_id) as [c|] eqn:Ec; [|exact Hinv].
  eapply with_context_invariant; [exact Hinv | exact Ec | reflexivity |].
  destruct Hinv as (_ & _ & Hc & _).
  destruct (Hc _ _ Ec) as (H1 & H2 & H3 & H4 & H5 & H6 & H7 & H8 & H9 & H10).
  split_and!; simpl; try assumption; try reflexivity; lia.
Qed.

Lemma generateResponsePhase3Streaming_ok ms input ctx model r response ctx' r' :
  context_ok ms ctx →
  Z.of_nat (String.length input) ≤ MAX_INPUT_LENGTH →
  generateResponsePhase3Streaming rand_stream input ctx model true r
    = Completed (response, ctx', r') →
  context_ok ms ctx' ∧ ctx_model ctx' = ctx_model ctx ∧
  max_tokens_to_generate ctx' = DEMO_MAX_TOKENS ∧ isStreamingComplete ctx' = true.
Proof.
  intros Hok Hlen. unfold generateResponsePhase3Streaming.
  destruct model as [m|]; [|discriminate].
  pose proof (startStreamingInference_ok ms ctx m input DEMO_MAX_TOKENS Hok) as Hstart.
  destruct (startStreamingInference ctx m input DEMO_MAX_TOKENS) as [started ctx1] eqn:Es.
  unfold startStreamingInference in Es. injection Es as <- <-. simpl.
  specialize (Hstart ltac:(unfold DEMO_MAX_TOKENS, MAX_STREAM_TOKENS; lia) Hlen).
  simpl in Hstart.
  destruct (streaming_loop _ _ _ _ _) as [[[resp ctx2] r2]|ctx2 r2|] eqn:El; try discriminate.
  intros [= _ <- _].
  destruct (streaming_loop_ok _ _ _ _ _ _ _ _ Hstart El) as (Hok2 & Hm & Hmax & Hdone).
  auto.
Qed.

Lemma generateResponsePhase3Streaming_thrown ms input ctx model r ctx' r' :
  context_ok ms ctx →
  Z.of_nat (String.length input) ≤ MAX_INPUT_LENGTH →
  generateResponsePhase3Streaming rand_stream input ctx model true r = Thrown ctx' r' →
  context_ok ms ctx' ∧ ctx_model ctx' = ctx_model ctx ∧
  max_tokens_to_generate ctx' = DEMO_MAX_TOKENS ∧ is_streaming ctx' = true.
Proof.
  intros Hok Hlen. unfold generateResponsePhase3Streaming.
  destruct model as [m|]; [|discriminate].
  pose proof (startStreamingInference_ok ms ctx m input DEMO_MAX_TOKENS Hok) as Hstart.
  destruct (startStreamingInference ctx m input DEMO_MAX_TOKENS) as [started ctx1] eqn:Es.
  unfold startStreamingInference in Es. injection Es as <- <-. simpl.
  specialize (Hstart ltac:(unfold DEMO_MAX_TOKENS, MAX_STREAM_TOKENS; lia) Hlen).
  simpl in Hstart.
  destruct (streaming_loop _ _ _ _ _) as [[[resp ctx2] r2]|ctx2 r2|] eqn:El; try discriminate.
  intros [= <- <-].
  destruct (streaming_loop_thrown _ _ _ _ _ _ _ Hstart El) as (Hok2 & Hm & Hmax & Hs & _).
  auto.
Qed.

Lemma generateText_preserves context_id input max_tokens st r reply st' r' :
  bridge_invariant st →
  generateText rand_stream context_id input max_tokens st r = Some (reply, st', r') →
  bridge_invariant st'.
Proof.
  intros Hinv. unfold generateText.
  destruct (contexts st !! context_id) as [ctx0|]; [|intros [= _ <- _]; exact Hinv].
  destruct (negb (initialized ctx0)); [intros [= _ <- _]; exact Hinv|].
  destruct (models st !! ctx_model ctx0) as [model0|]; [|discriminate].
  destruct (negb (loaded model0)); [intros [= _ <- _]; exact Hinv|].
  destruct (governor_gate_invariant st Hinv) as (Hok & Hg & _).
  destruct (if checkMemoryHealth st then (true, st) else recoverFromMemoryError st)
    as [healthy st0]. simpl in Hok, Hg. subst healthy. cbn [negb].
  destruct ((max_tokens <=? 0) || (2048 <? max_tokens)); [intros [= _ <- _]; exact Hg|].
  destruct (Z.of_nat (String.length input) =? 0); [intros [= _ <- _]; exact Hg|].
  destruct (8192 <? Z.of_nat (String.length input)) eqn:Elen; [intros [= _ <- _]; exact Hg|].
  apply Z.ltb_ge in Elen.
  destruct (contexts st0 !! context_id) as [ctx|] eqn:Ec; [|discriminate].
  assert (Hctx : context_ok (models st0) ctx)
    by (destruct Hg as (_ & _ & Hc & _); exact (Hc _ _ Ec)).
  destruct (generateResponsePhase3Streaming _ _ _ _ _ _) as [[[resp ctx'] r1]|ctx' r1|] eqn:Eg;
    [| |discriminate].
  - intros [= _ <- _].
    destruct (generateResponsePhase3Streaming_ok _ _ _ _ _ _ _ _ Hctx Elen Eg) as (Hok' & Hm & _).
    eapply with_context_invariant; eassumption.
  - destruct (generateResponsePhase3Streaming_thrown _ _ _ _ _ _ _ Hctx Elen Eg)
      as (Hok' & Hm & _).
    assert (Hw : bridge_invariant (with_context st0 context_id ctx'))
      by (eapply with_context_invariant; eassumption).
    pose proof (recoverFromMemoryError_invariant _ Hw) as Hr.
    destruct (recoverFromMemoryError (with_context st0 context_id ctx')) as [recovered st2].
    intros [= _ <- _]. exact Hr.
Qed.

(** Every call preserves the invariant, so every reachable registry
    satisfies it. *)
Lemma bridge_call_invariant st st' :
  bridge_call rand_stream st st' → bridge_invariant st → bridge_invariant st'.
Proof.
  intros Hcall Hinv. destruct Hcall.
  - apply loadModel_preserves, Hinv.
  - eapply createContext_preserves; eassumption.
  - eapply generateText_preserves; eassumption.
  - apply freeContext_invariant, Hinv.
  - apply freeModel_invariant, Hinv.
  - eapply startStreaming_preserves; eassumption.
  - eapply getNextStreamingToken_preserves; eassumption.
  - apply stopStreaming_preserves, Hinv.
  - apply forceMemoryCleanup_invariant, Hinv.
  - apply recoverFromMemoryError_invariant, Hinv.
Qed.

Lemma bridge_reachable_invariant st :
  bridge_reachable rand_stream st → bridge_invariant st.
Proof.
  unfold bridge_reachable. revert st. apply rtc_ind_r; [apply initial_state_invariant|].
  intros st1 st2 _ Hcall IH. eapply bridge_call_invariant; eassumption.
Qed.

End InvariantCalls.

(** ** Handles are positive *)

Section Positive.
Context {F : Type} `{FloatOps F}.
Variable rand_stream : nat → Z.
Implicit Types (st : @State F) (ctx : @RealInferenceContext F).

Lemma forceMemoryCleanup_positive st :
  handles_positive st → handles_positive (forceMemoryCleanup st).
Proof.
  intros (Hf & Hm & Hc). split_and!; [apply forceMemoryCleanup_fresh, Hf | exact Hm |].
  intros k c (c0 & Hk & _)%forceMemoryCleanup_contexts. exact (Hc k c0 Hk).
Qed.

Lemma recoverFromMemoryError_positive st :
  handles_positive st → handles_positive (recoverFromMemoryError st).2.
Proof.
  intros Hp. pose proof (recoverFromMemoryError_fresh st (proj1 Hp)) as Hfresh.
  apply forceMemoryCleanup_positive in Hp. unfold recoverFromMemoryError in *.
  destruct (checkMemoryHealth (forceMemoryCleanup st)); simpl in *; [exact Hp|].
  destruct Hp as (_ & Hm & _). split_and!; [exact Hfresh | | apply map_Forall_empty].
  intros k m [Hk _]%map_lookup_filter_Some. exact (Hm k m Hk).
Qed.

Lemma governor_gate_positive st :
  handles_positive st →
  handles_positive (if checkMemoryHealth st then (true, st) else recoverFromMemoryError st).2.
Proof.
  intros Hp. destruct (checkMemoryHealth st); [exact Hp | apply recoverFromMemoryError_positive, Hp].
Qed.

Lemma commit_model_positive st m : handles_positive st → handles_positive (commit_model st m).2.
Proof.
  intros (Hf & Hm & Hc). pose proof (commit_model_fresh st m Hf) as Hfresh.
  unfold commit_model in *.
  destruct (negb (loaded m) || bool_decide (tensors m = ∅)); simpl in *; [done|].
  split_and!; [exact Hfresh | | exact Hc]. simpl.
  apply map_Forall_insert_2; [apply Hf | exact Hm].
Qed.

Lemma with_context_positive st context_id c0 c :
  handles_positive st → contexts st !! context_id = Some c0 → ctx_model c = ctx_model c0 →
  handles_positive (with_context st context_id c).
Proof.
  intros (Hf & Hm & Hc) Hc0 Heq.
  split_and!; [eapply with_context_fresh; eassumption | exact Hm |]. simpl.
  apply map_Forall_insert_2; [exact (Hc _ _ Hc0) | exact Hc].
Qed.

(** However a generation ends, the context still points to its model. *)
Lemma streaming_loop_model ctx model response r :
  match streaming_loop rand_stream ctx model response r with
  | Completed (_, ctx', _) | Thrown ctx' _ => ctx_model ctx' = ctx_model ctx
  | Undefined => True
  end.
Proof.
  funelim (streaming_loop rand_stream ctx model response r).
  - reflexivity.
  - match goal with
    | Hgen : generateNextStreamingToken _ _ _ _ = Some _ |- _ =>
        destruct (generateNextStreamingToken_inv _ _ _ _ _ _ _ Hgen)
          as [(-> & _)|(best & -> & _)]
    end; assumption.
  - destruct (generateNextStreamingToken_throws _ _); [reflexivity | exact I].
Qed.

Lemma generateResponsePhase3Streaming_model input ctx model r :
  match generateResponsePhase3Streaming rand_stream input ctx model true r with
  | Completed (_, ctx', _) | Thrown ctx' _ => ctx_model ctx' = ctx_model ctx
  | Undefined => True
  end.
Proof.
  unfold generateResponsePhase3Streaming. destruct model as [m|]; [|exact I].
  unfold startStreamingInference. simpl.
  match goal with
  | |- context [streaming_loop _ ?c ?m ?resp ?r0] =>
      pose proof (streaming_loop_model c m resp r0) as Hloop;
      destruct (streaming_loop rand_stream c m resp r0) as [[[resp2 ctx2] r2]|ctx2 r2|]
  end; simpl in *; auto.
Qed.

Lemma bridge_call_positive st st' :
  bridge_call rand_stream st st' → handles_positive st → handles_positive st'.
Proof.
  intros Hcall Hp. destruct Hcall as
    [lib lib_retry file model_path st | lib model_id st h st' E
     | context_id input max_tokens st r reply st' r' E | context_id st | model_id st
     | context_id input max_tokens st ok st' E | context_id st r token st' r' E
     | context_id st | st | st].
  - unfold loadModel.
    pose proof (governor_gate_positive st Hp) as Hg.
    destruct (if checkMemoryHealth st then (true, st) else recoverFromMemoryError st)
      as [healthy st0]. simpl in Hg.
    destruct healthy; simpl; [|exact Hg].
    destruct (file_is_open file); simpl; [|exact Hg].
    destruct (file_seek_fails file); simpl; [exact Hg|].
    destruct (wrap64 (file_tellg file) <=? 0); [exact Hg|].
    destruct (MAX_MODEL_SIZE <? wrap64 (file_tellg file)); [exact Hg|].
    destruct (loadRealTensorModel lib _ _) as [m|]; [apply commit_model_positive, Hg|].
    pose proof (recoverFromMemoryError_positive st0 Hg) as Hr.
    destruct (recoverFromMemoryError st0) as [recovered st2]. simpl in Hr.
    destruct recovered; [|exact Hr].
    destruct (loadRealTensorModel lib_retry _ _) as [m|];
      [apply commit_model_positive, Hr | exact Hr].
  - pose proof (createContext_fresh lib model_id st h st' (proj1 Hp) E) as Hfresh.
    revert E. unfold createContext.
    destruct (models st !! model_id) as [model0|]; [|intros [= _ <-]; exact Hp].
    destruct (negb (loaded model0)); [intros [= _ <-]; exact Hp|].
    pose proof (governor_gate_positive st Hp) as Hg.
    destruct (if checkMemoryHealth st then (true, st) else recoverFromMemoryError st)
      as [healthy st0]. simpl in Hg.
    destruct healthy; simpl; [|intros [= _ <-]; exact Hg].
    destruct (models st0 !! model_id) as [model|]; [|discriminate].
    set (gate2 := if MAX_MEMORY_LIMIT <? size_add (getTotalMemoryUsage st0) WORK_BUFFER_SIZE
                  then _ else _).
    assert (Hg2 : handles_positive (gate2.2 : @State F)).
    { unfold gate2. destruct (MAX_MEMORY_LIMIT <? _); simpl;
        [apply forceMemoryCleanup_positive, Hg | exact Hg]. }
    destruct gate2 as [enough st1]. simpl in Hg2.
    destruct enough; simpl; [|intros [= _ <-]; exact Hg2].
    set (gate3 := if ggml_init lib WORK_BUFFER_SIZE then _ else _).
    assert (Hg3 : handles_positive (gate3.2 : @State F)).
    { unfold gate3. destruct (ggml_init lib WORK_BUFFER_SIZE); simpl;
        [exact Hg2 | apply forceMemoryCleanup_positive, Hg2]. }
    destruct gate3 as [created st2]. simpl in Hg3.
    destruct created; simpl; [|intros [= _ <-]; exact Hg3].
    intros [= _ <-]. destruct Hg3 as (Hf & Hm & Hc).
    split_and!; [exact Hfresh | exact Hm |]. simpl.
    apply map_Forall_insert_2; [apply Hf | exact Hc].
  - revert E. unfold generateText.
    destruct (contexts st !! context_id) as [ctx0|]; [|intros [= _ <- _]; exact Hp].
    destruct (negb (initialized ctx0)); [intros [= _ <- _]; exact Hp|].
    destruct (models st !! ctx_model ctx0) as [model0|]; [|discriminate].
    destruct (negb (loaded model0)); [intros [= _ <- _]; exact Hp|].
    pose proof (governor_gate_positive st Hp) as Hg.
    destruct (if checkMemoryHealth st then (true, st) else recoverFromMemoryError st)
      as [healthy st0]. simpl in Hg.
    destruct healthy; cbn [negb]; [|intros [= _ <- _]; exact Hg].
    destruct ((max_tokens <=? 0) || (2048 <? max_tokens)); [intros [= _ <- _]; exact Hg|].
    destruct (Z.of_nat (String.length input) =? 0); [intros [= _ <- _]; exact Hg|].
    destruct (8192 <? Z.of_nat (String.length input)); [intros [= _ <- _]; exact Hg|].
    destruct (contexts st0 !! context_id) as [ctx|] eqn:Ec; [|discriminate].
    pose proof (generateResponsePhase3Streaming_model input ctx
                  (models st0 !! ctx_model ctx) r) as Hmodel.
    destruct (generateResponsePhase3Streaming _ _ _ _ _ _) as [[[resp ctx'] r1]|ctx' r1|];
      [| |discriminate].
    + intros [= _ <- _]. eapply with_context_positive; [exact Hg | exact Ec | exact Hmodel].
    + assert (Hw : handles_positive (with_context st0 context_id ctx'))
        by (eapply with_context_positive; [exact Hg | exact Ec | exact Hmodel]).
      pose proof (recoverFromMemoryError_positive _ Hw) as Hr.
      destruct (recoverFromMemoryError (with_context st0 context_id ctx')) as [recovered st2].
      intros [= _ <- _]. exact Hr.
  - destruct Hp as (Hf & Hm & Hc).
    split_and!; [|exact Hm | apply map_Forall_delete, Hc].
    destruct Hf as (Hn & Hfm & Hfc). split_and!; [exact Hn | exact Hfm |]. simpl.
    apply map_Forall_delete, Hfc.
  - unfold freeModel. destruct (models st !! model_id); [|exact Hp].
    destruct (model_in_use model_id st); [exact Hp|].
    destruct Hp as (Hf & Hm & Hc).
    split_and!; [|apply map_Forall_delete, Hm | exact Hc].
    destruct Hf as (Hn & Hfm & Hfc). split_and!; [exact Hn | | exact Hfc]. simpl.
    apply map_Forall_delete, Hfm.
  - revert E. unfold startStreaming.
    destruct (contexts st !! context_id) as [ctx0|]; [|intros [= _ <-]; exact Hp].
    destruct (negb (initialized ctx0)); [intros [= _ <-]; exact Hp|].
    destruct (is_streaming ctx0); [intros [= _ <-]; exact Hp|].
    pose proof (governor_gate_positive st Hp) as Hg.
    destruct (if checkMemoryHealth st then (true, st) else recoverFromMemoryError st)
      as [healthy st0]. simpl in Hg.
    destruct healthy; simpl; [|intros [= _ <-]; exact Hg].
    destruct ((max_tokens <=? 0) || (2048 <? max_tokens)); [intros [= _ <-]; exact Hg|].
    destruct ((_ =? 0) || _); [intros [= _ <-]; exact Hg|].
    destruct (contexts st0 !! context_id) as [ctx|] eqn:Ec; [|discriminate].
    destruct (models st0 !! ctx_model ctx); [|discriminate].
    unfold startStreamingInference. intros [= _ <-].
    eapply with_context_positive; [exact Hg | exact Ec | reflexivity].
  - revert E. unfold getNextStreamingToken.
    destruct (contexts st !! context_id) as [ctx|] eqn:Ec; [|intros [= _ <- _]; exact Hp].
    destruct (negb (initialized ctx)); [intros [= _ <- _]; exact Hp|].
    destruct (negb (is_streaming ctx)); [intros [= _ <- _]; exact Hp|].
    destruct (generateNextStreamingToken _ _ _ _) as [[[tk ctx'] r1]|] eqn:Eg.
    + intros [= _ <- _]. eapply with_context_positive; [exact Hp | exact Ec |].
      destruct (generateNextStreamingToken_inv _ _ _ _ _ _ _ Eg) as [(-> & _)|(best & -> & _)];
        reflexivity.
    + destruct (generateNextStreamingToken_throws _ _); [|discriminate].
      intros [= _ <- _]. eapply with_context_positive; [exact Hp | exact Ec | reflexivity].
  - unfold stopStreaming. destruct (contexts st !! context_id) as [c|] eqn:Ec; [|exact Hp].
    eapply with_context_positive; [exact Hp | exact Ec | reflexivity].
  - apply forceMemoryCleanup_positive, Hp.
  - apply recoverFromMemoryError_positive, Hp.
Qed.

Lemma bridge_reachable_positive st :
  bridge_reachable rand_stream st → handles_positive st.
Proof.
  unfold bridge_reachable. revert st. apply rtc_ind_r.
  - split_and!; [|apply map_Forall_empty | apply map_Forall_empty].
    split_and!; [reflexivity | apply map_Forall_empty | apply map_Forall_empty].
  - intros st1 st2 _ Hcall IH. eapply bridge_call_positive; eassumption.
Qed.

End Positive.

(** ** Properties of every reachable registry *)

Lemma most_recent_model_max (ms : gmap Z RealTensorModel) :
  map_Forall (λ k _, 0 < k) ms →
  (∀ k, is_Some (ms !! k) → k ≤ most_recent_model ms) ∧
  (ms ≠ ∅ → is_Some (ms !! most_recent_model ms)).
Proof.
  intros Hpos. unfold most_recent_model.
  assert (Hind : (λ r (m : gmap Z RealTensorModel),
                   map_Forall (λ k _, 0 < k) m →
                   0 ≤ r ∧ (∀ k, is_Some (m !! k) → k ≤ r) ∧ (r = 0 ∨ is_Some (m !! r)))
                 (map_fold (λ k _ most_recent, if most_recent <? k then k else most_recent) 0 ms)
                 ms).
  { apply (map_fold_weak_ind
             (λ r (m : gmap Z RealTensorModel),
                map_Forall (λ k _, 0 < k) m →
                0 ≤ r ∧ (∀ k, is_Some (m !! k) → k ≤ r) ∧ (r = 0 ∨ is_Some (m !! r)))).
    - intros _. split_and!; [lia | | left; reflexivity].
      intros k [m Hk]. rewrite lookup_empty in Hk. discriminate.
    - intros i x m r Hi IH Hall.
      apply map_Forall_insert in Hall as [Hi0 Hall]; [|exact Hi].
      destruct (IH Hall) as (Hr & Hmax & Hin).
      destruct (r <? i) eqn:E; [apply Z.ltb_lt in E | apply Z.ltb_ge in E].
      + split_and!; [lia | | right; rewrite lookup_insert_eq; eauto].
        intros k Hk. destruct (decide (i = k)) as [->|Hne]; [lia|].
        rewrite lookup_insert_ne in Hk by exact Hne. specialize (Hmax k Hk). lia.
      + split_and!; [lia | |].
        * intros k Hk. destruct (decide (i = k)) as [->|Hne]; [lia|].
          rewrite lookup_insert_ne in Hk by exact Hne. exact (Hmax k Hk).
        * destruct Hin as [->|Hin]; [lia|]. right.
          destruct (decide (i = r)) as [->|Hne]; [rewrite lookup_insert_eq; eauto|].
          rewrite lookup_insert_ne by exact Hne. exact Hin. }
  destruct (Hind Hpos) as (Hr & Hmax & Hin). split; [exact Hmax|].
  intros Hne. destruct Hin as [Hz|Hin]; [|exact Hin].
  exfalso. apply Hne. apply map_empty. intros k.
  destruct (ms !! k) as [m|] eqn:Ek; [|reflexivity].
  specialize (Hmax k ltac:(eauto)). specialize (Hpos k m Ek). simpl in Hpos. lia.
Qed.

Section Reachable.
Context {F : Type} `{FloatOps F}.
Variable rand_stream : nat → Z.
Implicit Types (st : @State F) (ctx : @RealInferenceContext F).

(** X10.  In every registry that a sequence of calls can produce, the
    value [getMemoryUsage ()] reports is the exact number of bytes tracked
    for the models and the contexts (the [size_t] sums never wrap around
    and the cast to [jlong] loses nothing), and it never exceeds 547 MB:
    the 512 MB ceiling, one arena of at most 32 MB that a load may add to
    a healthy registry, and the token vectors of the contexts. *)
Theorem reachable_memory_bounded st :
  bridge_reachable rand_stream st →
  LlamaCppPlugin_getMemoryUsage st = tracked_bytes st ∧
  0 ≤ tracked_bytes st ≤ MEMORY_BOUND.
Proof.
  intros Hr%bridge_reachable_invariant.
  destruct (bridge_invariant_bytes st Hr) as (_ & _ & _ & Hb & Hu).
  split; [|exact Hb].
  rewrite LlamaCppPlugin_getMemoryUsage_small; [exact Hu|].
  rewrite Hu. unfold MEMORY_BOUND in Hb. lia.
Qed.

(** X11.  No registered context ever points to a freed model: in every
    reachable registry the model a context was created for is still
    registered and loaded, and the context is initialized.  [freeModel]
    refuses while a context uses the model, and the recovery that evicts
    models evicts every context with them. *)
Theorem reachable_contexts_live st context_id ctx :
  bridge_reachable rand_stream st →
  contexts st !! context_id = Some ctx →
  initialized ctx = true ∧
  ∃ model, models st !! ctx_model ctx = Some model ∧ loaded model = true.
Proof.
  intros (_ & Hm & Hc & _)%bridge_reachable_invariant Hctx.
  destruct (Hc _ _ Hctx) as (Hi & _ & _ & _ & _ & _ & _ & _ & _ & [model Hmodel]).
  split; [exact Hi|]. exists model. split; [exact Hmodel|].
  apply (Hm _ _ Hmodel).
Qed.

(** X12.  Handles: in every reachable registry each handle in use is
    positive and below the handle counter, and no number is the handle of
    both a model and a context.  So the value 0 that [loadModel] and
    [createContext] return on failure is never a handle. *)
Theorem reachable_handles st :
  bridge_reachable rand_stream st →
  (∀ k, is_Some (models st !! k) → 0 < k < next_id st ∧ contexts st !! k = None) ∧
  (∀ k, is_Some (contexts st !! k) → 0 < k < next_id st).
Proof.
  intros Hr. pose proof (bridge_reachable_invariant _ _ Hr) as (_ & _ & _ & _ & Hd).
  destruct (bridge_reachable_positive _ _ Hr) as ((_ & Hfm & Hfc) & Hpm & Hpc).
  split.
  - intros k [m Hk]. specialize (Hfm k m Hk). specialize (Hpm k m Hk). simpl in *.
    split; [lia | apply Hd; eauto].
  - intros k [c Hk]. specialize (Hfc k c Hk). specialize (Hpc k c Hk). simpl in *. lia.
Qed.

(** X13.  In every reachable registry the memory recovery succeeds: it
    returns true and leaves memory healthy.  A healthy registry only
    loses its idle contexts; otherwise every context goes and the model
    with the largest handle, the most recently loaded one, stays. *)
Theorem reachable_recovery_succeeds st :
  bridge_reachable rand_stream st →
  let st' := (recoverFromError st).2 in
  (recoverFromError st).1 = true ∧ isMemoryHealthy st' = true ∧
  (isMemoryHealthy st = true → models st' = models st) ∧
  (∀ k m, models st !! k = Some m → (∀ j, is_Some (models st !! j) → j ≤ k) →
          models st' !! k = Some m).
Proof.
  intros Hr. pose proof (bridge_reachable_invariant _ _ Hr) as Hinv.
  pose proof (recoverFromMemoryError_succeeds st Hinv) as Hok.
  unfold recoverFromError, isMemoryHealthy. cbn zeta.
  split_and!.
  - exact Hok.
  - rewrite <- recoverFromMemoryError_result. exact Hok.
  - intros Hh. destruct (bridge_invariant_bytes st Hinv) as (Hreg & _).
    rewrite (recoverFromMemoryError_healthy st Hreg Hh). reflexivity.
  - intros k m Hk Hmax. unfold recoverFromMemoryError.
    destruct (checkMemoryHealth (forceMemoryCleanup st)); simpl; [exact Hk|].
    destruct (bridge_reachable_positive _ _ Hr) as (_ & Hpm & _).
    destruct (most_recent_model_max (models st) Hpm) as [Hle Hin].
    destruct Hin as [m' Hm']; [intros Hempty; rewrite Hempty, lookup_empty in Hk; discriminate|].
    assert (Heq : most_recent_model (models st) = k).
    { specialize (Hle k ltac:(eauto)). specialize (Hmax _ ltac:(eauto)). lia. }
    apply map_lookup_filter_Some. split; [exact Hk | simpl; congruence].
Qed.

End Reachable.

Section Calls.
Context {F : Type} `{FloatOps F}.
Variable rand_stream : nat → Z.
Implicit Types (st : @State F) (ctx : @RealInferenceContext F).






(** A recovery on unhealthy memory deletes every idle context. *)
Lemma recoverFromMemoryError_evicts_idle st context_id ctx :
  contexts st !! context_id = Some ctx → is_streaming ctx = false →
  contexts (recoverFromMemoryError st).2 !! context_id = None.
Proof.
  intros Hc Hidle. unfold recoverFromMemoryError.
  destruct (checkMemoryHealth (forceMemoryCleanup st)); simpl; [|apply lookup_empty].
  rewrite lookup_fmap, (proj2 (map_lookup_filter_None _ _ _)); [reflexivity|].
  right. intros c Hc'. simpl. congruence.
Qed.

(** X16.  On a reachable registry whose memory is not healthy,
    [startStreaming] and [generateText] with valid arguments on an idle
    context do not return normally: the recovery that opens the call
    deletes every idle context, the one the call was given among them,
    and the call then goes on to use it. *)
Theorem unhealthy_call_uses_freed_context context_id input max_tokens st ctx r :
  bridge_reachable rand_stream st →
  contexts st !! context_id = Some ctx → is_streaming ctx = false →
  isMemoryHealthy st = false →
  0 < max_tokens ≤ 2048 → 0 < Z.of_nat (String.length input) ≤ 8192 →
  startStreaming context_id input max_tokens st = None ∧
  generateText rand_stream context_id input max_tokens st r = None.
Proof.
  intros Hr Hc Hidle Hun Hmax Hlen.
  pose proof (bridge_reachable_invariant _ _ Hr) as Hinv.
  destruct (reachable_contexts_live_aux st context_id ctx Hinv Hc) as (Hi & model & Hm & Hl).
  pose proof (recoverFromMemoryError_succeeds st Hinv) as Hok.
  pose proof (recoverFromMemoryError_evicts_idle st context_id ctx Hc Hidle) as Hgone.
  unfold isMemoryHealthy in Hun.
  assert (E1 : (max_tokens <=? 0) || (2048 <? max_tokens) = false).
  { apply orb_false_iff. split; [apply Z.leb_gt | apply Z.ltb_ge]; lia. }
  assert (E2 : (Z.of_nat (String.length input) =? 0) = false) by (apply Z.eqb_neq; lia).
  assert (E3 : (8192 <? Z.of_nat (String.length input)) = false) by (apply Z.ltb_ge; lia).
  split.
  - unfold startStreaming. rewrite Hc, Hi, Hidle, Hun. simpl.
    destruct (recoverFromMemoryError st) as [recovered st0]. simpl in *. subst recovered.
    simpl. rewrite E1, E2, E3. simpl. rewrite Hgone. reflexivity.
  - unfold generateText. rewrite Hc, Hi, Hm, Hl, Hun. simpl.
    destruct (recoverFromMemoryError st) as [recovered st0]. simpl in *. subst recovered.
    cbn [negb]. rewrite E1, E2, E3, Hgone. reflexivity.
Qed.

(** X17.  On a reachable registry with healthy memory [startStreaming]
    always returns.  It accepts exactly when the context is registered
    and idle, [max_tokens] is in 1..2048 and the input has 1..8192
    characters; a refusal changes nothing, and an accepted call changes
    nothing but the context, which then streams the encoded input with
    an empty generated list and a count of zero. *)
Theorem reachable_startStreaming_healthy context_id input max_tokens st :
  bridge_reachable rand_stream st → isMemoryHealthy st = true →
  ∃ ok st',
    startStreaming context_id input max_tokens st = Some (ok, st') ∧
    (ok = true ↔
       (∃ ctx, contexts st !! context_id = Some ctx ∧ is_streaming ctx = false) ∧
       0 < max_tokens ≤ 2048 ∧ 0 < Z.of_nat (String.length input) ≤ 8192) ∧
    (ok = false → st' = st) ∧
    (ok = true →
     models st' = models st ∧ next_id st' = next_id st ∧
     (∀ k, k ≠ context_id → contexts st' !! k = contexts st !! k) ∧
     ∃ ctx model ctx',
       contexts st !! context_id = Some ctx ∧ models st !! ctx_model ctx = Some model ∧
       contexts st' !! context_id = Some ctx' ∧
       is_streaming ctx' = true ∧ tokens_generated ctx' = 0 ∧
       max_tokens_to_generate ctx' = max_tokens ∧ generated_tokens ctx' = [] ∧
       input_tokens ctx' = tokenizeAdvanced input model ∧
       full_context_tokens ctx' = tokenizeAdvanced input model).
Proof.
  intros Hr Hh. pose proof (bridge_reachable_invariant _ _ Hr) as Hinv.
  unfold isMemoryHealthy in Hh. unfold startStreaming.
  destruct (contexts st !! context_id) as [ctx|] eqn:Hc.
  2:{ exists false, st. split_and!; [reflexivity | | reflexivity | discriminate].
      split; [discriminate|]. intros ([c [Habs _]] & _). discriminate. }
  destruct (reachable_contexts_live_aux st context_id ctx Hinv Hc) as (Hi & model & Hm & Hl).
  rewrite Hi. simpl.
  destruct (is_streaming ctx) eqn:Hs.
  { exists false, st. split_and!; [reflexivity | | reflexivity | discriminate].
    split; [discriminate|]. intros ([c [Hc' Habs]] & _). congruence. }
  rewrite Hh. simpl.
  destruct ((max_tokens <=? 0) || (2048 <? max_tokens)) eqn:E1.
  { exists false, st. split_and!; [reflexivity | | reflexivity | discriminate].
    split; [discriminate|]. intros (_ & Hmax & _).
    apply orb_true_iff in E1 as [E1%Z.leb_le|E1%Z.ltb_lt]; lia. }
  apply orb_false_iff in E1 as [E1%Z.leb_gt E1'%Z.ltb_ge].
  destruct ((Z.of_nat (String.length input) =? 0) || (8192 <? Z.of_nat (String.length input)))
    eqn:E2.
  { exists false, st. split_and!; [reflexivity | | reflexivity | discriminate].
    split; [discriminate|]. intros (_ & _ & Hlen).
    apply orb_true_iff in E2 as [E2%Z.eqb_eq|E2%Z.ltb_lt]; lia. }
  apply orb_false_iff in E2 as [E2%Z.eqb_neq E2'%Z.ltb_ge].
  rewrite Hc, Hm. unfold startStreamingInference.
  eexists true, _. split_and!; [reflexivity | | discriminate |].
  - split; [|reflexivity]. intros _. split_and!; try lia. eauto.
  - intros _. split_and!; try reflexivity.
    + intros k Hk. simpl. apply lookup_insert_ne. congruence.
    + eexists ctx, model, _. split; [reflexivity|]. split; [first [exact Hm | reflexivity]|].
      split; [simpl; apply lookup_insert_eq|]. simpl. split_and!; reflexivity.
Qed.

Lemma str_take_length n s : String.length (str_take n s) = Nat.min n (String.length s).
Proof.
  revert s. induction n as [|n IH]; intros [|c s]; simpl; try reflexivity.
  rewrite IH. reflexivity.
Qed.

(** The reply [generateText] hands back is never empty and never longer
    than 4096 characters. *)
Lemma finish_response_length response :
  1 ≤ Z.of_nat (String.length (finish_response response)) ≤ 4096.
Proof.
  unfold finish_response.
  set (resp := if str_empty response then EMPTY_RESPONSE_APOLOGY else response).
  assert (Hne : 1 ≤ Z.of_nat (String.length resp)).
  { unfold resp. destruct response; simpl; [vm_compute; discriminate | lia]. }
  destruct (4096 <? Z.of_nat (String.length resp)) eqn:E;
    [apply Z.ltb_lt in E | apply Z.ltb_ge in E; lia].
  rewrite str_app_length, str_take_length. change (String.length "...") with 3%nat. lia.
Qed.

(** The forward pass throws only for a model that declares a negative
    size. *)
Lemma forwardPass_throws_inv tokens model :
  forwardPass_throws tokens model = true →
  to_int (n_embd model) < 0 ∨ n_vocab model < 0.
Proof.
  unfold forwardPass_throws. intros Ht.
  apply andb_true_iff in Ht as [_ Ht]. apply orb_true_iff in Ht as [Ht|Ht].
  - apply andb_true_iff in Ht as [_ Hneg%Z.ltb_lt]. left. nia.
  - apply andb_true_iff in Ht as [_ Hv%Z.ltb_lt]. right. exact Hv.
Qed.

(** The collecting loop throws where a generation step throws. *)
Lemma streaming_loop_thrown_step ctx model response r ctx' r' :
  streaming_loop rand_stream ctx model response r = Thrown ctx' r' →
  generateNextStreamingToken_throws ctx' model = true.
Proof.
  funelim (streaming_loop rand_stream ctx model response r); intros E.
  - discriminate.
  - eauto.
  - destruct (generateNextStreamingToken_throws context model) eqn:Et; [|discriminate].
    injection E as <- <-. exact Et.
Qed.

(** The first step of the collecting loop throws when the forward pass
    does. *)
Lemma streaming_loop_throws ctx model response r :
  isStreamingComplete ctx = false →
  forwardPass_throws (full_context_tokens ctx) model = true →
  streaming_loop rand_stream ctx (Some model) response r = Thrown ctx r.
Proof.
  intros Hc Ht.
  assert (Hthrows : generateNextStreamingToken_throws ctx (Some model) = true).
  { unfold generateNextStreamingToken_throws. unfold isStreamingComplete in Hc.
    rewrite Hc, Ht. reflexivity. }
  assert (Hnone : generateNextStreamingToken rand_stream ctx (Some model) r = None).
  { unfold generateNextStreamingToken. unfold isStreamingComplete in Hc. rewrite Hc.
    rewrite (forwardPass_throws_none _ _ _ _ Ht). reflexivity. }
  revert Hc Hthrows Hnone.
  funelim (streaming_loop rand_stream ctx (Some model) response r); intros Hc Hthrows Hnone.
  - congruence.
  - congruence.
  - rewrite Hthrows. reflexivity.
Qed.

(** X18.  [generateText] on a reachable registry with healthy memory, for
    a registered context whose model declares no negative size (so that
    the generation throws nothing), and valid arguments.  When the call
    returns: the reply has between 1 and 4096 characters; the models are
    untouched; the context has been given a fresh session of at most 20
    tokens, whatever [max_tokens] was, and that session is complete.  If
    no end-of-sequence token came up, the context is left marked as
    streaming with all 20 tokens generated, and every [startStreaming] on
    it is refused until the stream is stopped. *)
Theorem reachable_generateText_session context_id input max_tokens st ctx model r reply st' r' :
  bridge_reachable rand_stream st → isMemoryHealthy st = true →
  contexts st !! context_id = Some ctx →
  models st !! ctx_model ctx = Some model →
  0 ≤ to_int (n_embd model) → 0 ≤ n_vocab model →
  0 < max_tokens ≤ 2048 → 0 < Z.of_nat (String.length input) ≤ 8192 →
  generateText rand_stream context_id input max_tokens st r = Some (reply, st', r') →
  1 ≤ Z.of_nat (String.length reply) ≤ 4096 ∧
  models st' = models st ∧
  ∃ ctx',
    contexts st' !! context_id = Some ctx' ∧
    max_tokens_to_generate ctx' = 20 ∧ 0 ≤ tokens_generated ctx' ≤ 20 ∧
    LlamaCppPlugin_isStreamingComplete context_id st' = true ∧
    (is_streaming ctx' = true →
     tokens_generated ctx' = 20 ∧
     ∀ input' max_tokens', startStreaming context_id input' max_tokens' st' = Some (false, st')).
Proof.
  intros Hr Hh Hc Hmodel Hembd Hvocab Hmax Hlen.
  pose proof (bridge_reachable_invariant _ _ Hr) as Hinv.
  destruct (reachable_contexts_live_aux st context_id ctx Hinv Hc) as (Hi & model' & Hm & Hl).
  assert (model' = model) as -> by congruence.
  unfold isMemoryHealthy in Hh.
  assert (E1 : (max_tokens <=? 0) || (2048 <? max_tokens) = false).
  { apply orb_false_iff. split; [apply Z.leb_gt | apply Z.ltb_ge]; lia. }
  assert (E2 : (Z.of_nat (String.length input) =? 0) = false) by (apply Z.eqb_neq; lia).
  assert (E3 : (8192 <? Z.of_nat (String.length input)) = false) by (apply Z.ltb_ge; lia).
  unfold generateText. rewrite Hc, Hi, Hm, Hl, Hh. cbn [negb]. rewrite E1, E2, E3, Hc, Hm.
  destruct (generateResponsePhase3Streaming _ _ _ _ _ _) as [[[resp ctx'] r1]|ctx' r1|] eqn:Eg;
    [| |discriminate].
  2:{ (* nothing is thrown *)
    exfalso. revert Eg. unfold generateResponsePhase3Streaming, startStreamingInference.
    cbn [negb]. destruct (streaming_loop _ _ _ _ _) as [[[resp c2] r2]|c2 r2|] eqn:El;
      try discriminate.
    intros _. apply streaming_loop_thrown_step in El.
    unfold generateNextStreamingToken_throws in El.
    apply andb_true_iff in El as [_ Ht]. apply forwardPass_throws_inv in Ht. lia. }
  intros [= <- <- <-].
  assert (Hctx : context_ok (models st) ctx)
    by (destruct Hinv as (_ & _ & Hcs & _); exact (Hcs _ _ Hc)).
  assert (Hin : Z.of_nat (String.length input) ≤ MAX_INPUT_LENGTH)
    by (unfold MAX_INPUT_LENGTH; lia).
  destruct (generateResponsePhase3Streaming_ok rand_stream _ _ _ _ _ _ _ _ Hctx Hin Eg)
    as (Hok' & Hcm & Hmax' & Hdone).
  split; [apply finish_response_length|]. split; [reflexivity|].
  exists ctx'. destruct Hok' as (Hi' & _ & _ & _ & _ & Hcount & _).
  assert (Hlook : contexts (with_context st context_id ctx') !! context_id = Some ctx')
    by (simpl; apply lookup_insert_eq).
  split_and!.
  - exact Hlook.
  - exact Hmax'.
  - lia.
  - rewrite Hmax' in Hcount. unfold DEMO_MAX_TOKENS in Hcount. lia.
  - unfold LlamaCppPlugin_isStreamingComplete. rewrite Hlook, Hi'. exact Hdone.
  - intros Hs. split.
    + unfold isStreamingComplete in Hdone. rewrite Hs in Hdone. simpl in Hdone.
      apply Z.leb_le in Hdone. rewrite Hmax' in *. unfold DEMO_MAX_TOKENS in *. lia.
    + intros input' max_tokens'. unfold startStreaming. rewrite Hlook, Hi', Hs. reflexivity.
Qed.

(** What a memory recovery leaves of the contexts: streaming ones, with
    their caches released. *)
Lemma recoverFromMemoryError_contexts st id c :
  contexts (recoverFromMemoryError st).2 !! id = Some c →
  ∃ c0, contexts st !! id = Some c0 ∧ is_streaming c0 = true ∧ c = trim_context c0.
Proof.
  unfold recoverFromMemoryError.
  destruct (checkMemoryHealth (forceMemoryCleanup st)); simpl.
  - apply forceMemoryCleanup_contexts.
  - rewrite lookup_empty. discriminate.
Qed.

(** X19.  [generateText] when the generation throws: on a reachable
    registry with healthy memory, for a registered context, valid
    arguments and a model on which the forward pass throws on the encoded
    input (a negative embedding length read from the container).  The
    call returns the fixed apology of its handler without touching
    [rand ()], and memory is healthy afterwards.  But the recovery that
    the handler runs deletes every idle context of the process, whatever
    the state of memory; and the context of the call, where it survives,
    is left marked as streaming with no token generated, so that every
    [startStreaming] on it is refused until the stream is stopped. *)
Theorem reachable_generateText_exception context_id input max_tokens st ctx model r :
  bridge_reachable rand_stream st → isMemoryHealthy st = true →
  contexts st !! context_id = Some ctx →
  models st !! ctx_model ctx = Some model →
  forwardPass_throws (tokenizeAdvanced input model) model = true →
  0 < max_tokens ≤ 2048 → 0 < Z.of_nat (String.length input) ≤ 8192 →
  ∃ st',
    generateText rand_stream context_id input max_tokens st r
      = Some (GENERATION_ERROR_APOLOGY, st', r) ∧
    isMemoryHealthy st' = true ∧
    (∀ k c, contexts st !! k = Some c → is_streaming c = false → k ≠ context_id →
            contexts st' !! k = None) ∧
    (∀ c', contexts st' !! context_id = Some c' →
       is_streaming c' = true ∧ tokens_generated c' = 0 ∧
       ∀ input' max_tokens',
         startStreaming context_id input' max_tokens' st' = Some (false, st')).
Proof.
  intros Hr Hh Hc Hmodel Ht Hmax Hlen.
  pose proof (bridge_reachable_invariant _ _ Hr) as Hinv.
  destruct (reachable_contexts_live_aux st context_id ctx Hinv Hc) as (Hi & model' & Hm & Hl).
  assert (model' = model) as -> by congruence.
  unfold isMemoryHealthy in *.
  assert (E1 : (max_tokens <=? 0) || (2048 <? max_tokens) = false).
  { apply orb_false_iff. split; [apply Z.leb_gt | apply Z.ltb_ge]; lia. }
  assert (E2 : (Z.of_nat (String.length input) =? 0) = false) by (apply Z.eqb_neq; lia).
  assert (E3 : (8192 <? Z.of_nat (String.length input)) = false) by (apply Z.ltb_ge; lia).
  set (ctx1 := (startStreamingInference ctx model input DEMO_MAX_TOKENS).2).
  assert (Hgen : generateResponsePhase3Streaming rand_stream input ctx (Some model) true r
                 = Thrown ctx1 r).
  { unfold generateResponsePhase3Streaming, startStreamingInference. cbn [negb].
    rewrite streaming_loop_throws; [reflexivity | reflexivity | exact Ht]. }
  assert (Hctx : context_ok (models st) ctx)
    by (destruct Hinv as (_ & _ & Hcs & _); exact (Hcs _ _ Hc)).
  assert (Hok1 : context_ok (models st) ctx1).
  { apply startStreamingInference_ok;
      [exact Hctx | unfold DEMO_MAX_TOKENS, MAX_STREAM_TOKENS; lia | unfold MAX_INPUT_LENGTH; lia]. }
  assert (Hw : bridge_invariant (with_context st context_id ctx1))
    by (eapply with_context_invariant; [exact Hinv | exact Hc | reflexivity | exact Hok1]).
  pose proof (recoverFromMemoryError_succeeds _ Hw) as Hsucc.
  pose proof (recoverFromMemoryError_result (with_context st context_id ctx1)) as Hres.
  exists (recoverFromMemoryError (with_context st context_id ctx1)).2.
  split_and!.
  - unfold generateText. rewrite Hc, Hi, Hm, Hl, Hh. cbn [negb]. rewrite E1, E2, E3, Hc, Hm, Hgen.
    destruct (recoverFromMemoryError (with_context st context_id ctx1)) as [recovered st2].
    simpl in Hsucc. subst recovered. reflexivity.
  - rewrite <- Hres. exact Hsucc.
  - intros k c Hk Hidle Hne.
    apply (recoverFromMemoryError_evicts_idle _ k c); [|exact Hidle].
    simpl. rewrite lookup_insert_ne by congruence. exact Hk.
  - intros c' Hc'.
    pose proof Hc' as Hkeep.
    apply recoverFromMemoryError_contexts in Hkeep as (c0 & Hc0 & Hs0 & ->).
    simpl in Hc0. rewrite lookup_insert_eq in Hc0. injection Hc0 as <-.
    split; [reflexivity|]. split; [reflexivity|].
    intros input' max_tokens'. unfold startStreaming. rewrite Hc'. simpl. rewrite Hi. reflexivity.
Qed.

(** X20.  [stopStreaming] ends the session of an initialized context: the
    session then counts as complete, a further [getNextStreamingToken]
    returns the empty string and changes nothing, a second [stopStreaming]
    changes nothing, no model is touched, and the bytes tracked do not
    grow (the generated list and the cached activations are released). *)
Theorem stopStreaming_ends_session context_id st ctx r :
  contexts st !! context_id = Some ctx → initialized ctx = true →
  let st' := stopStreaming context_id st in
  LlamaCppPlugin_isStreamingComplete context_id st' = true ∧
  getNextStreamingToken rand_stream context_id st' r = Some (EmptyString, st', r) ∧
  stopStreaming context_id st' = st' ∧
  models st' = models st ∧
  tracked_bytes st' ≤ tracked_bytes st.
Proof.
  intros Hc Hi st'. subst st'.
  set (ctx' := ({| ctx_model := ctx_model ctx; ctx_size := ctx_size ctx;
                   initialized := initialized ctx; input_tokens := input_tokens ctx;
                   embeddings := []; logits := []; generated_tokens := [];
                   full_context_tokens := full_context_tokens ctx; is_streaming := false;
                   max_tokens_to_generate := max_tokens_to_generate ctx;
                   tokens_generated := tokens_generated ctx;
                   work_ctx := work_ctx ctx; work_buffer := work_buffer ctx;
                   work_buffer_size := work_buffer_size ctx |} : @RealInferenceContext F)).
  assert (Heq : stopStreaming context_id st = with_context st context_id ctx')
    by (unfold stopStreaming; rewrite Hc; reflexivity).
  rewrite Heq.
  assert (Hlook : contexts (with_context st context_id ctx') !! context_id = Some ctx')
    by (simpl; apply lookup_insert_eq).
  split_and!.
  - unfold LlamaCppPlugin_isStreamingComplete. rewrite Hlook. simpl. rewrite Hi. reflexivity.
  - unfold getNextStreamingToken. rewrite Hlook. simpl. rewrite Hi. reflexivity.
  - unfold stopStreaming. rewrite Hlook. unfold with_context; simpl.
    rewrite insert_insert_eq. reflexivity.
  - reflexivity.
  - unfold tracked_bytes; simpl. rewrite (map_sum_replace _ _ _ ctx) by exact Hc.
    unfold context_bytes; simpl. lia.
Qed.


End Calls.

(** ** What a loaded model holds *)

Section LoadedModel.
Variable lib : GgmlLibrary.

Lemma size_insert_le {V : Type} (m : gmap string V) k v : (size (<[k := v]> m) ≤ S (size m))%nat.
Proof.
  destruct (m !! k) as [v'|] eqn:E.
  - rewrite map_size_insert_Some by eauto. lia.
  - rewrite map_size_insert_None by exact E. lia.
Qed.

Lemma loadTensorWithQuantization_size m name ty size_ :
  let r := loadTensorWithQuantization lib m name ty size_ in
  (size (tensors r.2) ≤ size (tensors m) + (if r.1 then 1 else 0))%nat.
Proof.
  cbv zeta. unfold loadTensorWithQuantization.
  destruct (ggml_ctx (with_tensor_type m name ty)) as [pool|]; simpl; [|lia].
  destruct (ggml_new_tensor_1d lib pool _); simpl; [|lia].
  pose proof (size_insert_le (tensors m) name {| ne := element_count ty size_ |}). lia.
Qed.

(** The tensor loop stops at three tensors, and the map holds at most as
    many tensors as the loop has counted. *)
Lemma load_key_tensors_size infos k m :
  let r := load_key_tensors lib infos k m in
  k ≤ r.1 ∧ r.1 ≤ Z.max k max_tensors_to_load ∧
  Z.of_nat (size (tensors r.2)) ≤ Z.of_nat (size (tensors m)) + (r.1 - k).
Proof.
  cbv zeta. revert k m. induction infos as [|info rest IH]; intros k m; simpl; [lia|].
  destruct (max_tensors_to_load <=? k) eqn:E; simpl; [lia|]. apply Z.leb_gt in E.
  destruct (is_essential_tensor (ti_name info)); [|apply IH].
  pose proof (loadTensorWithQuantization_size m (ti_name info) (ti_type info)
                (gguf_get_tensor_size info)) as Hone.
  destruct (loadTensorWithQuantization lib m _ _ _) as [ok m1]. simpl in Hone.
  destruct ok; simpl; [|lia].
  specialize (IH (k + 1) m1). simpl in IH. lia.
Qed.

Lemma create_demo_tensor_size name count m :
  (size (tensors (create_demo_tensor lib name count m)) ≤ S (size (tensors m)))%nat.
Proof.
  unfold create_demo_tensor. destruct (ggml_ctx m) as [pool|]; [|lia].
  destruct (ggml_new_tensor_1d lib pool count); simpl; [apply size_insert_le | lia].
Qed.

Lemma element_count_range ty size_ : 0 ≤ size_ → 0 ≤ element_count ty size_ ≤ 1024.
Proof.
  intros Hs. unfold element_count.
  pose proof (Z.div_pos size_ 4 Hs ltac:(lia)). pose proof (Z.div_pos size_ 2 Hs ltac:(lia)).
  pose proof (Z.div_pos size_ 8 Hs ltac:(lia)).
  destruct ty; lia.
Qed.

Lemma loadRealTensorModel_size g m0 m :
  tensors m0 = ∅ → loadRealTensorModel lib (Some g) m0 = Some m →
  (size (tensors m) ≤ 3)%nat.
Proof.
  intros H0. unfold loadRealTensorModel.
  destruct (ggml_init lib (arena_size g)); [|discriminate].
  set (mv := with_arena (load_vocabulary g (read_hyperparameters g m0)) (arena_size g)).
  assert (Hmv : tensors mv = ∅).
  { unfold mv. simpl. rewrite load_vocabulary_proj by done. exact H0. }
  pose proof (load_key_tensors_size (gguf_infos g) 0 mv) as Hk.
  destruct (load_key_tensors lib (gguf_infos g) 0 mv) as [k m1].
  cbv zeta in Hk. cbn [fst snd] in Hk.
  rewrite Hmv, map_size_empty in Hk. unfold max_tensors_to_load in Hk.
  intros [= <-]. simpl.
  destruct (k =? 0) eqn:E.
  - apply Z.eqb_eq in E.
    pose proof (create_demo_tensor_size "output.weight" 32
                  (create_demo_tensor lib "token_embd.weight" 64 m1)).
    pose proof (create_demo_tensor_size "token_embd.weight" 64 m1). lia.
  - lia.
Qed.

Lemma loadTensorWithQuantization_origin m name ty size_ :
  let r := loadTensorWithQuantization lib m name ty size_ in
  (r.1 = false → tensors r.2 = tensors m) ∧
  (∀ n, is_Some (tensor_types m !! n) → is_Some (tensor_types r.2 !! n)) ∧
  (∀ n t, tensors r.2 !! n = Some t →
          tensors m !! n = Some t ∨
          (n = name ∧ ne t = element_count ty size_ ∧ is_Some (tensor_types r.2 !! n))).
Proof.
  cbv zeta. unfold loadTensorWithQuantization.
  assert (Hty : ∀ n, is_Some (tensor_types m !! n) →
                     is_Some (<[name := ty]> (tensor_types m) !! n)).
  { intros n Hn. destruct (decide (name = n)) as [->|Hne];
      [rewrite lookup_insert_eq; eauto | rewrite lookup_insert_ne by exact Hne; exact Hn]. }
  destruct (ggml_ctx (with_tensor_type m name ty)) as [pool|]; simpl;
    [|split_and!; [reflexivity | exact Hty | auto]].
  destruct (ggml_new_tensor_1d lib pool _); simpl.
  - split_and!; [discriminate | exact Hty |].
    intros n t. destruct (decide (name = n)) as [->|Hne].
    + rewrite lookup_insert_eq. intros [= <-]. right. rewrite lookup_insert_eq. eauto.
    + rewrite lookup_insert_ne by exact Hne. auto.
  - split_and!; [reflexivity | exact Hty | auto].
Qed.

(** The tensor loop reads only entries whose name marks them as
    essential, and it records the kind of every entry it tries. *)
Lemma load_key_tensors_origin infos k m :
  let r := load_key_tensors lib infos k m in
  (r.1 = k → tensors r.2 = tensors m) ∧
  (∀ n, is_Some (tensor_types m !! n) → is_Some (tensor_types r.2 !! n)) ∧
  (∀ n t, tensors r.2 !! n = Some t →
          tensors m !! n = Some t ∨
          (is_essential_tensor n = true ∧ is_Some (tensor_types r.2 !! n) ∧
           ∃ info, info ∈ infos ∧ ti_name info = n ∧
                   ne t = element_count (ti_type info) (gguf_get_tensor_size info))).
Proof.
  cbv zeta. revert k m. induction infos as [|info rest IH]; intros k m; simpl; [auto|].
  destruct (max_tensors_to_load <=? k); simpl; [auto|].
  destruct (is_essential_tensor (ti_name info)) eqn:Ees.
  - pose proof (loadTensorWithQuantization_origin m (ti_name info) (ti_type info)
                  (gguf_get_tensor_size info)) as Hone.
    destruct (loadTensorWithQuantization lib m _ _ _) as [ok m1].
    cbv zeta in Hone. cbn [fst snd] in Hone. destruct Hone as (Hsame & Hty1 & Hor1).
    destruct ok; simpl.
    + destruct (IH (k + 1) m1) as (_ & Hty2 & Hor2).
      pose proof (load_key_tensors_size rest (k + 1) m1) as Hsz. cbv zeta in Hsz.
      split_and!.
      * intros Heq. lia.
      * intros n Hn. apply Hty2, Hty1, Hn.
      * intros n t Hn. destruct (Hor2 n t Hn) as [Hn1|(He & Hs & i & Hi & Hin & Hne)].
        -- destruct (Hor1 n t Hn1) as [?|(-> & Hne & Hs)]; [auto|].
           right. split_and!; [exact Ees | apply Hty2, Hs |].
           exists info. split; [apply list_elem_of_here | auto].
        -- right. split_and!; [exact He | exact Hs |].
           exists i. split; [apply list_elem_of_further; exact Hi | auto].
    + split_and!; [intros _; apply Hsame; reflexivity | exact Hty1 |].
      intros n t Hn. destruct (Hor1 n t Hn) as [?|(-> & Hne & Hs)]; [auto|].
      right. split_and!; [exact Ees | exact Hs |].
      exists info. split; [apply list_elem_of_here | auto].
  - destruct (IH k m) as (Hsame & Hty & Hor). split_and!; [exact Hsame | exact Hty |].
    intros n t Hn. destruct (Hor n t Hn) as [?|(He & Hs & i & Hi & Hin & Hne)]; [auto|].
    right. split_and!; [exact He | exact Hs |].
    exists i. split; [apply list_elem_of_further; exact Hi | auto].
Qed.

Lemma loadRealTensorModel_origin g m0 m :
  tensors m0 = ∅ → loadRealTensorModel lib (Some g) m0 = Some m →
  (∀ name t, tensors m !! name = Some t → demo_tensor name t) ∨
  (∀ name t, tensors m !! name = Some t →
     is_essential_tensor name = true ∧ from_directory g name t ∧
     is_Some (tensor_types m !! name)).
Proof.
  intros H0. unfold loadRealTensorModel.
  destruct (ggml_init lib (arena_size g)); [|discriminate].
  set (mv := with_arena (load_vocabulary g (read_hyperparameters g m0)) (arena_size g)).
  assert (Hmv : tensors mv = ∅).
  { unfold mv. simpl. rewrite load_vocabulary_proj by done. exact H0. }
  pose proof (load_key_tensors_origin (gguf_infos g) 0 mv) as Hk.
  destruct (load_key_tensors lib (gguf_infos g) 0 mv) as [k m1] eqn:E1.
  cbv zeta in Hk. cbn [fst snd] in Hk. destruct Hk as (Hsame & _ & Hor).
  destruct (load_key_tensors_inv lib _ _ _ _ _ _ E1 eq_refl) as ((pool1 & Hp1 & _) & _).
  intros [= <-]. simpl.
  destruct (k =? 0) eqn:E.
  - apply Z.eqb_eq in E. specialize (Hsame E). rewrite Hmv in Hsame. left.
    intros name t Hn.
    destruct (create_demo_tensor_inv lib "token_embd.weight" 64 m1 pool1 Hp1)
      as ((pool2 & Hp2 & _) & _ & _ & _ & _ & Ht2 & _).
    destruct (create_demo_tensor_inv lib "output.weight" 32 _ pool2 Hp2)
      as (_ & _ & _ & _ & _ & Ht3 & _).
    destruct (Ht3 name t Hn) as [Hn2|Hd]; [|right; exact Hd].
    destruct (Ht2 name t Hn2) as [Hn1|Hd]; [|left; exact Hd].
    rewrite Hsame, lookup_empty in Hn1. discriminate.
  - right. intros name t Hn.
    destruct (Hor name t Hn) as [Hn0|(He & Hs & info & Hi & Hin & Hne)].
    + rewrite Hmv, lookup_empty in Hn0. discriminate.
    + split_and!; [exact He | exists info; auto | exact Hs].
Qed.

End LoadedModel.

Section LoadedModelClaims.
Context {F : Type}.
Implicit Types (st : @State F).
Variables lib lib_retry : GgmlLibrary.
Variable file : ModelFile.
Variable model_path : string.

(** X22.  However large the file, a model for which [loadModel] returned
    a handle holds between one and three tensors of at most 1024 elements
    each, and it is tracked with an arena of at most 32 MB. *)
Theorem loadModel_tensor_budget st h st' :
  loadModel lib lib_retry file model_path st = (h, st') → h ≠ 0 →
  ∃ model,
    models st' !! h = Some model ∧ loaded model = true ∧
    (1 ≤ size (tensors model) ≤ 3)%nat ∧
    (∀ name t, tensors model !! name = Some t → 0 ≤ ne t ≤ 1024) ∧
    0 ≤ tensor_data_size model ≤ 32 * 1024 * 1024.
Proof.
  intros E Hh.
  destruct (loadModel_success_inv lib lib_retry file model_path st h st' E Hh)
    as (st1 & l & m0 & m & El & Hm0 & Hc & _).
  destruct (commit_model_inv _ _ _ _ Hc Hh) as (Hl & Hne & -> & ->).
  destruct (loadRealTensorModel_inv l _ _ _ El) as (g & Hg & _ & _ & _ & _ & Hs & Ht & _).
  rewrite Hg in El.
  exists m. split; [simpl; apply lookup_insert_eq|]. split; [exact Hl|].
  split_and!.
  - apply map_size_non_empty_iff in Hne. lia.
  - eapply loadRealTensorModel_size; eassumption.
  - intros name t Hn. destruct (Ht name t Hn) as [H0|[(info & _ & _ & ->)|[[_ ->]|[_ ->]]]].
    + rewrite Hm0, lookup_empty in H0. discriminate.
    + apply element_count_range. apply wrap64_range.
    + lia.
    + lia.
  - apply Hs.
  - unfold max_tensor_size in Hs. lia.
Qed.

(** X23.  Where the tensors of a loaded model come from.  Either every
    tensor is one of the two demo tensors (no tensor of the file was
    loaded), or every tensor was decoded from a directory entry whose name
    contains "token_embd" or "output.weight", with the capped element count
    of that entry, and the kind of an entry of that name is on record.
    The two never mix, and no entry with another name is ever read. *)
Theorem loadModel_tensor_origin st h st' :
  loadModel lib lib_retry file model_path st = (h, st') → h ≠ 0 →
  ∃ g model,
    file_gguf file = Some g ∧ models st' !! h = Some model ∧
    ((∀ name t, tensors model !! name = Some t → demo_tensor name t) ∨
     (∀ name t, tensors model !! name = Some t →
        is_essential_tensor name = true ∧ from_directory g name t ∧
        is_Some (tensor_types model !! name))).
Proof.
  intros E Hh.
  destruct (loadModel_success_inv lib lib_retry file model_path st h st' E Hh)
    as (st1 & l & m0 & m & El & Hm0 & Hc & _).
  destruct (commit_model_inv _ _ _ _ Hc Hh) as (_ & _ & -> & ->).
  destruct (loadRealTensorModel_inv l _ _ _ El) as (g & Hg & _).
  rewrite Hg in El.
  exists g, m. split; [exact Hg|]. split; [simpl; apply lookup_insert_eq|].
  eapply loadRealTensorModel_origin; eassumption.
Qed.

End LoadedModelClaims.

(** ** Dequantization *)

Lemma for_range_snoc (k : nat) :
  for_range (Z.of_nat (S k)) = for_range (Z.of_nat k) ++ [Z.of_nat k].
Proof.
  unfold for_range. rewrite !Nat2Z.id, seq_S, fmap_app. reflexivity.
Qed.

Section Dequantize.
Context {F : Type} `{FloatOps F}.
Variable rand_stream : nat → Z.

Lemma vset_length (v : list F) i x : length (vset v i x) = length v.
Proof. unfold vset. apply length_insert. Qed.

Lemma vset_lookup_eq (v : list F) i x :
  idx_in i v = true → vset v i x !! Z.to_nat i = Some x.
Proof.
  unfold idx_in, vset. intros [H0%Z.leb_le H1%Z.ltb_lt]%andb_true_iff.
  apply list_lookup_insert_eq. lia.
Qed.

Lemma vset_lookup_ne (v : list F) i x (j : nat) :
  0 ≤ i → Z.to_nat i ≠ j → vset v i x !! j = v !! j.
Proof. unfold vset. intros Hi Hne. apply list_lookup_insert_ne. exact Hne. Qed.

(** The state of [dst] after the first [k] iterations. *)
Lemma dequantize_prefix (src : list Z) (dst : list F) (n : Z) (k : nat) :
  0 ≤ n → n ≤ Z.of_nat (length dst) → (n + 1) / 2 ≤ Z.of_nat (length src) →
  Z.of_nat k ≤ (n + 1) / 2 →
  ∃ out,
    fold_left (λ acc p, match acc with
                        | Some dst => dequantize_pair src n dst (2 * p)
                        | None => None
                        end)
      (for_range (Z.of_nat k)) (Some dst) = Some out ∧
    length out = length dst ∧
    (∀ i, 0 ≤ i < Z.min (2 * Z.of_nat k) n →
          ∃ b, src !! Z.to_nat (i / 2) = Some b ∧
               out !! Z.to_nat i
               = Some (q4_to_float (if Z.even i then low_nibble b else high_nibble b))) ∧
    (∀ i : nat, Z.min (2 * Z.of_nat k) n ≤ Z.of_nat i → out !! i = dst !! i).
Proof.
  intros Hn Hdst Hsrc. induction k as [|k IH]; intros Hk.
  - exists dst. split_and!; [reflexivity | reflexivity | intros i Hi; lia | reflexivity].
  - destruct (IH ltac:(lia)) as (out & Hfold & Hlen & Hdone & Hrest).
    rewrite for_range_snoc, fold_left_app, Hfold. simpl.
    assert (Hlt : 2 * Z.of_nat k < n).
    { assert (Z.of_nat k < (n + 1) / 2) by lia.
      pose proof (Z.mul_div_le (n + 1) 2 ltac:(lia)). lia. }
    unfold dequantize_pair.
    replace (2 * Z.of_nat k / 2) with (Z.of_nat k)
      by (rewrite Z.mul_comm, Z.div_mul; lia).
    rewrite Nat2Z.id.
    destruct (src !! k) as [b|] eqn:Eb;
      [|apply lookup_ge_None in Eb; lia].
    assert (Hin1 : idx_in (2 * Z.of_nat k) out = true).
    { unfold idx_in. apply andb_true_iff. split; [apply Z.leb_le | apply Z.ltb_lt]; lia. }
    rewrite Hin1.
    set (out1 := vset out (2 * Z.of_nat k) (q4_to_float (low_nibble b))).
    assert (Hlen1 : length out1 = length dst) by (unfold out1; rewrite vset_length; exact Hlen).
    assert (Hlow : out1 !! Z.to_nat (2 * Z.of_nat k) = Some (q4_to_float (low_nibble b)))
      by (apply vset_lookup_eq, Hin1).
    assert (Hsrc_at : ∀ i, i = 2 * Z.of_nat k ∨ i = 2 * Z.of_nat k + 1 →
                           src !! Z.to_nat (i / 2) = Some b).
    { intros i [->| ->].
      - rewrite Z.mul_comm, Z.div_mul, Nat2Z.id by lia. exact Eb.
      - rewrite Z.mul_comm, Z.div_add_l, Z.div_small, Z.add_0_r, Nat2Z.id by lia. exact Eb. }
    assert (Heven : Z.even (2 * Z.of_nat k) = true) by (rewrite Z.even_mul; reflexivity).
    assert (Hodd : Z.even (2 * Z.of_nat k + 1) = false).
    { rewrite Z.even_add, Heven. reflexivity. }
    destruct (2 * Z.of_nat k + 1 <? n) eqn:E2; [apply Z.ltb_lt in E2 | apply Z.ltb_ge in E2].
    + assert (Hin2 : idx_in (2 * Z.of_nat k + 1) out1 = true).
      { unfold idx_in. apply andb_true_iff. split; [apply Z.leb_le | apply Z.ltb_lt]; lia. }
      rewrite Hin2. eexists. split_and!; [reflexivity | rewrite vset_length; exact Hlen1 | |].
      * intros i Hi.
        destruct (decide (i = 2 * Z.of_nat k + 1)) as [->|Hne1].
        { exists b. split; [apply Hsrc_at; auto|]. rewrite Hodd. apply vset_lookup_eq, Hin2. }
        rewrite vset_lookup_ne by lia.
        destruct (decide (i = 2 * Z.of_nat k)) as [->|Hne0].
        { exists b. split; [apply Hsrc_at; auto|]. rewrite Heven. exact Hlow. }
        unfold out1. rewrite vset_lookup_ne by lia. apply Hdone. lia.
      * intros i Hi. rewrite vset_lookup_ne by lia. unfold out1.
        rewrite vset_lookup_ne by lia. apply Hrest. lia.
    + eexists. split_and!; [reflexivity | exact Hlen1 | |].
      * intros i Hi.
        destruct (decide (i = 2 * Z.of_nat k)) as [->|Hne0].
        { exists b. split; [apply Hsrc_at; auto|]. rewrite Heven. exact Hlow. }
        unfold out1. rewrite vset_lookup_ne by lia. apply Hdone. lia.
      * intros i Hi. unfold out1. rewrite vset_lookup_ne by lia. apply Hrest. lia.
Qed.

(** The whole loop, on buffers that are large enough. *)
Lemma dequantizeQ4KM_elements (src : list Z) (dst : list F) (n : Z) :
  0 ≤ n < INT_MAX → n ≤ Z.of_nat (length dst) → (n + 1) / 2 ≤ Z.of_nat (length src) →
  ∃ out,
    dequantizeQ4KM src dst n = Some out ∧
    length out = length dst ∧
    (∀ i, 0 ≤ i < n →
          ∃ b, src !! Z.to_nat (i / 2) = Some b ∧
               out !! Z.to_nat i
               = Some (q4_to_float (if Z.even i then low_nibble b else high_nibble b))) ∧
    (∀ i : nat, n ≤ Z.of_nat i → out !! i = dst !! i).
Proof.
  intros Hn Hdst Hsrc. unfold dequantizeQ4KM.
  destruct (INT_MAX <=? n) eqn:E; [apply Z.leb_le in E; lia|].
  pose proof (Z.div_pos (n + 1) 2 ltac:(lia) ltac:(lia)) as Hq.
  destruct (dequantize_prefix src dst n (Z.to_nat ((n + 1) / 2)) ltac:(lia) Hdst Hsrc
              ltac:(lia)) as (out & Hfold & Hlen & Hdone & Hrest).
  rewrite Z2Nat.id in Hfold, Hdone, Hrest by exact Hq.
  assert (Hmin : Z.min (2 * ((n + 1) / 2)) n = n).
  { pose proof (Z.div_mod (n + 1) 2 ltac:(lia)).
    pose proof (Z.mod_pos_bound (n + 1) 2 ltac:(lia)). lia. }
  rewrite Hmin in Hdone, Hrest.
  exists out. auto.
Qed.

(** X24.  [dequantizeQ4KM] on buffers that are large enough ([dst] holds
    [n] floats, [src] holds a byte for every two of them): the call is
    defined, element [i] of the result is the level of a 4-bit value of
    byte [i / 2], the lower bits for an even [i] and the upper bits for
    an odd one (for an odd [n] the upper bits of the last byte are not
    used), and nothing beyond the first [n] elements is written. *)
Theorem dequantizeQ4KM_spec (src : list Z) (dst : list F) (n : Z) :
  0 ≤ n < INT_MAX → n ≤ Z.of_nat (length dst) → (n + 1) / 2 ≤ Z.of_nat (length src) →
  ∃ out,
    dequantizeQ4KM src dst n = Some out ∧
    length out = length dst ∧
    (∀ i, 0 ≤ i < n →
          ∃ b, src !! Z.to_nat (i / 2) = Some b ∧
               out !! Z.to_nat i
               = Some (q4_to_float (if Z.even i then low_nibble b else high_nibble b))) ∧
    (∀ i : nat, n ≤ Z.of_nat i → out !! i = dst !! i).
Proof. apply dequantizeQ4KM_elements. Qed.



End Dequantize.

(** ** Batch generation *)

Section Batch.
Context {F : Type} `{FloatOps F}.
Variable rand_stream : nat → Z.
Implicit Types (ctx : @RealInferenceContext F).

Lemma best_logit_range model (logits : list F) :
  logits ≠ [] →
  ∃ best, best_logit model logits = Some best ∧ 0 ≤ best < Z.of_nat (length logits).
Proof.
  intros Hne. unfold best_logit. destruct logits as [|l0 rest]; [congruence|].
  set (logits := l0 :: rest).
  set (bound := Z.min (n_vocab model) (Z.of_nat (length logits))).
  eexists. split; [reflexivity|].
  assert (Hfold : ∀ l (acc : Z * F),
            0 ≤ acc.1 < Z.of_nat (length logits) →
            Forall (λ j, 0 ≤ j < Z.of_nat (length logits)) l →
            0 ≤ (fold_left (λ best j,
                    if f_ltb best.2 (vnth logits j) then (j, vnth logits j) else best)
                  l acc).1 < Z.of_nat (length logits)).
  { induction l as [|j l IH]; intros acc Hacc Hall; simpl; [exact Hacc|].
    apply Forall_cons in Hall as [Hj Hall].
    apply IH; [|exact Hall]. destruct (f_ltb acc.2 (vnth logits j)); [exact Hj | exact Hacc]. }
  apply Hfold; [simpl; lia|].
  apply Forall_forall. intros j (k & -> & Hk%for_range_elem)%list_elem_of_fmap.
  unfold bound in Hk. lia.
Qed.

(** The sampling loop on a non-empty logits vector: it returns between
    one and [rounds] ids, each an index into the logits, and an
    end-of-sequence id can only be the last one. *)
Lemma greedy_tokens_spec rounds model (logits : list F) :
  logits ≠ [] → (0 < rounds)%nat →
  ∃ ids, greedy_tokens rounds model logits = Some ids ∧
         (1 ≤ length ids ≤ rounds)%nat ∧
         Forall (λ id, 0 ≤ id < Z.of_nat (length logits)) ids ∧
         (∀ i id, ids !! i = Some id → id = TOKEN_EOS → S i = length ids) ∧
         ((length ids < rounds)%nat → last ids = Some TOKEN_EOS).
Proof.
  revert logits. induction rounds as [|rounds IH]; intros logits Hne Hpos; [lia|].
  destruct (best_logit_range model logits Hne) as (best & Hbest & Hrange).
  cbn [greedy_tokens]. rewrite Hbest.
  set (scaled := _ <$> logits).
  assert (Hlen : length scaled = length logits) by (unfold scaled; rewrite length_fmap; reflexivity).
  destruct (best =? 3) eqn:E3.
  - apply Z.eqb_eq in E3. exists [best]. split_and!; simpl; try reflexivity; try lia.
    + constructor; [exact Hrange | constructor].
    + intros [|i] id; [reflexivity | discriminate].
    + intros _. rewrite E3. reflexivity.
  - apply Z.eqb_neq in E3. destruct rounds as [|rounds'].
    + exists [best]. split_and!; simpl; try reflexivity; try lia.
      * constructor; [exact Hrange | constructor].
      * intros [|i] id; [reflexivity | discriminate].
    + destruct (IH scaled) as (ids & -> & Hn & Hall & Hlast & Hshort);
        [intros Hnil; apply (f_equal length) in Hnil; rewrite Hlen in Hnil;
         destruct logits; [congruence | discriminate] | lia |].
      exists (best :: ids). split_and!; simpl; try reflexivity; try lia.
      * constructor; [exact Hrange|]. rewrite <- Hlen. exact Hall.
      * intros [|i] id Hi Heq; simpl in Hi.
        -- injection Hi as ->. unfold TOKEN_EOS in Heq. lia.
        -- f_equal. eapply Hlast; eassumption.
      * intros Hlt. destruct ids as [|id0 ids']; [simpl in Hn; lia|].
        change (last (best :: id0 :: ids')) with (last (id0 :: ids')).
        apply Hshort. simpl in *. lia.
Qed.

(** X26.  Batch generation, [generateResponsePhase3Original], for a live
    model.  It returns exactly when the forward pass is defined on the
    encoded input and the vocabulary is not empty (with no logits the scan
    for the best token reads [logits[0]] of an empty vector), and it
    throws exactly when the forward pass does, the encoded input being
    stored in the context by then.  When it returns, the context holds the
    encoded input and the [vocab_size] logits, its streaming session is
    untouched, and the reply is the decoration of the decoded text of
    between 1 and 15 ids, each an index into the logits, with an
    end-of-sequence id nowhere but at the end. *)
Theorem generateResponsePhase3Original_spec input ctx model r :
  let tokens := tokenizeAdvanced input model in
  let outcome := generateResponsePhase3Original rand_stream input ctx (Some model) r in
  ((∃ result, outcome = Completed result) ↔
   forwardPass_defined tokens model = true ∧ 0 < n_vocab model) ∧
  ((∃ ctx' r', outcome = Thrown ctx' r') ↔ forwardPass_throws tokens model = true) ∧
  (∀ ctx' r', outcome = Thrown ctx' r' → ctx' = store_input ctx tokens ∧ r' = r) ∧
  ∀ reply ctx' r',
    outcome = Completed (reply, ctx', r') →
    input_tokens ctx' = tokens ∧
    Z.of_nat (length (logits ctx')) = n_vocab model ∧
    r' = (r + Z.to_nat (n_vocab model))%nat ∧
    is_streaming ctx' = is_streaming ctx ∧
    generated_tokens ctx' = generated_tokens ctx ∧
    full_context_tokens ctx' = full_context_tokens ctx ∧
    tokens_generated ctx' = tokens_generated ctx ∧
    ∃ ids, reply = enhance_batch_response model input (decode_tokens model ids) ∧
           (1 ≤ length ids ≤ 15)%nat ∧
           Forall (λ id, 0 ≤ id < n_vocab model) ids ∧
           (∀ i id, ids !! i = Some id → id = TOKEN_EOS → S i = length ids).
Proof.
  intros tokens outcome. subst outcome. unfold generateResponsePhase3Original. fold tokens.
  destruct (forwardPass rand_stream tokens model r) as [[output r1]|] eqn:Efp.
  - destruct (forwardPass_inv _ _ _ _ _ _ Efp) as (Hd & Hlen & ->).
    assert (Hnt : forwardPass_throws tokens model = false).
    { destruct (forwardPass_throws tokens model) eqn:Et; [|reflexivity].
      apply forwardPass_throws_undefined in Et. congruence. }
    destruct output as [|l0 output'].
    + simpl in Hlen. simpl. split_and!.
      * split; [intros [x Hx]; discriminate | intros [_ Hv]; lia].
      * split; [intros (c & r0 & Hx); discriminate | congruence].
      * intros c r0 Habs. discriminate.
      * intros reply ctx' r' Habs. discriminate.
    + destruct (greedy_tokens_spec 15 model (l0 :: output') ltac:(discriminate) ltac:(lia))
        as (ids & Hids & Hn & Hall & Hlast & _).
      rewrite Hids. split_and!.
      * split; [intros _; split; [exact Hd | simpl in Hlen; lia] | intros _; eauto].
      * split; [intros (c & r0 & Hx); discriminate | congruence].
      * intros c r0 Habs. discriminate.
      * intros reply ctx' r' [= <- <- <-]. cbn [store_logits store_input input_tokens logits
          is_streaming generated_tokens full_context_tokens tokens_generated].
        split_and!; try reflexivity; try lia.
        exists ids. split_and!; try reflexivity; try lia; try assumption.
        rewrite <- Hlen. exact Hall.
  - assert (Hnd : forwardPass_defined tokens model = false).
    { unfold forwardPass in Efp. destruct (forwardPass_defined tokens model); [discriminate|].
      reflexivity. }
    destruct (forwardPass_throws tokens model) eqn:Et.
    + split_and!.
      * split; [intros [x Hx]; discriminate | intros [Hd _]; congruence].
      * split; [reflexivity | intros _; eauto].
      * intros c r0 [= <- <-]. auto.
      * intros reply ctx' r' Habs. discriminate.
    + split_and!.
      * split; [intros [x Hx]; discriminate | intros [Hd _]; congruence].
      * split; [intros (c & r0 & Hx); discriminate | discriminate].
      * intros c r0 Habs. discriminate.
      * intros reply ctx' r' Habs. discriminate.
Qed.

End Batch.

(** ** Cleanup and the sessions in progress *)

Section Cleanup.
Context {F : Type} `{FloatOps F}.
Implicit Types (st : @State F) (c : @RealInferenceContext F).

Lemma trim_context_idemp c : trim_context (trim_context c) = trim_context c.
Proof.
  unfold trim_context; simpl. f_equal.
  destruct (1024 <? length (full_context_tokens c))%nat eqn:E; [|rewrite E; reflexivity].
  apply Nat.ltb_lt in E.
  assert (Hlen : length (drop (length (full_context_tokens c) - 512) (full_context_tokens c))
                 = 512%nat) by (rewrite length_drop; lia).
  rewrite Hlen. reflexivity.
Qed.

(** X27.  What [forceCleanup] does to the sessions.  It deletes the idle
    contexts and nothing else: models, handle counter and streaming
    contexts stay.  A streaming context keeps its session (model, input,
    generated tokens, counter and bound) and loses its cached
    activations; its running context is kept whole up to 1024 tokens and
    cut to its last 512 tokens beyond.  A second cleanup changes
    nothing. *)
Theorem forceCleanup_keeps_sessions st :
  let st' := forceCleanup st in
  models st' = models st ∧ next_id st' = next_id st ∧
  (∀ k c, contexts st !! k = Some c → is_streaming c = false → contexts st' !! k = None) ∧
  (∀ k, contexts st !! k = None → contexts st' !! k = None) ∧
  (∀ k c, contexts st !! k = Some c → is_streaming c = true →
     ∃ c', contexts st' !! k = Some c' ∧
           ctx_model c' = ctx_model c ∧ is_streaming c' = true ∧
           input_tokens c' = input_tokens c ∧ generated_tokens c' = generated_tokens c ∧
           tokens_generated c' = tokens_generated c ∧
           max_tokens_to_generate c' = max_tokens_to_generate c ∧
           embeddings c' = [] ∧ logits c' = [] ∧
           ((length (full_context_tokens c) ≤ 1024)%nat →
            full_context_tokens c' = full_context_tokens c) ∧
           ((1024 < length (full_context_tokens c))%nat →
            length (full_context_tokens c') = 512%nat ∧
            ∃ older, full_context_tokens c = older ++ full_context_tokens c')) ∧
  forceCleanup st' = st'.
Proof.
  intros st'. subst st'. unfold forceCleanup, forceMemoryCleanup. simpl.
  assert (Hkeep : ∀ k c, contexts st !! k = Some c → is_streaming c = true →
            (trim_context <$> filter (λ kv, is_streaming kv.2 = true) (contexts st)) !! k
            = Some (trim_context c)).
  { intros k c Hc Hs. rewrite lookup_fmap.
    assert (filter (λ kv, is_streaming kv.2 = true) (contexts st) !! k = Some c) as ->
      by (apply map_lookup_filter_Some; auto).
    reflexivity. }
  split_and!; try reflexivity.
  - intros k c Hc Hs. rewrite lookup_fmap.
    rewrite (proj2 (map_lookup_filter_None _ _ _)); [reflexivity|].
    right. intros c' Hc'. simpl. congruence.
  - intros k Hc. rewrite lookup_fmap.
    rewrite (proj2 (map_lookup_filter_None _ _ _)); [reflexivity|]. left. exact Hc.
  - intros k c Hc Hs. exists (trim_context c). split; [apply Hkeep; assumption|].
    unfold trim_context; simpl. split_and!; try reflexivity; try assumption.
    + intros Hle. apply Nat.ltb_ge in Hle. rewrite Hle. reflexivity.
    + intros Hgt. pose proof Hgt as Hb. apply Nat.ltb_lt in Hb. rewrite Hb.
      split; [rewrite length_drop; lia|].
      exists (take (length (full_context_tokens c) - 512) (full_context_tokens c)).
      symmetry. apply take_drop.
  - f_equal. apply map_eq. intros k. rewrite lookup_fmap.
    destruct ((trim_context <$> filter (λ kv, is_streaming kv.2 = true) (contexts st)) !! k)
      as [c'|] eqn:E.
    + rewrite lookup_fmap in E.
      destruct (filter _ (contexts st) !! k) as [c|] eqn:Ef; [|discriminate].
      injection E as <-.
      apply map_lookup_filter_Some in Ef as [Hc Hs]. simpl in Hs.
      assert (filter (λ kv, is_streaming kv.2 = true)
                (trim_context <$> filter (λ kv, is_streaming kv.2 = true) (contexts st)) !! k
              = Some (trim_context c)) as ->
        by (apply map_lookup_filter_Some; split; [apply Hkeep; assumption | exact Hs]).
      simpl. rewrite trim_context_idemp. reflexivity.
    + rewrite (proj2 (map_lookup_filter_None _ _ _)); [reflexivity|]. left. exact E.
Qed.

End Cleanup.

(** ** Handles are never reused *)

Section Retired.
Context {F : Type} `{FloatOps F}.
Variable rand_stream : nat → Z.
Implicit Types (st : @State F) (ctx : @RealInferenceContext F).

Lemma handles_retired_refl st : handles_retired st st.
Proof. split; [lia | auto]. Qed.

Lemma handles_retired_trans st1 st2 st3 :
  handles_retired st1 st2 → handles_retired st2 st3 → handles_retired st1 st3.
Proof.
  intros [Hn1 H1] [Hn2 H2]. split; [lia|]. intros k Hk.
  destruct (H1 k Hk) as [Hc1 Hm1]. destruct (H2 k ltac:(lia)) as [Hc2 Hm2]. auto.
Qed.

Lemma forceMemoryCleanup_retired st : handles_retired st (forceMemoryCleanup st).
Proof.
  split; [simpl; lia|]. intros k _. split; [|auto]. simpl. intros Hc.
  rewrite lookup_fmap, (proj2 (map_lookup_filter_None _ _ _)); [reflexivity | left; exact Hc].
Qed.

Lemma recoverFromMemoryError_retired st : handles_retired st (recoverFromMemoryError st).2.
Proof.
  unfold recoverFromMemoryError.
  destruct (checkMemoryHealth (forceMemoryCleanup st)); simpl;
    [apply forceMemoryCleanup_retired|].
  split; [simpl; lia|]. intros k _. simpl. split; [intros _; apply lookup_empty|].
  intros Hm. apply map_lookup_filter_None. left. exact Hm.
Qed.

Lemma governor_gate_retired st :
  handles_retired st
    (if checkMemoryHealth st then (true, st) else recoverFromMemoryError st).2.
Proof.
  destruct (checkMemoryHealth st);
    [apply handles_retired_refl | apply recoverFromMemoryError_retired].
Qed.

Lemma commit_model_retired st m : handles_retired st (commit_model st m).2.
Proof.
  unfold commit_model. destruct (negb (loaded m) || _); simpl; [apply handles_retired_refl|].
  split; [simpl; lia|]. intros k Hk. simpl. split; [auto|].
  intros Hm. rewrite lookup_insert_ne by lia. exact Hm.
Qed.

Lemma with_context_retired st context_id c0 c :
  contexts st !! context_id = Some c0 → handles_retired st (with_context st context_id c).
Proof.
  intros Hc. split; [simpl; lia|]. intros k _. simpl. split; [|auto].
  intros Hk. rewrite lookup_insert_ne by congruence. exact Hk.
Qed.

Lemma loadModel_retired lib lib_retry file model_path st :
  handles_retired st (loadModel lib lib_retry file model_path st).2.
Proof.
  unfold loadModel. pose proof (governor_gate_retired st) as Hg.
  destruct (if checkMemoryHealth st then (true, st) else recoverFromMemoryError st)
    as [healthy st0]. simpl in Hg.
  destruct healthy; simpl; [|exact Hg].
  destruct (file_is_open file); simpl; [|exact Hg].
  destruct (file_seek_fails file); simpl; [exact Hg|].
  destruct (wrap64 (file_tellg file) <=? 0); [exact Hg|].
  destruct (MAX_MODEL_SIZE <? wrap64 (file_tellg file)); [exact Hg|].
  destruct (loadRealTensorModel lib _ _) as [m|].
  { eapply handles_retired_trans; [exact Hg | apply commit_model_retired]. }
  pose proof (recoverFromMemoryError_retired st0) as Hr.
  destruct (recoverFromMemoryError st0) as [recovered st2]. simpl in Hr.
  assert (Hg2 : handles_retired st st2) by (eapply handles_retired_trans; eassumption).
  destruct recovered; [|exact Hg2].
  destruct (loadRealTensorModel lib_retry _ _) as [m|]; [|exact Hg2].
  eapply handles_retired_trans; [exact Hg2 | apply commit_model_retired].
Qed.

Lemma createContext_retired lib model_id st h st' :
  createContext lib model_id st = Some (h, st') → handles_retired st st'.
Proof.
  unfold createContext.
  destruct (models st !! model_id) as [model0|];
    [|intros [= _ <-]; apply handles_retired_refl].
  destruct (negb (loaded model0)); [intros [= _ <-]; apply handles_retired_refl|].
  pose proof (governor_gate_retired st) as Hg.
  destruct (if checkMemoryHealth st then (true, st) else recoverFromMemoryError st)
    as [healthy st0]. simpl in Hg.
  destruct healthy; simpl; [|intros [= _ <-]; exact Hg].
  destruct (models st0 !! model_id) as [model|]; [|discriminate].
  set (gate2 := if MAX_MEMORY_LIMIT <? size_add (getTotalMemoryUsage st0) WORK_BUFFER_SIZE
                then _ else _).
  assert (Hg2 : handles_retired st (gate2.2 : @State F)).
  { unfold gate2. destruct (MAX_MEMORY_LIMIT <? _); simpl; [|exact Hg].
    eapply handles_retired_trans; [exact Hg | apply forceMemoryCleanup_retired]. }
  destruct gate2 as [enough st1]. simpl in Hg2.
  destruct enough; simpl; [|intros [= _ <-]; exact Hg2].
  set (gate3 := if ggml_init lib WORK_BUFFER_SIZE then _ else _).
  assert (Hg3 : handles_retired st (gate3.2 : @State F)).
  { unfold gate3. destruct (ggml_init lib WORK_BUFFER_SIZE); simpl; [exact Hg2|].
    eapply handles_retired_trans; [exact Hg2 | apply forceMemoryCleanup_retired]. }
  destruct gate3 as [created st2]. simpl in Hg3.
  destruct created; simpl; [|intros [= _ <-]; exact Hg3].
  intros [= _ <-]. eapply handles_retired_trans; [exact Hg3|].
  split; [simpl; lia|]. intros k Hk. simpl. split; [|auto].
  intros Hc. rewrite lookup_insert_ne by lia. exact Hc.
Qed.

Lemma startStreaming_retired context_id input max_tokens st ok st' :
  startStreaming context_id input max_tokens st = Some (ok, st') → handles_retired st st'.
Proof.
  unfold startStreaming.
  destruct (contexts st !! context_id) as [ctx0|];
    [|intros [= _ <-]; apply handles_retired_refl].
  destruct (negb (initialized ctx0)); [intros [= _ <-]; apply handles_retired_refl|].
  destruct (is_streaming ctx0); [intros [= _ <-]; apply handles_retired_refl|].
  pose proof (governor_gate_retired st) as Hg.
  destruct (if checkMemoryHealth st then (true, st) else recoverFromMemoryError st)
    as [healthy st0]. simpl in Hg.
  destruct healthy; simpl; [|intros [= _ <-]; exact Hg].
  destruct ((max_tokens <=? 0) || (2048 <? max_tokens)); [intros [= _ <-]; exact Hg|].
  destruct ((_ =? 0) || _); [intros [= _ <-]; exact Hg|].
  destruct (contexts st0 !! context_id) as [ctx|] eqn:Ec; [|discriminate].
  destruct (models st0 !! ctx_model ctx); [|discriminate].
  unfold startStreamingInference. intros [= _ <-].
  eapply handles_retired_trans; [exact Hg | eapply with_context_retired; exact Ec].
Qed.

Lemma getNextStreamingToken_retired context_id st r token st' r' :
  getNextStreamingToken rand_stream context_id st r = Some (token, st', r') →
  handles_retired st st'.
Proof.
  unfold getNextStreamingToken.
  destruct (contexts st !! context_id) as [ctx|] eqn:Ec;
    [|intros [= _ <- _]; apply handles_retired_refl].
  destruct (negb (initialized ctx)); [intros [= _ <- _]; apply handles_retired_refl|].
  destruct (negb (is_streaming ctx)); [intros [= _ <- _]; apply handles_retired_refl|].
  destruct (generateNextStreamingToken _ _ _ _) as [[[tk ctx'] r1]|].
  - intros [= _ <- _]. eapply with_context_retired; exact Ec.
  - destruct (generateNextStreamingToken_throws _ _); [|discriminate].
    intros [= _ <- _]. eapply with_context_retired; exact Ec.
Qed.

Lemma generateText_retired context_id input max_tokens st r reply st' r' :
  generateText rand_stream context_id input max_tokens st r = Some (reply, st', r') →
  handles_retired st st'.
Proof.
  unfold generateText.
  destruct (contexts st !! context_id) as [ctx0|];
    [|intros [= _ <- _]; apply handles_retired_refl].
  destruct (negb (initialized ctx0)); [intros [= _ <- _]; apply handles_retired_refl|].
  destruct (models st !! ctx_model ctx0) as [model0|]; [|discriminate].
  destruct (negb (loaded model0)); [intros [= _ <- _]; apply handles_retired_refl|].
  pose proof (governor_gate_retired st) as Hg.
  destruct (if checkMemoryHealth st then (true, st) else recoverFromMemoryError st)
    as [healthy st0]. simpl in Hg.
  destruct healthy; cbn [negb]; [|intros [= _ <- _]; exact Hg].
  destruct ((max_tokens <=? 0) || (2048 <? max_tokens)); [intros [= _ <- _]; exact Hg|].
  destruct (Z.of_nat (String.length input) =? 0); [intros [= _ <- _]; exact Hg|].
  destruct (8192 <? Z.of_nat (String.length input)); [intros [= _ <- _]; exact Hg|].
  destruct (contexts st0 !! context_id) as [ctx|] eqn:Ec; [|discriminate].
  destruct (generateResponsePhase3Streaming _ _ _ _ _ _) as [[[resp ctx'] r1]|ctx' r1|];
    [| |discriminate].
  - intros [= _ <- _].
    eapply handles_retired_trans; [exact Hg | eapply with_context_retired; exact Ec].
  - pose proof (recoverFromMemoryError_retired (with_context st0 context_id ctx')) as Hr.
    destruct (recoverFromMemoryError (with_context st0 context_id ctx')) as [recovered st2].
    intros [= _ <- _].
    eapply handles_retired_trans; [exact Hg|].
    eapply handles_retired_trans; [eapply with_context_retired; exact Ec | exact Hr].
Qed.

Lemma bridge_call_retired st st' : bridge_call rand_stream st st' → handles_retired st st'.
Proof.
  intros Hcall. destruct Hcall.
  - apply loadModel_retired.
  - eapply createContext_retired; eassumption.
  - eapply generateText_retired; eassumption.
  - split; [simpl; lia|]. intros k _. simpl. split; [|auto].
    intros Hc. apply lookup_delete_None. auto.
  - unfold freeModel. destruct (models st !! model_id); [|apply handles_retired_refl].
    destruct (model_in_use model_id st); [apply handles_retired_refl|].
    split; [simpl; lia|]. intros k _. simpl. split; [auto|].
    intros Hm. apply lookup_delete_None. auto.
  - eapply startStreaming_retired; eassumption.
  - eapply getNextStreamingToken_retired; eassumption.
  - unfold stopStreaming. destruct (contexts st !! context_id) as [c|] eqn:Ec;
      [|apply handles_retired_refl].
    eapply with_context_retired; exact Ec.
  - apply forceMemoryCleanup_retired.
  - apply recoverFromMemoryError_retired.
Qed.

(** X28.  Handles are never reused.  A handle below the handle counter
    that designates no context stays without a context through every
    later sequence of calls (a handle that [freeContext] or a memory
    recovery has retired, the failure value 0, a model handle), and every
    entry point that takes a context handle rejects it without effect.
    Likewise a handle below the counter that designates no model never
    designates one again: [createContext] fails on it and [freeModel]
    ignores it. *)
Theorem retired_handles_stay_dead st st' h :
  rtc (bridge_call rand_stream) st st' → h < next_id st →
  (contexts st !! h = None →
   contexts st' !! h = None ∧
   (∀ input max_tokens r,
      startStreaming h input max_tokens st' = Some (false, st') ∧
      getNextStreamingToken rand_stream h st' r = Some (EmptyString, st', r) ∧
      generateText rand_stream h input max_tokens st' r = Some (EmptyString, st', r)) ∧
   LlamaCppPlugin_isStreamingComplete h st' = true ∧
   stopStreaming h st' = st') ∧
  (models st !! h = None →
   models st' !! h = None ∧
   (∀ lib, createContext lib h st' = Some (0, st')) ∧
   freeModel h st' = st').
Proof.
  intros Hcalls Hh.
  assert (Hret : handles_retired st st').
  { clear Hh. induction Hcalls as [s|s1 s2 s3 Hcall _ IH]; [apply handles_retired_refl|].
    eapply handles_retired_trans; [apply bridge_call_retired; exact Hcall | exact IH]. }
  destruct Hret as [_ Hret]. destruct (Hret h Hh) as [Hc Hm]. split.
  - intros Hnone. specialize (Hc Hnone). split; [exact Hc|].
    split_and!.
    + intros input max_tokens r. split_and!.
      * unfold startStreaming. rewrite Hc. reflexivity.
      * unfold getNextStreamingToken. rewrite Hc. reflexivity.
      * unfold generateText. rewrite Hc. reflexivity.
    + unfold LlamaCppPlugin_isStreamingComplete. rewrite Hc. reflexivity.
    + unfold stopStreaming. rewrite Hc. reflexivity.
  - intros Hnone. specialize (Hm Hnone). split; [exact Hm|]. split.
    + intros lib. unfold createContext. rewrite Hm. reflexivity.
    + unfold freeModel. rewrite Hm. reflexivity.
Qed.

End Retired.

(** ** Worked examples *)

(** The fixtures are registries that sequences of calls produce. *)

Lemma bridge_reachable_step rand_stream (st st' : @State Z) :
  bridge_reachable rand_stream st → bridge_call rand_stream st st' →
  bridge_reachable rand_stream st'.
Proof. intros Hr Hcall. eapply rtc_r; eassumption. Qed.

Lemma loadModel_reachable rand_stream lib lib_retry file model_path (st : @State Z) :
  bridge_reachable rand_stream st →
  bridge_reachable rand_stream (loadModel lib lib_retry file model_path st).2.
Proof. intros Hr. eapply bridge_reachable_step; [exact Hr | apply call_loadModel]. Qed.

Lemma loaded_models_reachable rand_stream n :
  bridge_reachable rand_stream (loaded_models n).
Proof.
  induction n as [|n IH]; [apply rtc_refl|].
  change (loaded_models (S n)) with (example_load (loaded_models n)).2.
  apply loadModel_reachable, IH.
Qed.

Lemma example_create_reachable rand_stream model_id (st : @State Z) :
  bridge_reachable rand_stream st → bridge_reachable rand_stream (example_create model_id st).
Proof.
  intros Hr. unfold example_create.
  destruct (createContext example_lib model_id st) as [[h st']|] eqn:E; [|exact Hr].
  eapply bridge_reachable_step; [exact Hr | eapply call_createContext; exact E].
Qed.


Lemma crowded_state_reachable rand_stream : bridge_reachable rand_stream crowded_state.
Proof.
  unfold crowded_state, example_load.
  apply loadModel_reachable. do 2 apply example_create_reachable.
  apply loaded_models_reachable.
Qed.

Lemma serving_state_reachable rand_stream : bridge_reachable rand_stream serving_state.
Proof.
  unfold serving_state. apply example_create_reachable, loadModel_reachable, rtc_refl.
Qed.


Lemma negative_embd_idle_reachable rand_stream :
  bridge_reachable rand_stream negative_embd_idle.
Proof.
  unfold negative_embd_idle.
  do 2 apply example_create_reachable. apply loadModel_reachable, rtc_refl.
Qed.

(** *** The tokenizer *)

Lemma tokenizeAdvanced_separator_witness :
  tokenizeAdvanced "Hello, world" (model_of_file example_file)
  = tokenizeAdvanced "Hello" (model_of_file example_file)
    ++ separator_tokens (model_of_file example_file) ","
    ++ drop 1 (tokenizeAdvanced " world" (model_of_file example_file)).
Proof.
  apply (tokenizeAdvanced_separator "Hello" " world" "," (model_of_file example_file)).
  reflexivity.
Defined.

Lemma tokenizeAdvanced_known_word_witness :
  tokenizeAdvanced "Hello" (model_of_file example_file) = [TOKEN_BOS; 4].
Proof.
  apply tokenizeAdvanced_known_word.
  - discriminate.
  - reflexivity.
  - vm_compute. reflexivity.
Defined.

(** *** The vocabulary *)

Lemma loadModel_vocabulary_tables_witness :
  ∃ model,
    models (example_load initial_state).2 !! 1 = Some model ∧
    length (vocab model) = 8%nat ∧
    id_to_token model !! 4 = Some "hello".
Proof.
  destruct (loadModel_vocabulary_tables example_lib example_lib example_file "model.gguf"
              (initial_state : @State Z) 1 (example_load initial_state).2
              example_gguf example_tokens)
    as (model & Hm & Hk).
  - apply pair_from_fst. reflexivity.
  - discriminate.
  - reflexivity.
  - reflexivity.
  - assert (Hn : n_vocab <$> Some model = Some 8) by (rewrite <- Hm; reflexivity).
    injection Hn as Hn.
    cbv zeta in Hk. rewrite Hn in Hk. destruct Hk as (Hlen & Hid & _).
    exists model. split; [exact Hm|]. split; [exact Hlen|].
    exact (Hid 4 ltac:(vm_compute; split; [discriminate | reflexivity])).
Defined.

Lemma loadModel_basic_vocabulary_witness :
  ∃ model,
    models (loadModel example_lib example_lib plain_file "model.gguf"
              (initial_state : @State Z)).2 !! 1 = Some model ∧
    n_vocab model = 64 ∧ length (vocab model) = 67%nat.
Proof.
  destruct (loadModel_basic_vocabulary example_lib example_lib plain_file "model.gguf"
              (initial_state : @State Z) 1
              (loadModel example_lib example_lib plain_file "model.gguf" initial_state).2
              plain_gguf)
    as (model & Hm & Hk).
  - apply pair_from_fst. reflexivity.
  - discriminate.
  - reflexivity.
  - reflexivity.
  - assert (Hn : n_vocab <$> Some model = Some 64) by (rewrite <- Hm; reflexivity).
    injection Hn as Hn.
    rewrite Hn in Hk. destruct (Hk ltac:(vm_compute; discriminate)) as (Hlen & _).
    exists model. split; [exact Hm|]. split; [exact Hn | exact Hlen].
Defined.

(** *** Sampling *)

Lemma generateNextStreamingToken_valid_id_witness :
  ∃ token ctx' r' id,
    generateNextStreamingToken example_rand streaming_context
      (Some (model_of_file wide_file)) 0 = Some (token, ctx', r') ∧
    0 ≤ id < 64 ∧
    generated_tokens ctx' = [id] ∧ r' = 65%nat.
Proof.
  destruct (generateNextStreamingToken example_rand streaming_context
              (Some (model_of_file wide_file)) 0) as [[[token ctx'] r']|] eqn:E;
    [|vm_compute in E; discriminate].
  destruct (generateNextStreamingToken_valid_id example_rand streaming_context
              (model_of_file wide_file) 0 token ctx' r')
    as (id & Hid & Hgen & _ & _ & Hr).
  - reflexivity.
  - vm_compute. reflexivity.
  - exact E.
  - exists token, ctx', r', id. split; [reflexivity|]. split; [exact Hid|].
    split; [exact Hgen | exact Hr].
Defined.

Lemma generateNextStreamingToken_empty_vocabulary_witness :
  getNextStreamingToken example_rand 2 zero_vocab_state 0 = None.
Proof.
  destruct (generateNextStreamingToken_empty_vocabulary example_rand 2 zero_vocab_state
              (default fresh_context (contexts zero_vocab_state !! 2))
              (model_of_file zero_vocab_file) 0) as (_ & _ & Hnone).
  - vm_compute. reflexivity.
  - vm_compute. reflexivity.
  - vm_compute. reflexivity.
  - vm_compute. reflexivity.
  - vm_compute. reflexivity.
  - vm_compute. reflexivity.
  - vm_compute. reflexivity.
  - exact Hnone.
Defined.

(** *** Reachable registries *)

Lemma reachable_memory_bounded_witness :
  LlamaCppPlugin_getMemoryUsage crowded_state = tracked_bytes crowded_state ∧
  0 ≤ tracked_bytes crowded_state ≤ MEMORY_BOUND.
Proof. apply (reachable_memory_bounded example_rand), crowded_state_reachable. Defined.

Lemma reachable_contexts_live_witness :
  initialized fresh_context = true ∧
  ∃ model, models serving_state !! ctx_model fresh_context = Some model ∧
           loaded model = true.
Proof.
  apply (reachable_contexts_live example_rand serving_state 2 fresh_context).
  - apply serving_state_reachable.
  - vm_compute. reflexivity.
Defined.

Lemma reachable_handles_witness :
  (∀ k, is_Some (models crowded_state !! k) →
        0 < k < next_id crowded_state ∧ contexts crowded_state !! k = None) ∧
  (∀ k, is_Some (contexts crowded_state !! k) → 0 < k < next_id crowded_state).
Proof. apply (reachable_handles example_rand), crowded_state_reachable. Defined.

Lemma reachable_recovery_succeeds_witness :
  (recoverFromError crowded_state).1 = true ∧
  isMemoryHealthy (recoverFromError crowded_state).2 = true.
Proof.
  destruct (reachable_recovery_succeeds example_rand crowded_state
              (crowded_state_reachable example_rand)) as (H1 & H2 & _).
  split; [exact H1 | exact H2].
Defined.



Lemma unhealthy_call_uses_freed_context_witness :
  isMemoryHealthy crowded_state = false ∧
  startStreaming 16 "hello" 5 crowded_state = None ∧
  generateText example_rand 16 "hello" 5 crowded_state 0 = None.
Proof.
  assert (Hun : isMemoryHealthy crowded_state = false) by (vm_compute; reflexivity).
  split; [exact Hun|].
  apply (unhealthy_call_uses_freed_context example_rand 16 "hello" 5 crowded_state
           fresh_context 0).
  - apply crowded_state_reachable.
  - vm_compute. reflexivity.
  - vm_compute. reflexivity.
  - exact Hun.
  - lia.
  - vm_compute. split; [reflexivity | discriminate].
Defined.

Lemma reachable_startStreaming_healthy_witness :
  ∃ ok st', startStreaming 2 "hello" 5 serving_state = Some (ok, st') ∧ ok = true.
Proof.
  destruct (reachable_startStreaming_healthy example_rand 2 "hello" 5 serving_state)
    as (ok & st' & Hcall & Hiff & _).
  - apply serving_state_reachable.
  - vm_compute. reflexivity.
  - exists ok, st'. split; [exact Hcall|]. apply Hiff. split; [|split].
    + exists fresh_context. split; vm_compute; reflexivity.
    + lia.
    + vm_compute. split; [reflexivity | discriminate].
Defined.

(** *** Generation in one call *)

Lemma tiny_state_reachable rand_stream : bridge_reachable rand_stream tiny_state.
Proof.
  unfold tiny_state. apply example_create_reachable, loadModel_reachable, rtc_refl.
Qed.

Lemma reachable_generateText_session_witness :
  ∃ reply st' r',
    generateText example_rand 2 "hello" 5 tiny_state 0 = Some (reply, st', r') ∧
    1 ≤ Z.of_nat (String.length reply) ≤ 4096 ∧
    models st' = models tiny_state ∧
    LlamaCppPlugin_isStreamingComplete 2 st' = true.
Proof.
  destruct (generateText example_rand 2 "hello" 5 tiny_state 0)
    as [[[reply st'] r']|] eqn:E; [|vm_compute in E; discriminate].
  destruct (reachable_generateText_session example_rand 2 "hello" 5 tiny_state
              fresh_context (model_of_file tiny_file) 0 reply st' r')
    as (Hlen & Hm & ctx' & _ & _ & _ & Hdone & _).
  - apply tiny_state_reachable.
  - vm_compute. reflexivity.
  - vm_compute. reflexivity.
  - vm_compute. reflexivity.
  - vm_compute. discriminate.
  - vm_compute. discriminate.
  - lia.
  - vm_compute. split; [reflexivity | discriminate].
  - exact E.
  - exists reply, st', r'. split; [reflexivity|]. split; [exact Hlen|].
    split; [exact Hm | exact Hdone].
Defined.

Lemma reachable_generateText_exception_witness :
  ∃ st',
    generateText example_rand 2 "hello" 5 negative_embd_idle 0
      = Some (GENERATION_ERROR_APOLOGY, st', 0%nat) ∧
    contexts st' !! 3 = None.
Proof.
  destruct (reachable_generateText_exception example_rand 2 "hello" 5 negative_embd_idle
              fresh_context (model_of_file negative_embd_file) 0)
    as (st' & Hcall & _ & Hidle & _).
  - apply negative_embd_idle_reachable.
  - vm_compute. reflexivity.
  - vm_compute. reflexivity.
  - vm_compute. reflexivity.
  - vm_compute. reflexivity.
  - lia.
  - vm_compute. split; [reflexivity | discriminate].
  - exists st'. split; [exact Hcall|].
    apply (Hidle 3 fresh_context); [vm_compute; reflexivity | reflexivity | discriminate].
Defined.

Lemma stopStreaming_ends_session_witness :
  LlamaCppPlugin_isStreamingComplete 2 (stopStreaming 2 streaming_state) = true ∧
  tracked_bytes (stopStreaming 2 streaming_state) ≤ tracked_bytes streaming_state.
Proof.
  destruct (stopStreaming_ends_session example_rand 2 streaming_state streaming_context 0)
    as (Hdone & _ & _ & _ & Hbytes).
  - vm_compute. reflexivity.
  - reflexivity.
  - split; [exact Hdone | exact Hbytes].
Defined.


(** *** What a loaded model holds *)

Lemma loadModel_tensor_budget_witness :
  ∃ model,
    models (example_load initial_state).2 !! 1 = Some model ∧
    (1 ≤ size (tensors model) ≤ 3)%nat ∧
    0 ≤ tensor_data_size model ≤ 32 * 1024 * 1024.
Proof.
  destruct (loadModel_tensor_budget example_lib example_lib example_file "model.gguf"
              (initial_state : @State Z) 1 (example_load initial_state).2)
    as (model & Hm & _ & Hsize & _ & Hbytes).
  - apply pair_from_fst. vm_compute. reflexivity.
  - discriminate.
  - exists model. split; [exact Hm|]. split; [exact Hsize | exact Hbytes].
Defined.

Lemma loadModel_tensor_origin_witness :
  ∃ g model,
    file_gguf example_file = Some g ∧
    models (example_load initial_state).2 !! 1 = Some model ∧
    ((∀ name t, tensors model !! name = Some t → demo_tensor name t) ∨
     (∀ name t, tensors model !! name = Some t →
        is_essential_tensor name = true ∧ from_directory g name t ∧
        is_Some (tensor_types model !! name))).
Proof.
  apply (loadModel_tensor_origin example_lib example_lib example_file "model.gguf"
           (initial_state : @State Z) 1 (example_load initial_state).2).
  - apply pair_from_fst. vm_compute. reflexivity.
  - discriminate.
Defined.

(** *** Dequantization *)

Lemma dequantizeQ4KM_spec_witness :
  ∃ out, dequantizeQ4KM (F := Z) [33; 67] [0; 0; 0; 7] 3 = Some out ∧
         length out = 4%nat ∧ out !! 3%nat = Some 7.
Proof.
  destruct (dequantizeQ4KM_spec (F := Z) [33; 67] [0; 0; 0; 7] 3)
    as (out & Hcall & Hlen & _ & Hrest).
  - vm_compute. split; [discriminate | reflexivity].
  - vm_compute. discriminate.
  - vm_compute. discriminate.
  - exists out. split; [exact Hcall|]. split; [exact Hlen|].
    rewrite (Hrest 3%nat); [reflexivity | vm_compute; discriminate].
Defined.


(** *** Handles *)

Lemma retired_handles_stay_dead_witness :
  contexts (example_create 1 retired_state) !! 2 = None ∧
  LlamaCppPlugin_isStreamingComplete 2 (example_create 1 retired_state) = true.
Proof.
  destruct (retired_handles_stay_dead example_rand retired_state
              (example_create 1 retired_state) 2) as [Hdead _].
  - eapply rtc_l; [|apply rtc_refl].
    eapply (call_createContext example_rand example_lib 1 retired_state 3).
    vm_compute. reflexivity.
  - vm_compute. reflexivity.
  - destruct (Hdead ltac:(vm_compute; reflexivity)) as (Hnone & _ & Hdone & _).
    split; [exact Hnone | exact Hdone].
Defined.
